(** * TextFlow: storage tree, editor core, search, compression,
      password scoring and NLP client, embedded from the C++ sources.

    Conventions of the embedding.
    - [std::string] is a [list ascii]; [s.length()] is [len s : Z].
    - C++ [int] / [size_t] / [long long] values are [Z].  All quantities
      handled here (offsets, sizes, hashes below 2^45) stay far from the
      machine bounds, so no wrap-around occurs; C++ [%] truncates towards
      zero and is [Z.rem].
    - [std::shared_ptr<AVLNode>] is [option ptr]: [None] is [nullptr] and
      [Some p] addresses a cell of the node store of the tree.  Nodes are
      mutated in place through their address, exactly as the C++ code
      mutates them through the pointer, so that two copies of a pointer
      (for instance [root_] and an entry of [undoStack_]) observe the same
      node.
    - Recursion that follows pointers, and C++ [while] loops, take a fuel
      argument; [None] means that the run did not finish (or dereferenced
      a null or dangling pointer). *)

From Stdlib Require Import ZArith List Ascii String QArith Lia.
From stdpp Require Import base option list.

Open Scope Z_scope.

(** ** Strings *)

Abbreviation cstring := (list ascii).

Definition str (s : string) : cstring := list_ascii_of_string s.

Definition len (s : cstring) : Z := Z.of_nat (length s).

(** [s.substr(pos, n)] and [s.substr(pos)] for [0 <= pos <= s.length()]. *)
Definition substr (s : cstring) (pos n : Z) : cstring :=
  take (Z.to_nat n) (drop (Z.to_nat pos) s).

Definition substr_from (s : cstring) (pos : Z) : cstring :=
  drop (Z.to_nat pos) s.

(** [s[i]]; reading [s[s.length()]] yields the terminating NUL. *)
Definition char_at (s : cstring) (i : Z) : ascii :=
  nth (Z.to_nat i) s zero.

(** The values of a C++ [int].  Integers of the program are modelled in
    [Z]; a sum or difference computed in [int] is the sum in [Z] as long
    as it stays in this range. *)
Definition INT_MAX : Z := 2 ^ 31 - 1.
Definition int_range (z : Z) : Prop := - 2 ^ 31 <= z <= INT_MAX.

Definition ascii_eqb (a b : ascii) : bool := Ascii.eqb a b.

Fixpoint cstring_eqb (a b : cstring) : bool :=
  match a, b with
  | [], [] => true
  | x :: a', y :: b' => ascii_eqb x y && cstring_eqb a' b'
  | _, _ => false
  end.

(** [prefix_at pat s] : [pat] occurs at the start of [s]. *)
Fixpoint prefix_at (pat s : cstring) : bool :=
  match pat, s with
  | [], _ => true
  | _ :: _, [] => false
  | x :: pat', y :: s' => ascii_eqb x y && prefix_at pat' s'
  end.

(** [find_from pat s base] scans [s] (whose first character has index
    [base]) for the first occurrence of [pat]. *)
Fixpoint find_from (pat s : cstring) (base : nat) : option nat :=
  if prefix_at pat s then Some base
  else match s with
       | [] => None
       | _ :: s' => find_from pat s' (S base)
       end.

(** [data.find(pattern, pos)]: first index [>= pos] at which [pattern]
    occurs in [data], [None] for [npos]. *)
Definition find (data pat : cstring) (pos : nat) : option nat :=
  if (length data <? pos)%nat then None
  else find_from pat (drop pos data) pos.

(** The C locale character classes and [::tolower]. *)
Definition islower (c : ascii) : bool :=
  ((97 <=? nat_of_ascii c) && (nat_of_ascii c <=? 122))%nat.
Definition isupper (c : ascii) : bool :=
  ((65 <=? nat_of_ascii c) && (nat_of_ascii c <=? 90))%nat.
Definition isdigit (c : ascii) : bool :=
  ((48 <=? nat_of_ascii c) && (nat_of_ascii c <=? 57))%nat.
Definition isalnum (c : ascii) : bool :=
  islower c || isupper c || isdigit c.
Definition tolower (c : ascii) : ascii :=
  if isupper c then ascii_of_nat (nat_of_ascii c + 32) else c.
Definition isspace (c : ascii) : bool :=
  let n := nat_of_ascii c in
  (n =? 32)%nat || ((9 <=? n) && (n <=? 13))%nat.

(** ** The storage tree (avl_tree.h, avl_tree.cpp) *)

Module AVL.

(** Offsets, lengths and sizes are C++ [int]s and are modelled in [Z].
    The sums [start + length] of [collectText], [currentPos + offset] of
    [moveCursor] and [eraseStart + length] of [eraseHelper] are exact
    here; they are those of the program as long as they fit an [int]
    ([int_range]), beyond which the program's sum wraps. *)

Definition ptr := nat.

Record AVLNode := mkNode {
  data : cstring;
  height : Z;
  size : Z;
  left : option ptr;
  right : option ptr
}.

(** [AVLNode(const std::string& d)] *)
Definition newNode (d : cstring) : AVLNode :=
  mkNode d 1 (len d) None None.

Definition set_data (d : cstring) (n : AVLNode) : AVLNode :=
  mkNode d (height n) (size n) (left n) (right n).
Definition set_height (x : Z) (n : AVLNode) : AVLNode :=
  mkNode (data n) x (size n) (left n) (right n).
Definition set_size (x : Z) (n : AVLNode) : AVLNode :=
  mkNode (data n) (height n) x (left n) (right n).
Definition set_left (q : option ptr) (n : AVLNode) : AVLNode :=
  mkNode (data n) (height n) (size n) q (right n).
Definition set_right (q : option ptr) (n : AVLNode) : AVLNode :=
  mkNode (data n) (height n) (size n) (left n) q.

(** The node store: cell [p] holds the node that pointer [p] addresses. *)
Definition store := list AVLNode.

(** Computations that read and write the node store and may fail. *)
Definition M (A : Type) : Type := store -> option (A * store).

Definition ret {A} (a : A) : M A := fun h => Some (a, h).
Definition bind {A B} (m : M A) (k : A -> M B) : M B :=
  fun h => match m h with
           | Some (a, h') => k a h'
           | None => None
           end.
Definition fail {A} : M A := fun _ => None.

Notation "x <-- m ;; k" := (bind m (fun x => k))
  (at level 20, m at level 19, k at level 200, only parsing).
Notation "m ;;; k" := (bind m (fun _ => k))
  (at level 20, k at level 200, only parsing).

(** [*p] *)
Definition deref (p : ptr) : M AVLNode :=
  fun h => match h !! p with
           | Some n => Some (n, h)
           | None => None
           end.

(** [p->field = v], as an update of the cell. *)
Definition modify (p : ptr) (f : AVLNode -> AVLNode) : M unit :=
  fun h => match h !! p with
           | Some n => Some (tt, <[p := f n]> h)
           | None => None
           end.

(** [std::make_shared<AVLNode>(text)] *)
Definition alloc (n : AVLNode) : M ptr :=
  fun h => Some (length h, h ++ [n]).

(** Dereferencing a [shared_ptr] that must not be null. *)
Definition nonnull (q : option ptr) : M ptr :=
  match q with
  | Some p => ret p
  | None => fail
  end.

Definition getHeight (node : option ptr) : M Z :=
  match node with
  | Some p => n <-- deref p ;; ret (height n)
  | None => ret 0
  end.

Definition getSize (node : option ptr) : M Z :=
  match node with
  | Some p => n <-- deref p ;; ret (size n)
  | None => ret 0
  end.

Definition getBalance (node : option ptr) : M Z :=
  match node with
  | Some p =>
      n <-- deref p ;;
      hl <-- getHeight (left n) ;;
      hr <-- getHeight (right n) ;;
      ret (hl - hr)
  | None => ret 0
  end.

Definition updateHeight (node : option ptr) : M unit :=
  match node with
  | Some p =>
      n <-- deref p ;;
      hl <-- getHeight (left n) ;;
      hr <-- getHeight (right n) ;;
      modify p (set_height (1 + Z.max hl hr))
  | None => ret tt
  end.

Definition updateSize (node : option ptr) : M unit :=
  match node with
  | Some p =>
      n <-- deref p ;;
      sl <-- getSize (left n) ;;
      sr <-- getSize (right n) ;;
      modify p (set_size (len (data n) + sl + sr))
  | None => ret tt
  end.

Definition rotateRight (y : ptr) : M ptr :=
  ny <-- deref y ;;
  x <-- nonnull (left ny) ;;
  nx <-- deref x ;;
  let T2 := right nx in
  modify x (set_right (Some y)) ;;;
  modify y (set_left T2) ;;;
  updateHeight (Some y) ;;;
  updateSize (Some y) ;;;
  updateHeight (Some x) ;;;
  updateSize (Some x) ;;;
  ret x.

Definition rotateLeft (x : ptr) : M ptr :=
  nx <-- deref x ;;
  y <-- nonnull (right nx) ;;
  ny <-- deref y ;;
  let T2 := left ny in
  modify y (set_left (Some x)) ;;;
  modify x (set_right T2) ;;;
  updateHeight (Some x) ;;;
  updateSize (Some x) ;;;
  updateHeight (Some y) ;;;
  updateSize (Some y) ;;;
  ret y.

Definition balance (node : option ptr) : M (option ptr) :=
  match node with
  | None => ret None
  | Some p =>
      updateHeight node ;;;
      updateSize node ;;;
      b <-- getBalance node ;;
      n <-- deref p ;;
      (* Left Left Case *)
      c1 <-- (if 1 <? b
              then bl <-- getBalance (left n) ;; ret (0 <=? bl)
              else ret false) ;;
      if c1 then r <-- rotateRight p ;; ret (Some r) else
      (* Right Right Case *)
      c2 <-- (if b <? -1
              then br <-- getBalance (right n) ;; ret (br <=? 0)
              else ret false) ;;
      if c2 then r <-- rotateLeft p ;; ret (Some r) else
      (* Left Right Case *)
      c3 <-- (if 1 <? b
              then bl <-- getBalance (left n) ;; ret (bl <? 0)
              else ret false) ;;
      if c3 then
        l <-- nonnull (left n) ;;
        l' <-- rotateLeft l ;;
        modify p (set_left (Some l')) ;;;
        r <-- rotateRight p ;; ret (Some r) else
      (* Right Left Case *)
      c4 <-- (if b <? -1
              then br <-- getBalance (right n) ;; ret (0 <? br)
              else ret false) ;;
      if c4 then
        r0 <-- nonnull (right n) ;;
        r' <-- rotateRight r0 ;;
        modify p (set_right (Some r')) ;;;
        r <-- rotateLeft p ;; ret (Some r)
      else ret node
  end.

Fixpoint insertHelper (fuel : nat) (node : option ptr) (position : Z)
    (text : cstring) : M (option ptr) :=
  match fuel with
  | O => fail
  | S fuel' =>
      match node with
      | None => p <-- alloc (newNode text) ;; ret (Some p)
      | Some p =>
          n <-- deref p ;;
          leftSize <-- getSize (left n) ;;
          (if position <=? leftSize then
             l <-- insertHelper fuel' (left n) position text ;;
             modify p (set_left l)
           else if position <=? leftSize + len (data n) then
             (* Insert within current node's data *)
             let insertPos := position - leftSize in
             let leftPart := substr (data n) 0 insertPos in
             let rightPart := substr_from (data n) insertPos in
             modify p (set_data (leftPart ++ text ++ rightPart)) ;;;
             updateSize node
           else
             r <-- insertHelper fuel' (right n)
                     (position - leftSize - len (data n)) text ;;
             modify p (set_right r)) ;;;
          balance node
      end
  end.

Fixpoint eraseHelper (fuel : nat) (node : option ptr) (position length : Z)
    : M (option ptr) :=
  match fuel with
  | O => fail
  | S fuel' =>
      match node with
      | None => ret None
      | Some p =>
          n <-- deref p ;;
          leftSize <-- getSize (left n) ;;
          let nodeDataLength := len (data n) in
          (if position <? leftSize then
             (* Erase from left subtree *)
             l <-- eraseHelper fuel' (left n) position length ;;
             modify p (set_left l)
           else if position <? leftSize + nodeDataLength then
             (* Erase from current node *)
             let eraseStart := position - leftSize in
             let eraseEnd := Z.min (eraseStart + length) nodeDataLength in
             let leftPart := substr (data n) 0 eraseStart in
             let rightPart := substr_from (data n) eraseEnd in
             modify p (set_data (leftPart ++ rightPart)) ;;;
             updateSize node ;;;
             (* If there's remaining length to erase, continue with right
                subtree *)
             let remainingLength := length - (eraseEnd - eraseStart) in
             if 0 <? remainingLength then
               r <-- eraseHelper fuel' (right n) 0 remainingLength ;;
               modify p (set_right r)
             else ret tt
           else
             (* Erase from right subtree *)
             r <-- eraseHelper fuel' (right n)
                     (position - leftSize - nodeDataLength) length ;;
             modify p (set_right r)) ;;;
          balance node
      end
  end.

(** Read-only traversals: the store is not modified, the C++ reference
    parameters [result] and [currentPos] are threaded explicitly. *)

Fixpoint inOrderTraversal (fuel : nat) (h : store) (node : option ptr)
    : option (list cstring) :=
  match fuel with
  | O => None
  | S fuel' =>
      match node with
      | None => Some []
      | Some p =>
          n ← h !! p;
          l ← inOrderTraversal fuel' h (left n);
          r ← inOrderTraversal fuel' h (right n);
          Some (l ++ [data n] ++ r)
      end
  end.

(** The body of [collectText] at one node, after the left subtree. *)
Definition collectNode (d : cstring) (start length : Z)
    (st : cstring * Z) : cstring * Z :=
  let '(result, currentPos) := st in
  let result' :=
    if (currentPos <? start + length) && (start <? currentPos + len d) then
      let nodeStart := Z.max 0 (start - currentPos) in
      let nodeEnd := Z.min (len d) (start + length - currentPos) in
      if nodeStart <? nodeEnd
      then result ++ substr d nodeStart (nodeEnd - nodeStart)
      else result
    else result in
  (result', currentPos + len d).

Fixpoint collectText (fuel : nat) (h : store) (node : option ptr)
    (start length : Z) (st : cstring * Z) : option (cstring * Z) :=
  match fuel with
  | O => None
  | S fuel' =>
      match node with
      | None => Some st
      | Some p =>
          n ← h !! p;
          st1 ← collectText fuel' h (left n) start length st;
          collectText fuel' h (right n) start length
            (collectNode (data n) start length st1)
      end
  end.

(** The [while ((pos = node->data.find(pattern, pos)) != npos)] loop. *)
Fixpoint searchLoop (fuel : nat) (d pattern : cstring) (pos : nat)
    (currentPos : Z) (results : list Z) : option (list Z) :=
  match fuel with
  | O => None
  | S fuel' =>
      match find d pattern pos with
      | None => Some results
      | Some q =>
          searchLoop fuel' d pattern (q + length pattern)%nat currentPos
            (results ++ [currentPos + Z.of_nat q])
      end
  end.

Fixpoint searchInNode (fuel : nat) (h : store) (node : option ptr)
    (pattern : cstring) (st : list Z * Z) : option (list Z * Z) :=
  match fuel with
  | O => None
  | S fuel' =>
      match node with
      | None => Some st
      | Some p =>
          n ← h !! p;
          st1 ← searchInNode fuel' h (left n) pattern st;
          results ← searchLoop (S (length (data n))) (data n) pattern 0
                      (snd st1) (fst st1);
          searchInNode fuel' h (right n) pattern
            (results, snd st1 + len (data n))
      end
  end.

Fixpoint validateHelper (fuel : nat) (h : store) (node : option ptr)
    : option bool :=
  match fuel with
  | O => None
  | S fuel' =>
      match node with
      | None => Some true
      | Some p =>
          n ← h !! p;
          b ← fst <$> getBalance node h;
          if (b <? -1) || (1 <? b) then Some false
          else
            sl ← match left n with
                 | Some l => size <$> h !! l
                 | None => Some 0
                 end;
            sr ← match right n with
                 | Some r => size <$> h !! r
                 | None => Some 0
                 end;
            if negb (size n =? len (data n) + sl + sr) then Some false
            else
              vl ← validateHelper fuel' h (left n);
              if (vl : bool) then validateHelper fuel' h (right n)
              else Some false
      end
  end.

(** The tree object: the nodes it has allocated, [root_] and the two
    history stacks (the head of a list is the top of the stack). *)
Record AVLTree := mkTree {
  nodes : store;
  root_ : option ptr;
  undoStack_ : list (option ptr);
  redoStack_ : list (option ptr)
}.

(** [AVLTree::AVLTree()] *)
Definition empty : AVLTree := mkTree nil None nil nil.

(** Enough fuel for every pointer path of an acyclic store. *)
Definition fuel_of (t : AVLTree) : nat := S (length (nodes t)).

Definition saveState (t : AVLTree) : AVLTree :=
  let undo1 :=
    match root_ t with
    | Some _ =>
        let pushed := root_ t :: undoStack_ t in
        if (50 <? length pushed)%nat
        then rev (take (length pushed - 25) pushed) (* Limit history size *)
        else pushed
    | None => undoStack_ t
    end in
  mkTree (nodes t) (root_ t) undo1 [].  (* Clear redo stack *)

Definition insert (position : Z) (text : cstring) (t : AVLTree)
    : option AVLTree :=
  match text with
  | [] => Some t
  | _ =>
      let t1 := saveState t in
      '(r, h) ← insertHelper (fuel_of t1) (root_ t1) position text (nodes t1);
      Some (mkTree h r (undoStack_ t1) (redoStack_ t1))
  end.

Definition erase (position length : Z) (t : AVLTree) : option AVLTree :=
  if length <=? 0 then Some t
  else
    let t1 := saveState t in
    '(r, h) ← eraseHelper (fuel_of t1) (root_ t1) position length (nodes t1);
    Some (mkTree h r (undoStack_ t1) (redoStack_ t1)).

Definition getText (start length : Z) (t : AVLTree) : option cstring :=
  fst <$> collectText (fuel_of t) (nodes t) (root_ t) start length ([], 0).

Definition size_of (t : AVLTree) : option Z :=
  fst <$> getSize (root_ t) (nodes t).

Definition getChar (position : Z) (t : AVLTree) : option ascii :=
  sz ← size_of t;
  if (position <? 0) || (sz <=? position) then Some zero
  else
    text ← getText position 1 t;
    Some (match text with
          | [] => zero
          | c :: _ => c
          end).

(** [moveCursor(currentPos, offset)] of the tree. *)
Definition moveCursor (currentPos offset : Z) (t : AVLTree) : option Z :=
  totalSize ← size_of t;
  Some (Z.max 0 (Z.min (currentPos + offset) totalSize)).

Definition undo (t : AVLTree) : bool * AVLTree :=
  match undoStack_ t with
  | [] => (false, t)
  | top :: rest =>
      (true, mkTree (nodes t) top rest (root_ t :: redoStack_ t))
  end.

Definition redo (t : AVLTree) : bool * AVLTree :=
  match redoStack_ t with
  | [] => (false, t)
  | top :: rest =>
      (true, mkTree (nodes t) top (root_ t :: undoStack_ t) rest)
  end.

Definition findAll (pattern : cstring) (t : AVLTree) : option (list Z) :=
  fst <$> searchInNode (fuel_of t) (nodes t) (root_ t) pattern ([], 0).

Definition validate (t : AVLTree) : option bool :=
  validateHelper (fuel_of t) (nodes t) (root_ t).

Definition clearHistory (t : AVLTree) : AVLTree :=
  mkTree (nodes t) (root_ t) nil nil.

(** The part of [loadFromFile] after the file has been read into
    [content]. *)
Definition loadContent (content : cstring) (t : AVLTree) : option AVLTree :=
  let t1 := clearHistory t in
  let t2 := mkTree (nodes t1) None (undoStack_ t1) (redoStack_ t1) in
  match content with
  | [] => Some t2
  | _ => insert 0 content t2
  end.

(** [text.find(c)] and [text.rfind(c)] for a character; [None] is [npos]. *)
Fixpoint find_char (c : ascii) (s : cstring) : option nat :=
  match s with
  | [] => None
  | x :: s' => if ascii_eqb x c then Some O else S <$> find_char c s'
  end.

Fixpoint rfind_char (c : ascii) (s : cstring) : option nat :=
  match s with
  | [] => None
  | x :: s' =>
      match rfind_char c s' with
      | Some i => Some (S i)
      | None => if ascii_eqb x c then Some O else None
      end
  end.

(** [std::count(text.begin(), text.end(), c)] *)
Fixpoint count_char (c : ascii) (s : cstring) : Z :=
  match s with
  | [] => 0
  | x :: s' => (if ascii_eqb x c then 1 else 0) + count_char c s'
  end.

Definition newline : ascii := ascii_of_nat 10.

Definition getLineStart (position : Z) (t : AVLTree) : option Z :=
  text ← getText 0 position t;
  Some (match rfind_char newline text with
        | None => 0
        | Some lastNewline => Z.of_nat lastNewline + 1
        end).

Definition getLineEnd (position : Z) (t : AVLTree) : option Z :=
  sz ← size_of t;
  text ← getText position (sz - position) t;
  Some (match find_char newline text with
        | None => sz
        | Some nextNewline => position + Z.of_nat nextNewline
        end).

Definition getLineNumber (position : Z) (t : AVLTree) : option Z :=
  text ← getText 0 position t;
  Some (count_char newline text + 1).

Definition getColumnNumber (position : Z) (t : AVLTree) : option Z :=
  lineStart ← getLineStart position t;
  Some (position - lineStart).

End AVL.

(** ** The editor core (text_editor.h, text_editor.cpp) *)

Module Editor.

Record Document := mkDocument {
  filename : cstring;
  title : cstring;
  modified : bool;
  content : AVL.AVLTree
}.

(** [Document(const std::string& name = "Untitled")] *)
Definition newDoc (name : cstring) : Document :=
  mkDocument name name false AVL.empty.

Record TextEditor := mkEditor {
  documents_ : list Document;
  currentDocumentIndex_ : Z;
  cursorPosition_ : Z;
  selectionStart_ : Z;
  selectionEnd_ : Z;
  isSelecting_ : bool;
  clipboard_ : cstring
}.

Definition set_documents (ds : list Document) (e : TextEditor) : TextEditor :=
  mkEditor ds (currentDocumentIndex_ e) (cursorPosition_ e)
    (selectionStart_ e) (selectionEnd_ e) (isSelecting_ e) (clipboard_ e).
Definition set_index (i : Z) (e : TextEditor) : TextEditor :=
  mkEditor (documents_ e) i (cursorPosition_ e)
    (selectionStart_ e) (selectionEnd_ e) (isSelecting_ e) (clipboard_ e).
Definition set_cursor (c : Z) (e : TextEditor) : TextEditor :=
  mkEditor (documents_ e) (currentDocumentIndex_ e) c
    (selectionStart_ e) (selectionEnd_ e) (isSelecting_ e) (clipboard_ e).
Definition set_selection (s t : Z) (sel : bool) (e : TextEditor)
    : TextEditor :=
  mkEditor (documents_ e) (currentDocumentIndex_ e) (cursorPosition_ e)
    s t sel (clipboard_ e).
Definition set_clipboard (c : cstring) (e : TextEditor) : TextEditor :=
  mkEditor (documents_ e) (currentDocumentIndex_ e) (cursorPosition_ e)
    (selectionStart_ e) (selectionEnd_ e) (isSelecting_ e) c.

Definition isValidDocumentIndex (index : Z) (e : TextEditor) : bool :=
  (0 <=? index) && (index <? Z.of_nat (length (documents_ e))).

(** [None] is the null [Document*]. *)
Definition getCurrentDocument (e : TextEditor) : option Document :=
  if isValidDocumentIndex (currentDocumentIndex_ e) e
  then documents_ e !! Z.to_nat (currentDocumentIndex_ e)
  else None.

(** Writes through the [Document*] of the current document. *)
Definition set_content (c : AVL.AVLTree) (e : TextEditor) : TextEditor :=
  match getCurrentDocument e with
  | Some d =>
      set_documents
        (<[Z.to_nat (currentDocumentIndex_ e) :=
             mkDocument (filename d) (title d) (modified d) c]> (documents_ e))
        e
  | None => e
  end.

Definition markDocumentModified (e : TextEditor) : TextEditor :=
  match getCurrentDocument e with
  | Some d =>
      set_documents
        (<[Z.to_nat (currentDocumentIndex_ e) :=
             mkDocument (filename d) (title d) true (content d)]>
           (documents_ e))
        e
  | None => e
  end.

Definition hasSelection (e : TextEditor) : bool :=
  negb (selectionStart_ e =? selectionEnd_ e).

Definition clearSelection (e : TextEditor) : TextEditor :=
  set_selection (cursorPosition_ e) (cursorPosition_ e) false e.

Definition normalizeSelection (e : TextEditor) : TextEditor :=
  if selectionEnd_ e <? selectionStart_ e
  then set_selection (selectionEnd_ e) (selectionStart_ e) (isSelecting_ e) e
  else e.

Definition ensureValidCursorPosition (e : TextEditor) : option TextEditor :=
  match getCurrentDocument e with
  | Some d =>
      sz ← AVL.size_of (content d);
      Some (set_cursor (Z.max 0 (Z.min (cursorPosition_ e) sz)) e)
  | None => Some e
  end.

Definition newDocument (e : TextEditor) : TextEditor :=
  let e1 := set_documents (documents_ e ++ [newDoc (str "Untitled")]) e in
  let e2 := set_index (Z.of_nat (length (documents_ e1)) - 1) e1 in
  clearSelection (set_cursor 0 e2).

(** [TextEditor::TextEditor()] *)
Definition init : TextEditor :=
  newDocument (mkEditor nil 0 0 0 0 false nil).

Definition switchToDocument (index : Z) (e : TextEditor) : TextEditor :=
  if isValidDocumentIndex index e
  then clearSelection (set_cursor 0 (set_index index e))
  else e.

Definition closeDocument (index : Z) (e : TextEditor) : bool * TextEditor :=
  if negb (isValidDocumentIndex index e) then (false, e)
  else
    let e1 := set_documents (delete (Z.to_nat index) (documents_ e)) e in
    let n := Z.of_nat (length (documents_ e1)) in
    let e2 := if n <=? currentDocumentIndex_ e1
              then set_index (Z.max 0 (n - 1)) e1 else e1 in
    let e3 := match documents_ e2 with
              | [] => newDocument e2
              | _ => e2
              end in
    (true, clearSelection (set_cursor 0 e3)).

Definition deleteSelection (e : TextEditor) : option TextEditor :=
  if negb (hasSelection e) then Some e
  else
    match getCurrentDocument e with
    | None => Some e
    | Some d =>
        let length := selectionEnd_ e - selectionStart_ e in
        c ← AVL.erase (selectionStart_ e) length (content d);
        Some (markDocumentModified
                (clearSelection
                   (set_cursor (selectionStart_ e) (set_content c e))))
    end.

Definition insertText (text : cstring) (e : TextEditor) : option TextEditor :=
  match getCurrentDocument e with
  | None => Some e
  | Some _ =>
      e1 ← (if hasSelection e then deleteSelection e else Some e);
      d1 ← getCurrentDocument e1;
      c ← AVL.insert (cursorPosition_ e1) text (content d1);
      Some (markDocumentModified
              (set_cursor (cursorPosition_ e1 + len text) (set_content c e1)))
  end.

Definition deleteText (length : Z) (e : TextEditor) : option TextEditor :=
  match getCurrentDocument e with
  | None => Some e
  | Some d =>
      if hasSelection e then deleteSelection e
      else
        sz ← AVL.size_of (content d);
        let actualLength := Z.min length (sz - cursorPosition_ e) in
        if 0 <? actualLength then
          c ← AVL.erase (cursorPosition_ e) actualLength (content d);
          Some (markDocumentModified (set_content c e))
        else Some e
  end.

Definition backspace (length : Z) (e : TextEditor) : option TextEditor :=
  match getCurrentDocument e with
  | None => Some e
  | Some d =>
      if hasSelection e then deleteSelection e
      else
        let actualLength := Z.min length (cursorPosition_ e) in
        if 0 <? actualLength then
          let e1 := set_cursor (cursorPosition_ e - actualLength) e in
          c ← AVL.erase (cursorPosition_ e1) actualLength (content d);
          Some (markDocumentModified (set_content c e1))
        else Some e
  end.

Definition insertNewline (e : TextEditor) : option TextEditor :=
  insertText [ascii_of_nat 10] e.

Definition insertTab (e : TextEditor) : option TextEditor :=
  insertText (str "    ") e.

Definition moveCursor (offset : Z) (e : TextEditor) : option TextEditor :=
  match getCurrentDocument e with
  | None => Some e
  | Some d =>
      newPosition ← AVL.moveCursor (cursorPosition_ e) offset (content d);
      ensureValidCursorPosition (set_cursor newPosition e)
  end.

Definition moveCursorTo (position : Z) (e : TextEditor) : option TextEditor :=
  match getCurrentDocument e with
  | None => Some e
  | Some d =>
      sz ← AVL.size_of (content d);
      ensureValidCursorPosition
        (set_cursor (Z.max 0 (Z.min position sz)) e)
  end.

Definition moveCursorToDocumentStart (e : TextEditor) : TextEditor :=
  set_cursor 0 e.

Definition moveCursorToDocumentEnd (e : TextEditor) : option TextEditor :=
  match getCurrentDocument e with
  | None => Some e
  | Some d => sz ← AVL.size_of (content d); Some (set_cursor sz e)
  end.

Definition moveCursorLeft (e : TextEditor) : option TextEditor :=
  if 0 <? cursorPosition_ e then moveCursor (-1) e else Some e.

Definition moveCursorRight (e : TextEditor) : option TextEditor :=
  match getCurrentDocument e with
  | None => Some e
  | Some d =>
      sz ← AVL.size_of (content d);
      if cursorPosition_ e <? sz then moveCursor 1 e else Some e
  end.

Definition startSelection (e : TextEditor) : TextEditor :=
  set_selection (cursorPosition_ e) (cursorPosition_ e) true e.

Definition endSelection (e : TextEditor) : TextEditor :=
  if isSelecting_ e
  then normalizeSelection
         (set_selection (selectionStart_ e) (cursorPosition_ e) false e)
  else e.

Definition isWordChar (c : ascii) : bool :=
  isalnum c || ascii_eqb c "_"%char.

(** [while (start > 0) { ...; start--; }] of [selectWord]. *)
Fixpoint wordStart (n : nat) (t : AVL.AVLTree) (start : Z) : option Z :=
  match n with
  | O => Some start
  | S n' =>
      if 0 <? start then
        c ← AVL.getChar (start - 1) t;
        if negb (isWordChar c) then Some start
        else wordStart n' t (start - 1)
      else Some start
  end.

(** [while (end < doc->content->getSize()) { ...; end++; }] *)
Fixpoint wordEnd (n : nat) (t : AVL.AVLTree) (end_ : Z) : option Z :=
  match n with
  | O => Some end_
  | S n' =>
      sz ← AVL.size_of t;
      if end_ <? sz then
        c ← AVL.getChar end_ t;
        if negb (isWordChar c) then Some end_
        else wordEnd n' t (end_ + 1)
      else Some end_
  end.

Definition selectWord (e : TextEditor) : option TextEditor :=
  match getCurrentDocument e with
  | None => Some e
  | Some d =>
      (* Find word boundaries *)
      sz ← AVL.size_of (content d);
      start ← wordStart (Z.to_nat (cursorPosition_ e)) (content d)
                (cursorPosition_ e);
      end_ ← wordEnd (Z.to_nat (sz - cursorPosition_ e)) (content d)
               (cursorPosition_ e);
      Some (set_selection start end_ false e)
  end.

Definition getSelectedText (e : TextEditor) : option cstring :=
  if negb (hasSelection e) then Some []
  else
    match getCurrentDocument e with
    | None => Some []
    | Some d =>
        AVL.getText (selectionStart_ e) (selectionEnd_ e - selectionStart_ e)
          (content d)
    end.

Definition copy (e : TextEditor) : option TextEditor :=
  if hasSelection e
  then s ← getSelectedText e; Some (set_clipboard s e)
  else Some e.

Definition cut (e : TextEditor) : option TextEditor :=
  e1 ← copy e; deleteSelection e1.

Definition paste (e : TextEditor) : option TextEditor :=
  match clipboard_ e with
  | [] => Some e
  | _ => insertText (clipboard_ e) e
  end.

Definition undo (e : TextEditor) : option TextEditor :=
  match getCurrentDocument e with
  | None => Some e
  | Some d =>
      let '(ok, c) := AVL.undo (content d) in
      if ok then
        ensureValidCursorPosition (markDocumentModified (set_content c e))
      else Some e
  end.

Definition redo (e : TextEditor) : option TextEditor :=
  match getCurrentDocument e with
  | None => Some e
  | Some d =>
      let '(ok, c) := AVL.redo (content d) in
      if ok then
        ensureValidCursorPosition (markDocumentModified (set_content c e))
      else Some e
  end.

(** The filter loop of the case-insensitive branch of [findText]. *)
Fixpoint filterResults (t : AVL.AVLTree) (pattern searchPattern : cstring)
    (results : list Z) : option (list Z) :=
  match results with
  | [] => Some []
  | pos :: rest =>
      text ← AVL.getText pos (len pattern) t;
      filtered ← filterResults t pattern searchPattern rest;
      Some (if cstring_eqb (map tolower text) searchPattern
            then pos :: filtered else filtered)
  end.

Definition findText (pattern : cstring) (caseSensitive : bool)
    (e : TextEditor) : option (list Z) :=
  match getCurrentDocument e with
  | None => Some []
  | Some d =>
      let searchPattern :=
        if caseSensitive then pattern else map tolower pattern in
      results ← AVL.findAll pattern (content d);
      if negb caseSensitive
      then filterResults (content d) pattern searchPattern results
      else Some results
  end.

Definition getText (e : TextEditor) : option cstring :=
  match getCurrentDocument e with
  | None => Some []
  | Some d => sz ← AVL.size_of (content d); AVL.getText 0 sz (content d)
  end.


(** ** Lines *)

Definition getLineCount (e : TextEditor) : option Z :=
  match getCurrentDocument e with
  | None => Some 0
  | Some _ =>
      text ← getText e;
      Some (AVL.count_char AVL.newline text + 1)
  end.

Definition getCurrentLine (e : TextEditor) : option Z :=
  match getCurrentDocument e with
  | None => Some 1
  | Some d => AVL.getLineNumber (cursorPosition_ e) (content d)
  end.

Definition getCurrentColumn (e : TextEditor) : option Z :=
  match getCurrentDocument e with
  | None => Some 1
  | Some d =>
      c ← AVL.getColumnNumber (cursorPosition_ e) (content d);
      Some (c + 1)
  end.

Definition moveCursorToLineStart (e : TextEditor) : option TextEditor :=
  match getCurrentDocument e with
  | None => Some e
  | Some d =>
      p ← AVL.getLineStart (cursorPosition_ e) (content d);
      Some (set_cursor p e)
  end.

Definition moveCursorToLineEnd (e : TextEditor) : option TextEditor :=
  match getCurrentDocument e with
  | None => Some e
  | Some d =>
      p ← AVL.getLineEnd (cursorPosition_ e) (content d);
      Some (set_cursor p e)
  end.

Definition selectLine (e : TextEditor) : option TextEditor :=
  match getCurrentDocument e with
  | None => Some e
  | Some d =>
      s ← AVL.getLineStart (cursorPosition_ e) (content d);
      t ← AVL.getLineEnd (cursorPosition_ e) (content d);
      Some (set_selection s t false e)
  end.

(** [for (int i = 0; i < n; ++i) step();] *)
Fixpoint times (n : nat) (step : TextEditor -> option TextEditor)
    (e : TextEditor) : option TextEditor :=
  match n with
  | O => Some e
  | S n' => e1 ← step e; times n' step e1
  end.

(** The tail of [moveCursorUp] and [moveCursorDown], after the call of
    [moveCursorToLine]: the column is restored on the new line. *)
Definition restoreColumn (currentColumn : Z) (e : TextEditor)
    : option TextEditor :=
  d ← getCurrentDocument e;
  newLineStart ← AVL.getLineStart (cursorPosition_ e) (content d);
  newLineEnd ← AVL.getLineEnd (cursorPosition_ e) (content d);
  let maxColumn := newLineEnd - newLineStart in
  moveCursorTo (newLineStart + Z.min currentColumn maxColumn) e.

(** [moveCursorUp], [moveCursorDown] and [moveCursorToLine] call each
    other; [fuel] bounds the depth of the calls, [None] is a call chain
    that has not returned within it. *)
Fixpoint moveCursorUp (fuel : nat) (e : TextEditor) : option TextEditor :=
  match fuel with
  | O => None
  | S fuel' =>
      match getCurrentDocument e with
      | None => Some e
      | Some _ =>
          currentLine ← getCurrentLine e;
          currentColumn ← getCurrentColumn e;
          if 1 <? currentLine then
            e1 ← moveCursorToLine fuel' (currentLine - 1) e;
            restoreColumn currentColumn e1
          else Some e
      end
  end
with moveCursorDown (fuel : nat) (e : TextEditor) : option TextEditor :=
  match fuel with
  | O => None
  | S fuel' =>
      match getCurrentDocument e with
      | None => Some e
      | Some _ =>
          currentLine ← getCurrentLine e;
          currentColumn ← getCurrentColumn e;
          totalLines ← getLineCount e;
          if currentLine <? totalLines then
            e1 ← moveCursorToLine fuel' (currentLine + 1) e;
            restoreColumn currentColumn e1
          else Some e
      end
  end
with moveCursorToLine (fuel : nat) (line : Z) (e : TextEditor)
    : option TextEditor :=
  match fuel with
  | O => None
  | S fuel' =>
      match getCurrentDocument e with
      | None => Some e
      | Some _ =>
          currentLine ← getCurrentLine e;
          let lineDiff := line - currentLine in
          if 0 <? lineDiff then
            times (Z.to_nat lineDiff) (moveCursorDown fuel') e
          else if lineDiff <? 0 then
            times (Z.to_nat (- lineDiff)) (moveCursorUp fuel') e
          else Some e
      end
  end.

(** ** Search and replace *)

(** The loops of [replaceText] and [replaceRegex]: at each position the
    length of the pattern is erased and the replacement inserted. *)
Fixpoint replaceLoop (positions : list Z) (pattern replacement : cstring)
    (t : AVL.AVLTree) : option AVL.AVLTree :=
  match positions with
  | [] => Some t
  | pos :: rest =>
      t1 ← AVL.erase pos (len pattern) t;
      t2 ← AVL.insert pos replacement t1;
      replaceLoop rest pattern replacement t2
  end.

(** [replaceText(pattern, replacement, all)]; the positions are those of
    [findText(pattern)], whose [caseSensitive] defaults to [false].  The
    cursor and the selection are left as they are. *)
Definition replaceText (pattern replacement : cstring) (all : bool)
    (e : TextEditor) : option TextEditor :=
  match getCurrentDocument e with
  | None => Some e
  | Some d =>
      positions ← findText pattern false e;
      c ← (if all then
             (* Replace all occurrences, from the last to the first *)
             replaceLoop (rev positions) pattern replacement (content d)
           else
             (* Replace first occurrence *)
             replaceLoop (take 1 positions) pattern replacement (content d));
      Some (markDocumentModified (set_content c e))
  end.

(** [replaceRegex(pattern, replacement, all)].  The regular-expression
    engine is not modelled: [positions] stands for what
    [findRegex(pattern)] returns (no position for an invalid pattern). *)
Definition replaceRegex (positions : list Z) (pattern replacement : cstring)
    (all : bool) (e : TextEditor) : option TextEditor :=
  match getCurrentDocument e with
  | None => Some e
  | Some d =>
      c ← (if all then
             replaceLoop (rev positions) pattern replacement (content d)
           else
             replaceLoop (take 1 positions) pattern replacement (content d));
      Some (markDocumentModified (set_content c e))
  end.

(** ** Files *)

(** [openDocument(filename)].  The file system is not modelled: [file]
    is the content read from [filename], [None] when [loadFromFile] throws
    because the file cannot be opened. *)
Definition openDocument (filename : cstring) (file : option cstring)
    (e : TextEditor) : option (bool * TextEditor) :=
  match file with
  | None => Some (false, e)
  | Some fileContent =>
      c ← AVL.loadContent fileContent AVL.empty;
      let doc := mkDocument filename filename false c in
      let e1 := set_documents (documents_ e ++ [doc]) e in
      let e2 := set_index (Z.of_nat (length (documents_ e1)) - 1) e1 in
      Some (true, clearSelection (set_cursor 0 e2))
  end.

(** [saveDocument()]; [ok] tells whether [saveToFile] could create the
    file. *)
Definition saveDocument (ok : bool) (e : TextEditor) : bool * TextEditor :=
  match getCurrentDocument e with
  | None => (false, e)
  | Some d =>
      if ok then
        (true,
         set_documents
           (<[Z.to_nat (currentDocumentIndex_ e) :=
                mkDocument (filename d) (title d) false (content d)]>
              (documents_ e))
           e)
      else (false, e)
  end.

Definition saveAsDocument (name : cstring) (ok : bool) (e : TextEditor)
    : bool * TextEditor :=
  match getCurrentDocument e with
  | None => (false, e)
  | Some d =>
      saveDocument ok
        (set_documents
           (<[Z.to_nat (currentDocumentIndex_ e) :=
                mkDocument name name (modified d) (content d)]>
              (documents_ e))
           e)
  end.

(** The four calls for compressed and encrypted files forward to
    [openDocument] and [saveAsDocument]; the password is not used. *)
Definition loadCompressedFile := openDocument.
Definition saveCompressedFile := saveAsDocument.
Definition loadEncryptedFile (name password : cstring) := openDocument name.
Definition saveEncryptedFile (name password : cstring) := saveAsDocument name.

(** ** Commands *)

(** The public operations that change the documents, the cursor, the
    selection or the clipboard, as one command type.  The three moves by
    line, whose calls nest, are run with a depth of their own (see
    [reachable]); the getters and [findText] change nothing, and the
    auto-save calls touch only the auto-save fields and a backup file. *)
Inductive command :=
| InsertText (text : cstring)
| DeleteText (length : Z)
| Backspace (length : Z)
| InsertNewline
| InsertTab
| MoveCursor (offset : Z)
| MoveCursorTo (position : Z)
| MoveCursorToDocumentStart
| MoveCursorToDocumentEnd
| MoveCursorLeft
| MoveCursorRight
| StartSelection
| EndSelection
| ClearSelection
| SelectWord
| Copy
| Cut
| Paste
| Undo
| Redo
| DeleteSelection
| NewDocument
| SwitchToDocument (index : Z)
| CloseDocument (index : Z)
| MoveCursorToLineStart
| MoveCursorToLineEnd
| SelectLine
| ReplaceText (pattern replacement : cstring) (all : bool)
| ReplaceRegex (positions : list Z) (pattern replacement : cstring)
    (all : bool)
| SaveDocument (ok : bool)
| SaveAsDocument (name : cstring) (ok : bool)
| SaveCompressedFile (name : cstring) (ok : bool)
| SaveEncryptedFile (name password : cstring) (ok : bool)
| OpenDocument (name : cstring) (file : option cstring)
| LoadCompressedFile (name : cstring) (file : option cstring)
| LoadEncryptedFile (name password : cstring) (file : option cstring).

Definition run (c : command) (e : TextEditor) : option TextEditor :=
  match c with
  | InsertText text => insertText text e
  | DeleteText length => deleteText length e
  | Backspace length => backspace length e
  | InsertNewline => insertNewline e
  | InsertTab => insertTab e
  | MoveCursor offset => moveCursor offset e
  | MoveCursorTo position => moveCursorTo position e
  | MoveCursorToDocumentStart => Some (moveCursorToDocumentStart e)
  | MoveCursorToDocumentEnd => moveCursorToDocumentEnd e
  | MoveCursorLeft => moveCursorLeft e
  | MoveCursorRight => moveCursorRight e
  | StartSelection => Some (startSelection e)
  | EndSelection => Some (endSelection e)
  | ClearSelection => Some (clearSelection e)
  | SelectWord => selectWord e
  | Copy => copy e
  | Cut => cut e
  | Paste => paste e
  | Undo => undo e
  | Redo => redo e
  | DeleteSelection => deleteSelection e
  | NewDocument => Some (newDocument e)
  | SwitchToDocument index => Some (switchToDocument index e)
  | CloseDocument index => Some (snd (closeDocument index e))
  | MoveCursorToLineStart => moveCursorToLineStart e
  | MoveCursorToLineEnd => moveCursorToLineEnd e
  | SelectLine => selectLine e
  | ReplaceText pattern replacement all =>
      replaceText pattern replacement all e
  | ReplaceRegex positions pattern replacement all =>
      replaceRegex positions pattern replacement all e
  | SaveDocument ok => Some (snd (saveDocument ok e))
  | SaveAsDocument name ok => Some (snd (saveAsDocument name ok e))
  | SaveCompressedFile name ok => Some (snd (saveCompressedFile name ok e))
  | SaveEncryptedFile name password ok =>
      Some (snd (saveEncryptedFile name password ok e))
  | OpenDocument name file => snd <$> openDocument name file e
  | LoadCompressedFile name file => snd <$> loadCompressedFile name file e
  | LoadEncryptedFile name password file =>
      snd <$> loadEncryptedFile name password file e
  end.

End Editor.

(** ** The search engine (search_replace.cpp) *)

Module Search.

(** Integer value of a [char] ([char] is signed on the build targets). *)
Definition char_val (c : ascii) : Z :=
  let n := Z.of_nat (nat_of_ascii c) in
  if n <? 128 then n else n - 256.

(** [lps[i]] and [lps[i] = v] on the [std::vector<int>]. *)
Definition vget (v : list Z) (i : Z) : Z := nth (Z.to_nat i) v 0.
Definition vset (v : list Z) (i x : Z) : list Z := <[Z.to_nat i := x]> v.

Fixpoint lpsLoop (fuel : nat) (pattern : cstring) (lps : list Z)
    (len_ i : Z) : option (list Z) :=
  match fuel with
  | O => None
  | S fuel' =>
      if i <? len pattern then
        if ascii_eqb (char_at pattern i) (char_at pattern len_) then
          lpsLoop fuel' pattern (vset lps i (len_ + 1)) (len_ + 1) (i + 1)
        else if negb (len_ =? 0) then
          lpsLoop fuel' pattern lps (vget lps (len_ - 1)) i
        else
          lpsLoop fuel' pattern (vset lps i 0) len_ (i + 1)
      else Some lps
  end.

Definition computeLPSArray (pattern : cstring) : option (list Z) :=
  lpsLoop (2 * length pattern + 1) pattern
    (replicate (length pattern) 0) 0 1.

Fixpoint kmpLoop (fuel : nat) (text pattern : cstring) (lps : list Z)
    (i j : Z) (result : list Z) : option (list Z) :=
  match fuel with
  | O => None
  | S fuel' =>
      if i <? len text then
        let '(i1, j1) :=
          if ascii_eqb (char_at pattern j) (char_at text i)
          then (i + 1, j + 1) else (i, j) in
        if j1 =? len pattern then
          kmpLoop fuel' text pattern lps i1 (vget lps (j1 - 1))
            (result ++ [i1 - j1])
        else if (i1 <? len text)
                && negb (ascii_eqb (char_at pattern j1) (char_at text i1))
        then
          if negb (j1 =? 0)
          then kmpLoop fuel' text pattern lps i1 (vget lps (j1 - 1)) result
          else kmpLoop fuel' text pattern lps (i1 + 1) j1 result
        else kmpLoop fuel' text pattern lps i1 j1 result
      else Some result
  end.

Definition kmpSearch (text pattern : cstring) : option (list Z) :=
  match pattern with
  | [] => Some []
  | _ =>
      if (length text <? length pattern)%nat then Some []
      else
        lps ← computeLPSArray pattern;
        kmpLoop (2 * length text + 2) text pattern lps 0 0 []
  end.

(** [std::unordered_map<char, int>]; [table[c]] on a missing key yields the
    value-initialised [0]. *)
Definition charTable := list (ascii * Z).

Fixpoint tget (t : charTable) (c : ascii) : Z :=
  match t with
  | [] => 0
  | (k, v) :: t' => if ascii_eqb k c then v else tget t' c
  end.

Definition tset (t : charTable) (c : ascii) (v : Z) : charTable :=
  (c, v) :: t.

Fixpoint badCharLoop (n : nat) (pattern : cstring) (i : Z)
    (table : charTable) : charTable :=
  match n with
  | O => table
  | S n' =>
      badCharLoop n' pattern (i + 1)
        (tset table (char_at pattern i) (len pattern - 1 - i))
  end.

Definition buildBadCharTable (pattern : cstring) : charTable :=
  badCharLoop (length pattern - 1) pattern 0 [].

Definition buildGoodSuffixTable (pattern : cstring) : list Z :=
  (* Simplified implementation - in practice, this would be more complex *)
  replicate (length pattern) (len pattern).

(** The inner [while (j >= 0 && pattern[j] == text[shift + j]) j--]. *)
Fixpoint matchBackwards (n : nat) (text pattern : cstring) (shift j : Z)
    : Z :=
  match n with
  | O => j
  | S n' =>
      if (0 <=? j)
         && ascii_eqb (char_at pattern j) (char_at text (shift + j))
      then matchBackwards n' text pattern shift (j - 1)
      else j
  end.

Fixpoint bmLoop (fuel : nat) (text pattern : cstring)
    (badCharTable : charTable) (goodSuffixTable : list Z) (shift : Z)
    (result : list Z) : option (list Z) :=
  match fuel with
  | O => None
  | S fuel' =>
      let textLen := len text in
      let patternLen := len pattern in
      if shift <=? textLen - patternLen then
        let j := matchBackwards (S (length pattern)) text pattern shift
                   (patternLen - 1) in
        if j <? 0 then
          bmLoop fuel' text pattern badCharTable goodSuffixTable
            (shift +
               (if shift + patternLen <? textLen
                then patternLen
                     - tget badCharTable (char_at text (shift + patternLen))
                else 1))
            (result ++ [shift])
        else
          bmLoop fuel' text pattern badCharTable goodSuffixTable
            (shift +
               Z.max (vget goodSuffixTable j)
                 (j - tget badCharTable (char_at text (shift + j))))
            result
      else Some result
  end.

Definition boyerMooreSearch (text pattern : cstring) : option (list Z) :=
  match pattern with
  | [] => Some []
  | _ =>
      if (length text <? length pattern)%nat then Some []
      else
        bmLoop (S (length text)) text pattern (buildBadCharTable pattern)
          (buildGoodSuffixTable pattern) 0 []
  end.

(** [for (int i = start + length - 1; i >= start; i--)] *)
Fixpoint hashLoop (n : nat) (s : cstring) (i : Z) (base mod_ : Z)
    (hash power : Z) : Z :=
  match n with
  | O => hash
  | S n' =>
      hashLoop n' s (i - 1) base mod_
        (Z.rem (hash + Z.rem (char_val (char_at s i) * power) mod_) mod_)
        (Z.rem (power * base) mod_)
  end.

Definition computeHash (s : cstring) (start length : Z) (base mod_ : Z)
    : Z :=
  hashLoop (Z.to_nat length) s (start + length - 1) base mod_ 0 1.

(** [exp] is a 32-bit [int] that is halved at each turn. *)
Fixpoint powerLoop (n : nat) (base exp mod_ result : Z) : Z :=
  match n with
  | O => result
  | S n' =>
      if 0 <? exp then
        powerLoop n' (Z.rem (base * base) mod_) (Z.shiftr exp 1) mod_
          (if Z.rem exp 2 =? 1 then Z.rem (result * base) mod_ else result)
      else result
  end.

Definition computePower (base exp mod_ : Z) : Z :=
  powerLoop 32 (Z.rem base mod_) exp mod_ 1.

(** The verification loop [for (j = 0; j < patternLen; j++)]. *)
Fixpoint windowMatches (n : nat) (text pattern : cstring) (i j : Z) : bool :=
  match n with
  | O => true
  | S n' =>
      if negb (ascii_eqb (char_at text (i + j)) (char_at pattern j))
      then false
      else windowMatches n' text pattern i (j + 1)
  end.

Fixpoint rkLoop (n : nat) (text pattern : cstring) (base mod_ : Z)
    (patternHash power : Z) (i textHash : Z) (result : list Z) : list Z :=
  match n with
  | O => result
  | S n' =>
      let textLen := len text in
      let patternLen := len pattern in
      let result1 :=
        if (patternHash =? textHash)
           && windowMatches (length pattern) text pattern i 0
        then result ++ [i] else result in
      (* Calculate hash for next window *)
      let textHash1 :=
        if i <? textLen - patternLen then
          let h := Z.rem (base * (textHash
                                  - char_val (char_at text i) * power)
                          + char_val (char_at text (i + patternLen))) mod_ in
          if h <? 0 then h + mod_ else h
        else textHash in
      rkLoop n' text pattern base mod_ patternHash power (i + 1) textHash1
        result1
  end.

Definition rabinKarpSearch (text pattern : cstring) : option (list Z) :=
  match pattern with
  | [] => Some []
  | _ =>
      if (length text <? length pattern)%nat then Some []
      else
        let base := 256 in
        let mod_ := 1000000007 in
        let patternLen := len pattern in
        let patternHash := computeHash pattern 0 patternLen base mod_ in
        let textHash := computeHash text 0 patternLen base mod_ in
        let power := computePower base (patternLen - 1) mod_ in
        Some (rkLoop (length text - length pattern + 1) text pattern base mod_
                patternHash power 0 textHash [])
  end.

Definition toLowerCase (s : cstring) : cstring := map tolower s.

Definition caseInsensitiveSearch (text pattern : cstring)
    : option (list Z) :=
  let lowerText := toLowerCase text in
  let lowerPattern := toLowerCase pattern in
  kmpSearch lowerText lowerPattern.

(** [result.replace(pos, n, replacement)]; [None] is the
    [std::out_of_range] thrown for a position past the end. *)
Definition replace_at (s : cstring) (pos n : Z) (replacement : cstring)
    : option cstring :=
  if (pos <? 0) || (len s <? pos) then None
  else Some (take (Z.to_nat pos) s ++ replacement
             ++ drop (Z.to_nat pos + Z.to_nat n) s).

Definition replaceFirst (text pattern replacement : cstring)
    : option cstring :=
  match pattern with
  | [] => Some text
  | _ =>
      positions ← kmpSearch text pattern;
      match positions with
      | [] => Some text
      | pos :: _ => replace_at text pos (len pattern) replacement
      end
  end.

End Search.

(** ** The compression engine (compression.h, compression.cpp) *)

Module Huffman.

(** A [HuffmanNode] is built once by one of its two constructors and never
    changed: a leaf has two null children, a merged node two non-null
    ones. *)
Inductive HuffmanNode :=
| Leaf (character : ascii) (frequency : Z)
| Merged (frequency : Z) (left right : HuffmanNode).

Definition frequency (n : HuffmanNode) : Z :=
  match n with
  | Leaf _ f => f
  | Merged f _ _ => f
  end.

Definition isLeaf (n : HuffmanNode) : bool :=
  match n with
  | Leaf _ _ => true
  | Merged _ _ _ => false
  end.

(** [node->left] and [node->right]; [None] is [nullptr]. *)
Definition left (n : HuffmanNode) : option HuffmanNode :=
  match n with
  | Leaf _ _ => None
  | Merged _ l _ => Some l
  end.
Definition right (n : HuffmanNode) : option HuffmanNode :=
  match n with
  | Leaf _ _ => None
  | Merged _ _ r => Some r
  end.

(** [std::unordered_map<char, V>] as an association list; it is iterated
    in the order in which the keys were first inserted (the C++ iteration
    order is unspecified). *)
Fixpoint bump (table : list (ascii * Z)) (c : ascii) : list (ascii * Z) :=
  match table with
  | [] => [(c, 1)]
  | (k, v) :: t => if ascii_eqb k c then (k, v + 1) :: t
                   else (k, v) :: bump t c
  end.

Fixpoint assign {V} (table : list (ascii * V)) (c : ascii) (x : V)
    : list (ascii * V) :=
  match table with
  | [] => [(c, x)]
  | (k, v) :: t => if ascii_eqb k c then (k, x) :: t
                   else (k, v) :: assign t c x
  end.

Fixpoint lookup {V} (table : list (ascii * V)) (c : ascii) : option V :=
  match table with
  | [] => None
  | (k, v) :: t => if ascii_eqb k c then Some v else lookup t c
  end.

Record HuffmanCompression := mkHuffman {
  frequencyTable_ : list (ascii * Z);
  huffmanCodes_ : list (ascii * cstring);
  root_ : option HuffmanNode
}.

(** [HuffmanCompression::HuffmanCompression()] *)
Definition init : HuffmanCompression := mkHuffman nil nil None.

Definition buildFrequencyTable (text : cstring) : list (ascii * Z) :=
  fold_left bump text [].

(** [pq.top(); pq.pop()] of the min-priority queue on [frequency]: the
    first node of least frequency is taken (the order among equal
    frequencies is unspecified in C++). *)
Fixpoint popMin (pq : list HuffmanNode)
    : option (HuffmanNode * list HuffmanNode) :=
  match pq with
  | [] => None
  | x :: pq' =>
      match popMin pq' with
      | None => Some (x, [])
      | Some (m, rest) =>
          if frequency x <=? frequency m then Some (x, pq')
          else Some (m, x :: rest)
      end
  end.

Fixpoint buildLoop (fuel : nat) (pq : list HuffmanNode)
    : list HuffmanNode :=
  match fuel with
  | O => pq
  | S fuel' =>
      if (1 <? length pq)%nat then
        match popMin pq with
        | Some (l, pq1) =>
            match popMin pq1 with
            | Some (r, pq2) =>
                buildLoop fuel'
                  (pq2 ++ [Merged (frequency l + frequency r) l r])
            | None => pq
            end
        | None => pq
        end
      else pq
  end.

Definition buildHuffmanTree (table : list (ascii * Z))
    : option HuffmanNode :=
  let pq := map (fun kv => Leaf (fst kv) (snd kv)) table in
  fst <$> popMin (buildLoop (length pq) pq).

Fixpoint generateCodesHelper (node : HuffmanNode) (code : cstring)
    (codes : list (ascii * cstring)) : list (ascii * cstring) :=
  match node with
  | Leaf c _ => assign codes c code
  | Merged _ l r =>
      generateCodesHelper r (code ++ str "1")
        (generateCodesHelper l (code ++ str "0") codes)
  end.

Definition generateHuffmanCodes (root : option HuffmanNode)
    : list (ascii * cstring) :=
  match root with
  | None => []
  | Some (Leaf c _) =>
      (* Special case: only one character *)
      assign [] c (str "0")
  | Some node => generateCodesHelper node [] []
  end.

Fixpoint writeBitsLoop (bits : cstring) (currentByte bitCount : Z)
    (data : list Z) : list Z :=
  match bits with
  | [] => if 0 <? bitCount then data ++ [currentByte] else data
  | bit :: rest =>
      let currentByte1 :=
        if ascii_eqb bit "1"%char
        then Z.lor currentByte (Z.shiftl 1 (7 - bitCount))
        else currentByte in
      let bitCount1 := bitCount + 1 in
      if bitCount1 =? 8
      then writeBitsLoop rest 0 0 (data ++ [currentByte1])
      else writeBitsLoop rest currentByte1 bitCount1 data
  end.

Definition writeBits (data : list Z) (bits : cstring) : list Z :=
  writeBitsLoop bits 0 0 data.

Definition encodeText (codes : list (ascii * cstring)) (text : cstring)
    : list Z :=
  let bitString :=
    fold_left (fun acc c => match lookup codes c with
                            | Some code => acc ++ code
                            | None => acc
                            end) text [] in
  writeBits [] bitString.

Definition serializeTree (data : list Z) : list Z :=
  data ++ [255].  (* Tree separator *)

Definition compress (text : cstring) (hc : HuffmanCompression)
    : list Z * HuffmanCompression :=
  match text with
  | [] => ([], hc)
  | _ =>
      let table := buildFrequencyTable text in
      let root := buildHuffmanTree table in
      let codes := generateHuffmanCodes root in
      (serializeTree [] ++ encodeText codes text,
       mkHuffman table codes root)
  end.

(** Index just after the first [0xFF] byte. *)
Fixpoint skipTree (data : list Z) : list Z :=
  match data with
  | [] => []
  | b :: rest => if b =? 255 then rest else skipTree rest
  end.

(** One turn of the inner [for (int bit = 7; bit >= 0; bit--)] loop;
    [None] is a dereference of a null [current]. *)
Definition decodeBit (root : HuffmanNode) (byte bit : Z)
    (st : option HuffmanNode * cstring)
    : option (option HuffmanNode * cstring) :=
  let '(current, result) := st in
  let bitValue := negb (Z.land (Z.shiftr byte bit) 1 =? 0) in
  cur ← current;
  let current1 := if bitValue then right cur else left cur in
  match current1 with
  | Some (Leaf c _) => Some (Some root, result ++ [c])
  | _ => Some (current1, result)
  end.

Fixpoint decodeLoop (root : HuffmanNode) (bytes : list Z)
    (st : option HuffmanNode * cstring) : option cstring :=
  match bytes with
  | [] => Some (snd st)
  | b :: rest =>
      st' ← foldl (fun acc bit => s ← acc; decodeBit root b bit s)
             (Some st) [7; 6; 5; 4; 3; 2; 1; 0];
      decodeLoop root rest st'
  end.

Definition decodeText (encodedData : list Z) (hc : HuffmanCompression)
    : option cstring :=
  match root_ hc with
  | None => Some []
  | Some root => decodeLoop root (skipTree encodedData) (Some root, [])
  end.

Definition decompress (compressedData : list Z) (hc : HuffmanCompression)
    : option cstring :=
  match compressedData with
  | [] => Some []
  | _ => decodeText compressedData hc
  end.

(** The loop of [readBits]; the second component is the final value of the
    reference parameter [bitIndex]. *)
Fixpoint readBitsLoop (n : nat) (data : list Z) (bitIndex : Z)
    (result : cstring) : cstring * Z :=
  match n with
  | O => (result, bitIndex)
  | S n' =>
      let byteIndex := bitIndex / 8 in
      let bitInByte := bitIndex mod 8 in
      if Z.of_nat (length data) <=? byteIndex then (result, bitIndex)
      else
        let bit :=
          negb (Z.land (Z.shiftr (nth (Z.to_nat byteIndex) data 0)
                          (7 - bitInByte)) 1 =? 0) in
        readBitsLoop n' data (bitIndex + 1)
          (result ++ [if bit then "1"%char else "0"%char])
  end.

Definition readBits (data : list Z) (bitIndex bitCount : Z) : cstring * Z :=
  readBitsLoop (Z.to_nat bitCount) data bitIndex [].

End Huffman.

Module LZ77.

Record LZ77Token := mkToken {
  offset : Z;
  length : Z;
  nextChar : ascii
}.

Record LZ77Compression := mkLZ77 {
  windowSize_ : Z;
  bufferSize_ : Z
}.

(** [LZ77Compression(int windowSize = 32768, int bufferSize = 258)] *)
Definition init : LZ77Compression := mkLZ77 32768 258.

(** The inner [while] of [findLongestMatch]. *)
Fixpoint matchLength (n : nat) (text : cstring) (i currentPos maxLength : Z)
    (length : Z) : Z :=
  match n with
  | O => length
  | S n' =>
      if (length <? maxLength)
         && (i + length <? currentPos)
         && (currentPos + length <? len text)
         && ascii_eqb (char_at text (i + length))
              (char_at text (currentPos + length))
      then matchLength n' text i currentPos maxLength (length + 1)
      else length
  end.

(** The [for (int i = searchStart; i < searchEnd; i++)] loop. *)
Fixpoint searchWindow (n : nat) (text : cstring) (i currentPos maxLength : Z)
    (best : Z * Z) : Z * Z :=
  match n with
  | O => best
  | S n' =>
      let '(bestOffset, bestLength) := best in
      let length :=
        matchLength (Z.to_nat maxLength) text i currentPos maxLength 0 in
      searchWindow n' text (i + 1) currentPos maxLength
        (if bestLength <? length then (currentPos - i, length) else best)
  end.

Definition findLongestMatch (lz : LZ77Compression) (text : cstring)
    (currentPos : Z) : Z * Z :=
  let searchStart := Z.max 0 (currentPos - windowSize_ lz) in
  let searchEnd := currentPos in
  let maxLength := Z.min (bufferSize_ lz) (len text - currentPos) in
  searchWindow (Z.to_nat (searchEnd - searchStart)) text searchStart
    currentPos maxLength (0, 0).

Fixpoint encodeLoop (fuel : nat) (lz : LZ77Compression) (text : cstring)
    (pos : Z) (tokens : list LZ77Token) : option (list LZ77Token) :=
  match fuel with
  | O => None
  | S fuel' =>
      if pos <? len text then
        let match_ := findLongestMatch lz text pos in
        if (0 <? fst match_) && (0 <? snd match_) then
          (* Found a match *)
          encodeLoop fuel' lz text (pos + (snd match_ + 1))
            (tokens ++ [mkToken (fst match_) (snd match_)
                          (char_at text (pos + snd match_))])
        else
          (* No match found *)
          encodeLoop fuel' lz text (pos + 1)
            (tokens ++ [mkToken 0 0 (char_at text pos)])
      else Some tokens
  end.

Definition encode (lz : LZ77Compression) (text : cstring)
    : option (list LZ77Token) :=
  encodeLoop (S (List.length text)) lz text 0 [].

(** [for (int i = 0; i < token.length; i++) result += result[start + i]] *)
Fixpoint copyLoop (n : nat) (result : cstring) (start i : Z) : cstring :=
  match n with
  | O => result
  | S n' => copyLoop n' (result ++ [char_at result (start + i)]) start (i + 1)
  end.

Definition decodeToken (result : cstring) (token : LZ77Token) : cstring :=
  if offset token =? 0 then
    (* Literal character *)
    result ++ [nextChar token]
  else
    (* Copy from previous position *)
    let start := len result - offset token in
    copyLoop (Z.to_nat (length token)) result start 0 ++ [nextChar token].

Definition decode (tokens : list LZ77Token) : cstring :=
  fold_left decodeToken tokens [].

Definition serializeTokens (tokens : list LZ77Token) : list Z :=
  flat_map (fun token =>
              [Z.land (Z.shiftr (offset token) 8) 255;
               Z.land (offset token) 255;
               Z.land (length token) 255;
               Z.of_nat (nat_of_ascii (nextChar token))]) tokens.

Fixpoint deserializeTokens (data : list Z) : list LZ77Token :=
  match data with
  | b0 :: b1 :: b2 :: b3 :: rest =>
      mkToken (Z.lor (Z.shiftl b0 8) b1) b2 (ascii_of_nat (Z.to_nat b3))
      :: deserializeTokens rest
  | _ => []
  end.

Definition compress (lz : LZ77Compression) (text : cstring)
    : option (list Z) :=
  match text with
  | [] => Some []
  | _ => serializeTokens <$> encode lz text
  end.

Definition decompress (compressedData : list Z) : cstring :=
  match compressedData with
  | [] => []
  | _ => decode (deserializeTokens compressedData)
  end.

End LZ77.

Module CompressionManager.

Inductive Algorithm := HUFFMAN | LZ77 | AUTO.

(** [static_cast<uint8_t>(algorithm)] *)
Definition algorithm_byte (a : Algorithm) : Z :=
  match a with
  | HUFFMAN => 0
  | LZ77 => 1
  | AUTO => 2
  end.

(** The two engines the manager owns. *)
Record CompressionManager := mkManager {
  huffman_ : Huffman.HuffmanCompression;
  lz77_ : LZ77.LZ77Compression
}.

(** [CompressionManager::CompressionManager()] *)
Definition init : CompressionManager := mkManager Huffman.init LZ77.init.

Definition addAlgorithmHeader (data : list Z) (algorithm : Algorithm)
    : list Z :=
  algorithm_byte algorithm :: data.

(** The header byte, as the integer value of the [Algorithm] it is cast
    to, and the final value of the reference parameter [index]. *)
Definition readAlgorithmHeader (data : list Z) : Z * nat :=
  match data with
  | [] => (algorithm_byte HUFFMAN, 0%nat)
  | b :: _ => (b, 1%nat)
  end.

(** [compress(text, algorithm)].  For [AUTO] the choice between the two
    codecs is made by [selectBestAlgorithm], which compares two ratios in
    floating point; its result is the parameter [best] here, and its run
    of the Huffman engine on [text] is kept. *)
Definition compress (text : cstring) (algorithm best : Algorithm)
    (m : CompressionManager) : option (list Z * CompressionManager) :=
  let '(algorithm1, m1) :=
    match algorithm with
    | AUTO =>
        (best,
         mkManager (snd (Huffman.compress text (huffman_ m))) (lz77_ m))
    | _ => (algorithm, m)
    end in
  match algorithm1 with
  | HUFFMAN =>
      let '(compressed, h) := Huffman.compress text (huffman_ m1) in
      Some (addAlgorithmHeader compressed algorithm1,
            mkManager h (lz77_ m1))
  | LZ77 =>
      compressed ← LZ77.compress (lz77_ m1) text;
      Some (addAlgorithmHeader compressed algorithm1, m1)
  | AUTO => Some (addAlgorithmHeader [] algorithm1, m1)
  end.

Definition decompress (data : list Z) (m : CompressionManager)
    : option cstring :=
  match data with
  | [] => Some []
  | _ =>
      let '(algorithm, index) := readAlgorithmHeader data in
      let compressedData := drop index data in
      if algorithm =? algorithm_byte HUFFMAN
      then Huffman.decompress compressedData (huffman_ m)
      else if algorithm =? algorithm_byte LZ77
           then Some (LZ77.decompress compressedData)
           else Some []
  end.

End CompressionManager.

(** ** Password scoring (encryption.cpp) *)

Module Password.

Record PasswordStrength := mkStrength {
  score : Z;
  isStrong : bool;
  feedback : cstring
}.

Record Flags := mkFlags {
  hasLower : bool;
  hasUpper : bool;
  hasDigit : bool;
  hasSpecial : bool
}.

(** The body of [for (char c : password)]. *)
Definition classify (f : Flags) (c : ascii) : Flags :=
  if islower c then mkFlags true (hasUpper f) (hasDigit f) (hasSpecial f)
  else if isupper c then mkFlags (hasLower f) true (hasDigit f) (hasSpecial f)
  else if isdigit c then mkFlags (hasLower f) (hasUpper f) true (hasSpecial f)
  else if negb (isalnum c)
       then mkFlags (hasLower f) (hasUpper f) (hasDigit f) true
  else f.

Definition point (b : bool) : Z := if b then 1 else 0.

Definition checkPasswordStrength (password : cstring) : PasswordStrength :=
  let s0 := 0 in
  let s1 := s0 + point (8 <=? len password) in
  let s2 := s1 + point (12 <=? len password) in
  let s3 := s2 + point (16 <=? len password) in
  let f := fold_left classify password (mkFlags false false false false) in
  let s4 := s3 + point (hasLower f) in
  let s5 := s4 + point (hasUpper f) in
  let s6 := s5 + point (hasDigit f) in
  let s7 := s6 + point (hasSpecial f) in
  mkStrength s7 (6 <=? s7)
    (if s7 <? 3 then
       str "Very weak password. Use at least 8 characters with mixed case, numbers, and symbols."
     else if s7 <? 5 then
       str "Weak password. Add more variety of characters."
     else if s7 <? 7 then
       str "Moderate password. Consider making it longer or adding more complexity."
     else str "Strong password!").

(** *** Hexadecimal text ([bytesToHex], [hexToBytes]) *)

(** The digit that [std::hex] prints for a value below 16. *)
Definition hexDigit (d : Z) : ascii :=
  nth (Z.to_nat d) (str "0123456789abcdef") zero.

(** [oss << std::hex << std::setw(2) << std::setfill('0') << int(byte)]
    for each byte, a value in [0, 255]. *)
Definition bytesToHex (bytes : list Z) : cstring :=
  flat_map (fun byte => [hexDigit (byte / 16); hexDigit (byte mod 16)]) bytes.

(** The value of a digit in base 16, if it is one. *)
Definition hexval (c : ascii) : option Z :=
  let n := Z.of_nat (nat_of_ascii c) in
  if (48 <=? n) && (n <=? 57) then Some (n - 48)
  else if (97 <=? n) && (n <=? 102) then Some (n - 87)
  else if (65 <=? n) && (n <=? 70) then Some (n - 55)
  else None.

Fixpoint hexDigits (s : cstring) (acc : Z) : Z :=
  match s with
  | [] => acc
  | c :: s' =>
      match hexval c with
      | Some d => hexDigits s' (acc * 16 + d)
      | None => acc
      end
  end.

Fixpoint skipSpace (s : cstring) : cstring :=
  match s with
  | [] => []
  | c :: s' => if isspace c then skipSpace s' else s
  end.

(** [std::strtol(s, nullptr, 16)] on a string of at most two characters
    (no overflow): white space, an optional sign, an optional [0x]
    before a digit, then the digits; 0 when there is no digit. *)
Definition strtol16 (s : cstring) : Z :=
  let s1 := skipSpace s in
  let '(negative, s2) :=
    match s1 with
    | c :: r => if ascii_eqb c "-"%char then (true, r)
                else if ascii_eqb c "+"%char then (false, r)
                else (false, s1)
    | [] => (false, s1)
    end in
  let s3 :=
    match s2 with
    | z :: x :: h :: r =>
        if ascii_eqb z "0"%char
           && (ascii_eqb x "x"%char || ascii_eqb x "X"%char)
           && (match hexval h with Some _ => true | None => false end)
        then h :: r else s2
    | _ => s2
    end in
  let v := hexDigits s3 0 in
  if negative then - v else v.

(** [for (i = 0; i < hex.length(); i += 2)] with
    [static_cast<uint8_t>(strtol(hex.substr(i, 2)))]. *)
Fixpoint hexToBytes (hex : cstring) : list Z :=
  match hex with
  | [] => []
  | [c] => [strtol16 [c] mod 256]
  | c1 :: c2 :: rest => strtol16 [c1; c2] mod 256 :: hexToBytes rest
  end.

End Password.

(** ** The NLP client (nlp_client.h, nlp_client.cpp) *)

Module NLP.

Record GrammarResponse := mkGrammar {
  corrected_text : cstring;
  errors : list cstring;
  suggestions : list cstring
}.

Record SentimentResponse := mkSentiment {
  sentiment : cstring;
  confidence : Q;
  scores : list (cstring * Q);
  breakdown : list cstring
}.

(** What a call yields at the boundary of a function: a value, or an
    exception that leaves it. *)
Inductive outcome (A : Type) :=
| Returned (a : A)
| Thrown (what : cstring).
Arguments Returned {A} a.
Arguments Thrown {A} what.

Record NLPClient := mkClient {
  baseUrl_ : cstring;
  connected_ : bool
}.

Section Client.

(** The remote service as seen through the body of a [try] block:
    [makeRequest], [parseResponse] and the response parser either produce
    a response or throw; for [correctGrammar] the response is the
    [corrected_text] field of the reply, when the reply has one. *)
Variable grammarService : cstring -> cstring -> bool -> outcome GrammarResponse.
Variable correctService : cstring -> cstring -> outcome (option cstring).
Variable sentimentService : cstring -> cstring -> outcome SentimentResponse.

Definition checkGrammar (c : NLPClient) (text language : cstring)
    (autoCorrect : bool) : outcome GrammarResponse :=
  if negb (connected_ c) then Returned (mkGrammar [] [] [])
  else
    match grammarService text language autoCorrect with
    | Returned r => Returned r
    | Thrown _ => Returned (mkGrammar [] [] [])
    end.

Definition correctGrammar (c : NLPClient) (text language : cstring)
    : outcome cstring :=
  if negb (connected_ c) then Returned text
  else
    match correctService text language with
    | Returned (Some corrected) => Returned corrected
    | Returned None => Returned text
    | Thrown _ => Returned text
    end.

Definition analyzeSentiment (c : NLPClient) (text granularity : cstring)
    : outcome SentimentResponse :=
  if negb (connected_ c) then Returned (mkSentiment (str "neutral") (1 # 2) [] [])
  else
    match sentimentService text granularity with
    | Returned r => Returned r
    | Thrown _ => Returned (mkSentiment (str "neutral") (1 # 2) [] [])
    end.

End Client.

(** *** The result cache of [NLPIntegrationManager] *)

Section Cache.

(** [ProcessedText] *)
Variable ProcessedText : Type.

(** [std::map<std::string, ProcessedText>]: at most one entry for a
    key. *)
Definition cache := list (cstring * ProcessedText).

(** [cache_[key] = result] *)
Fixpoint addToCache (key : cstring) (result : ProcessedText) (cache_ : cache)
    : cache :=
  match cache_ with
  | [] => [(key, result)]
  | (k, v) :: rest =>
      if cstring_eqb k key then (k, result) :: rest
      else (k, v) :: addToCache key result rest
  end.

(** [None] is [std::nullopt]. *)
Fixpoint getFromCache (key : cstring) (cache_ : cache)
    : option ProcessedText :=
  match cache_ with
  | [] => None
  | (k, v) :: rest =>
      if cstring_eqb k key then Some v else getFromCache key rest
  end.

End Cache.

(** [oss << flag] for a [bool], without [boolalpha]. *)
Definition flag (b : bool) : ascii := if b then "1"%char else "0"%char.

Definition generateCacheKey (text : cstring)
    (grammar summary ner sentiment readability : bool) : cstring :=
  text ++ str "_" ++ [flag grammar] ++ str "_" ++ [flag summary]
       ++ str "_" ++ [flag ner] ++ str "_" ++ [flag sentiment]
       ++ str "_" ++ [flag readability].

End NLP.

(** ** Helpers of the terminal front end (terminal_ui.cpp) *)

Module UI.

(** [filename.find_last_of('.')], then [filename.substr(pos + 1)]. *)
Definition getFileExtension (filename : cstring) : cstring :=
  match AVL.rfind_char "."%char filename with
  | Some pos => substr_from filename (Z.of_nat pos + 1)
  | None => []
  end.

(** The words that [while (iss >> word)] reads from a string stream:
    the maximal runs of characters that are not white space; [cur] is the
    run being read. *)
Fixpoint words_from (s : cstring) (cur : cstring) : list cstring :=
  match s with
  | [] => match cur with
          | [] => []
          | _ => [cur]
          end
  | c :: s' =>
      if isspace c then
        match cur with
        | [] => words_from s' []
        | _ => cur :: words_from s' []
        end
      else words_from s' (cur ++ [c])
  end.

Definition words (text : cstring) : list cstring := words_from text [].

(** The body of the loop of [wrapText]; [width] is converted to
    [size_t] for the comparison. *)
Definition wrapStep (width : Z) (st : list cstring * cstring)
    (word : cstring) : list cstring * cstring :=
  let '(lines, currentLine) := st in
  let width_u := if width <? 0 then width + 2 ^ 64 else width in
  if len currentLine + len word + 1 <=? width_u then
    (lines,
     match currentLine with
     | [] => word
     | _ => (currentLine ++ str " ") ++ word
     end)
  else
    match currentLine with
    | [] => (lines ++ [word], currentLine)
    | _ => (lines ++ [currentLine], word)
    end.

Definition wrapText (text : cstring) (width : Z) : list cstring :=
  let '(lines, currentLine) :=
    fold_left (wrapStep width) (words text) ([], []) in
  match currentLine with
  | [] => lines
  | _ => lines ++ [currentLine]
  end.

End UI.

(** ** Reference model of the spec: the document as one flat string *)

Module Reference.

(** Splice [text] into [s] at offset [position]. *)
Definition insert (position : Z) (text s : cstring) : cstring :=
  take (Z.to_nat position) s ++ text ++ drop (Z.to_nat position) s.

(** Delete [length] characters of [s] from offset [position]. *)
Definition erase (position length : Z) (s : cstring) : cstring :=
  take (Z.to_nat position) s ++ drop (Z.to_nat (position + length)) s.

End Reference.

(** ** Running a script of operations *)

(** [script ops x] applies the operations in order, stopping at the first
    one that does not return. *)
Definition script {A} (ops : list (A -> option A)) (x : A) : option A :=
  foldl (fun acc op => acc ≫= op) (Some x) ops.

Definition total {A} (f : A -> A) : A -> option A := fun x => Some (f x).

(** ** The text of a tree as a list of fragments

    The read-only traversals visit the nodes in the order of
    [inOrderTraversal]; the definitions below replay [collectText] and
    [searchInNode] on the list of fragments that traversal produces. *)

(** The characters of [s], which starts at absolute offset [cur], that fall
    in the window [start, start + length). *)
Definition slice (s : cstring) (cur start length : Z) : cstring :=
  take (Z.to_nat (start + length - Z.max start cur))
    (drop (Z.to_nat (start - cur)) s).

Definition collectList (frags : list cstring) (start length : Z)
    (st : cstring * Z) : cstring * Z :=
  fold_left (fun st d => AVL.collectNode d start length st) frags st.

Fixpoint searchList (frags : list cstring) (pattern : cstring)
    (st : list Z * Z) : option (list Z * Z) :=
  match frags with
  | [] => Some st
  | d :: frags' =>
      results ← AVL.searchLoop (S (length d)) d pattern 0 (snd st) (fst st);
      searchList frags' pattern (results, snd st + len d)
  end.

(** [pattern] occurs in [flat] at offset [pos]. *)
Definition occurs_at (flat pattern : cstring) (pos : Z) : Prop :=
  0 <= pos /\ take (length pattern) (drop (Z.to_nat pos) flat) = pattern.

(** ** Invariants *)

(** Every node of the store has a non-negative cached size. *)
Definition sizes_nonneg (h : AVL.store) : Prop :=
  Forall (fun n => 0 <= AVL.size n) h.

(** [m], run on a store with non-negative sizes, leaves such a store and
    returns a value satisfying [Q]. *)
Definition keeps {A} (m : AVL.M A) (Q : A -> Prop) : Prop :=
  forall h a h', sizes_nonneg h -> m h = Some (a, h') ->
                 sizes_nonneg h' /\ Q a.



(** The states reached from a fresh editor by a sequence of calls of its
    public operations: the commands, and the three moves by line, each of
    which counts when its chain of nested calls returns at some depth. *)
Inductive reachable : Editor.TextEditor -> Prop :=
| reach_init : reachable Editor.init
| reach_step c e e' :
    reachable e -> Editor.run c e = Some e' -> reachable e'
| reach_moveCursorUp fuel e e' :
    reachable e -> Editor.moveCursorUp fuel e = Some e' -> reachable e'
| reach_moveCursorDown fuel e e' :
    reachable e -> Editor.moveCursorDown fuel e = Some e' -> reachable e'
| reach_moveCursorToLine fuel line e e' :
    reachable e -> Editor.moveCursorToLine fuel line e = Some e' ->
    reachable e'.

(** ** Sample editor sessions *)

Definition session (ops : list (Editor.TextEditor -> option Editor.TextEditor))
    : Editor.TextEditor :=
  default Editor.init (script ops Editor.init).





(** ** Sessions of commands *)








(** ** Trees and their history *)

(** The trees reached from the empty tree by the public operations. *)
Inductive tree_reachable : AVL.AVLTree -> Prop :=
| tree_empty : tree_reachable AVL.empty
| tree_insert position text t t' :
    tree_reachable t -> AVL.insert position text t = Some t' ->
    tree_reachable t'
| tree_erase position length t t' :
    tree_reachable t -> AVL.erase position length t = Some t' ->
    tree_reachable t'
| tree_saveState t : tree_reachable t -> tree_reachable (AVL.saveState t)
| tree_undo t : tree_reachable t -> tree_reachable (snd (AVL.undo t))
| tree_redo t : tree_reachable t -> tree_reachable (snd (AVL.redo t))
| tree_clearHistory t :
    tree_reachable t -> tree_reachable (AVL.clearHistory t)
| tree_loadContent content t t' :
    tree_reachable t -> AVL.loadContent content t = Some t' ->
    tree_reachable t'.

(** The first entry of [l] is at least [lo] and each further one is at
    least [m] after its predecessor. *)
Fixpoint spaced (m lo : Z) (l : list Z) : Prop :=
  match l with
  | [] => True
  | x :: l' => lo <= x /\ spaced m (x + m) l'
  end.

(** The whole text of a tree: the fragments in traversal order, which is
    what [saveToFile] writes. *)
Definition text_of (t : AVL.AVLTree) : option cstring :=
  frags ← AVL.inOrderTraversal (AVL.fuel_of t) (AVL.nodes t) (AVL.root_ t);
  Some (concat frags).

(** The bound of the history. *)
Definition history_bounded (t : AVL.AVLTree) : Prop :=
  (length (AVL.undoStack_ t) + length (AVL.redoStack_ t) <= 50)%nat.

(** ** Sample trees *)

(** "Hello " inserted in front of "World": the text is held in two nodes. *)
Definition tree_hello_world : AVL.AVLTree :=
  Eval vm_compute in
    default AVL.empty
      (script [AVL.insert 0 (str "World"); AVL.insert 0 (str "Hello ")]
         AVL.empty).

(** Three lines, "ab", "cd" and "e", held in two nodes. *)
Definition tree_lines : AVL.AVLTree :=
  Eval vm_compute in
    default AVL.empty
      (script [AVL.insert 0 (str "d" ++ [AVL.newline] ++ str "e");
               AVL.insert 0 (str "ab" ++ [AVL.newline] ++ str "c")]
         AVL.empty).

(** One node whose text has been extended 50 times: the undo stack is
    full. *)
Definition tree_full_history : AVL.AVLTree :=
  Eval vm_compute in
    default AVL.empty
      (script (AVL.insert 0 (str "a") :: repeat (AVL.insert 1 (str "b")) 50)
         AVL.empty).

(** ** Borders and partial matches *)

(** The first [k] characters of [pattern] are also the [k] characters that
    end at index [i], and [k <= i]: a proper border of the prefix of
    length [i + 1]. *)
Definition is_border (pattern : cstring) (k i : Z) : Prop :=
  0 <= k <= i /\
  forall t, 0 <= t < k -> char_at pattern t = char_at pattern (i + 1 - k + t).

(** The first [j] characters of [pattern] are the [j] characters of [text]
    before offset [i]. *)
Definition matched (text pattern : cstring) (j i : Z) : Prop :=
  forall t, 0 <= t < j -> char_at pattern t = char_at text (i - j + t).

(** A failure table for [pattern]: one entry for each character, each the
    length of a proper border of the prefix that ends there. *)
Definition lps_ok (pattern : cstring) (lps : list Z) : Prop :=
  length lps = length pattern /\
  forall i, 0 <= i < len pattern -> is_border pattern (Search.vget lps i) i.

(** ** Matches of the dictionary codec *)

(** The [l] characters of [text] from [pos - off] on lie before [pos] and
    are the [l] characters from [pos] on. *)
Definition match_ok (text : cstring) (pos off l : Z) : Prop :=
  0 < off <= pos /\ 0 <= l /\ pos - off + l <= pos /\ pos + l <= len text /\
  forall k, 0 <= k < l ->
            char_at text (pos - off + k) = char_at text (pos + k).

(** A token that [encode] can emit for a text of this length. *)
Definition token_ok (text : cstring) (token : LZ77.LZ77Token) : Prop :=
  0 <= LZ77.offset token <= len text /\
  0 <= 2 * LZ77.length token <= len text.

(** ** Bit strings *)

(** A character of a bit string counts as a one exactly when it is '1'. *)
Definition is_one (bit : ascii) : bool := ascii_eqb bit "1"%char.

(** Bit [k] of a byte sequence, the most significant bit of a byte
    first. *)
Definition bit_at (data : list Z) (k : Z) : bool :=
  Z.testbit (nth (Z.to_nat (k / 8)) data 0) (7 - k mod 8).

(** The eight bits of a byte in the order in which [decodeText] reads
    them. *)
Definition bits_of_byte (b : Z) : list bool :=
  map (fun bit => negb (Z.land (Z.shiftr b bit) 1 =? 0))
    [7; 6; 5; 4; 3; 2; 1; 0].

(** The characters of a bit string as bits, and back. *)
Definition bits_of_code (code : cstring) : list bool := map is_one code.
Definition code_of_bits (p : list bool) : cstring :=
  map (fun b : bool => if b then "1"%char else "0"%char) p.

(** One turn of the decoding loop for a bit that has been extracted. *)
Definition decodeStep (root : Huffman.HuffmanNode) (bitValue : bool)
    (st : option Huffman.HuffmanNode * cstring)
    : option (option Huffman.HuffmanNode * cstring) :=
  Huffman.decodeBit root (if bitValue then 1 else 0) 0 st.

Definition walk (root : Huffman.HuffmanNode) (bits : list bool)
    (acc : option (option Huffman.HuffmanNode * cstring))
    : option (option Huffman.HuffmanNode * cstring) :=
  foldl (fun acc b => s ← acc; decodeStep root b s) acc bits.

(** Following the bits [p] from [node] (0 to the left, 1 to the right)
    ends in a leaf for the character [c]. *)
Fixpoint path (node : Huffman.HuffmanNode) (p : list bool) (c : ascii)
    : Prop :=
  match p, node with
  | [], Huffman.Leaf c' _ => c' = c
  | b :: p', Huffman.Merged _ l r => path (if b then r else l) p' c
  | _, _ => False
  end.

(** The characters at the leaves of a tree. *)
Fixpoint leaves (node : Huffman.HuffmanNode) : list ascii :=
  match node with
  | Huffman.Leaf c _ => [c]
  | Huffman.Merged _ l r => leaves l ++ leaves r
  end.

(** ** Window hashes *)

(** The value of the [n] characters of [s] that end at index [i], read as
    digits in base [base], the last character being the least significant
    one. *)
Fixpoint window_value (n : nat) (s : cstring) (i base : Z) : Z :=
  match n with
  | O => 0
  | S n' => Search.char_val (char_at s i)
            + base * window_value n' s (i - 1) base
  end.

(** Congruence modulo [m]. *)
Definition cong (m a b : Z) : Prop := (m | a - b).

(** The characters of [s] are 7-bit: their [char] value is not
    negative. *)
Definition seven_bit (s : cstring) : Prop :=
  Forall (fun c => (nat_of_ascii c < 128)%nat) s.

(** ** Lines of words *)

(** The words joined by single spaces. *)
Definition unwords (ws : list cstring) : cstring :=
  match ws with
  | [] => []
  | w :: rest => w ++ flat_map (fun x => str " " ++ x) rest
  end.

(** The lines of [wrapText] while it runs: the finished lines and the
    current one, if it has been begun. *)
Definition pending (st : list cstring * cstring) : list cstring :=
  match snd st with
  | [] => fst st
  | _ => fst st ++ [snd st]
  end.

(** ** The document list *)

(** The number of documents and the index of the current one. *)
Definition shape (e : Editor.TextEditor) : nat * Z :=
  (length (Editor.documents_ e), Editor.currentDocumentIndex_ e).

(** The index of the current document is an index of the document list. *)
Definition doc_valid (e : Editor.TextEditor) : Prop :=
  0 <= snd (shape e) < Z.of_nat (fst (shape e)).

(** "ab", a newline and "cd" typed into a fresh editor: the cursor is at
    the end of the second line. *)
Definition ed_two_lines : Editor.TextEditor :=
  Eval vm_compute in
    session [Editor.insertText (str "ab" ++ [AVL.newline] ++ str "cd")].

(** * Properties *)

(** Closes a conjunction of closed equations by evaluation. *)
Ltac evaluate :=
  cbv zeta;
  repeat match goal with |- _ /\ _ => split end;
  vm_compute; reflexivity.

(** ** Storage tree: history *)

Lemma take_len (s : cstring) : take (Z.to_nat (len s)) s = s.
Proof. unfold len. rewrite Nat2Z.id. apply firstn_all. Qed.

Lemma getText_single (text : cstring) undo_ redo_ :
  AVL.getText 0 (len text)
    (AVL.mkTree [AVL.newNode text] (Some 0%nat) undo_ redo_) = Some text.
Proof.
  unfold AVL.getText, AVL.fuel_of. cbn.
  destruct text as [|c text]; [reflexivity|].
  assert (Hpos : 0 < len (c :: text)) by (unfold len; cbn; lia).
  replace (0 <? 0 + len (c :: text)) with true
    by (symmetry; apply Z.ltb_lt; lia).
  cbn [andb].
  replace (Z.max 0 (0 - 0)) with 0 by lia.
  replace (Z.min (len (c :: text)) (0 + len (c :: text) - 0))
    with (len (c :: text)) by lia.
  replace (0 <? len (c :: text)) with true by (symmetry; apply Z.ltb_lt; lia).
  unfold substr. rewrite Z.sub_0_r. cbn [Z.to_nat drop].
  rewrite take_len. reflexivity.
Qed.

(** C10.  [saveState] pushes nothing while [root_] is null, so the first
    insert into an empty tree leaves the undo stack empty: the insert
    returns a tree whose text is the inserted text, [undo] on it returns
    false and changes nothing. *)
Theorem undo_after_first_insert_is_refused :
  (forall h u r,
      AVL.undoStack_ (AVL.saveState (AVL.mkTree h None u r)) = u) /\
  (forall position text,
      exists t,
        AVL.insert position text AVL.empty = Some t /\
        AVL.undoStack_ t = [] /\
        AVL.undo t = (false, t) /\
        AVL.getText 0 (len text) (snd (AVL.undo t)) = Some text).
Proof.
  split; [reflexivity|].
  intros position text. destruct text as [|c text].
  - exists AVL.empty. repeat split; reflexivity.
  - eexists. split; [reflexivity|]. cbn [AVL.undoStack_ AVL.saveState AVL.empty
      AVL.root_].
    split; [reflexivity|]. split; [reflexivity|].
    cbn [AVL.undo AVL.undoStack_ snd]. apply getText_single.
Qed.

(** After an insert into a non-empty tree (history below its cap), [undo]
    puts the old root pointer back but keeps the node store as the insert
    left it: the nodes are shared with the snapshot, not copied. *)
Lemma undo_after_insert_shares_nodes t p position text t' :
  AVL.root_ t = Some p ->
  text <> [] ->
  (length (AVL.undoStack_ t) < 50)%nat ->
  AVL.insert position text t = Some t' ->
  AVL.undo t'
  = (true, AVL.mkTree (AVL.nodes t') (Some p) (AVL.undoStack_ t)
             [AVL.root_ t']).
Proof.
  intros Hroot Htext Hlen H. unfold AVL.insert in H.
  destruct text as [|c text]; [congruence|].
  unfold AVL.saveState in H. rewrite Hroot in H.
  cbn [AVL.root_ AVL.nodes AVL.undoStack_ AVL.redoStack_ AVL.fuel_of] in H.
  replace (50 <? length (Some p :: AVL.undoStack_ t))%nat with false in H
    by (symmetry; apply Nat.ltb_ge; cbn [length]; lia).
  destruct (AVL.insertHelper _ (Some p) position (c :: text) (AVL.nodes t))
    as [[r h]|]; [|discriminate].
  cbn in H. injection H as <-. reflexivity.
Qed.

(** C1.  The repository's own scenario: "Hello" (size 5), then
    [insert(5, " World")], then [undo()].  The insert edits the root node
    in place and the undo stack holds that same node, so [undo] succeeds
    and the tree still reads "Hello World" with size 11; [redo] then
    yields size 11 as well. *)
Theorem undo_does_not_restore_pre_insert_text :
  let before := script [AVL.insert 0 (str "Hello")] AVL.empty in
  let inserted := before ≫= AVL.insert 5 (str " World") in
  let undone := inserted ≫= total (fun t => snd (AVL.undo t)) in
  let redone := undone ≫= total (fun t => snd (AVL.redo t)) in
  before ≫= AVL.size_of = Some 5 /\
  before ≫= AVL.getText 0 5 = Some (str "Hello") /\
  inserted ≫= AVL.size_of = Some 11 /\
  (fun t => fst (AVL.undo t)) <$> inserted = Some true /\
  undone ≫= AVL.size_of = Some 11 /\
  undone ≫= AVL.getText 0 11 = Some (str "Hello World") /\
  (fun t => fst (AVL.redo t)) <$> undone = Some true /\
  redone ≫= AVL.size_of = Some 11 /\
  redone ≫= AVL.getText 0 11 = Some (str "Hello World").
Proof. evaluate. Qed.

(** ** Storage tree: edits against the flat reference string *)

(** C2.  "B" is inserted, then "A" in front of it (a second node, left of
    the root), then two characters are erased from offset 0.  [validate]
    holds after every step, but the erase stops at the end of the left
    node: the tree reads "B" where the reference string is empty. *)
Theorem erase_across_nodes_leaves_text :
  let t1 := script [AVL.insert 0 (str "B")] AVL.empty in
  let t2 := t1 ≫= AVL.insert 0 (str "A") in
  let t3 := t2 ≫= AVL.erase 0 2 in
  t1 ≫= AVL.validate = Some true /\
  t2 ≫= AVL.validate = Some true /\
  t3 ≫= AVL.validate = Some true /\
  t2 ≫= AVL.size_of = Some 2 /\
  t2 ≫= AVL.getText 0 2 = Some (str "AB") /\
  t3 ≫= AVL.size_of = Some 1 /\
  t3 ≫= AVL.getText 0 1 = Some (str "B") /\
  Reference.erase 0 2
    (Reference.insert 0 (str "A") (Reference.insert 0 (str "B") [])) = [].
Proof. evaluate. Qed.

(** ** Search engine *)

(** C3.  On "AAAAA" / "AA" the three searches agree on [0;1;2;3].  On the
    text and pattern of the repository's Boyer-Moore test, "Hello World
    Hello" / "World", the prefix-function and rolling-hash searches find
    offset 6 and the bad-character search finds nothing: after a mismatch
    it shifts by at least the whole pattern length. *)
Theorem boyerMoore_misses_match :
  Search.kmpSearch (str "AAAAA") (str "AA") = Some [0; 1; 2; 3] /\
  Search.boyerMooreSearch (str "AAAAA") (str "AA") = Some [0; 1; 2; 3] /\
  Search.rabinKarpSearch (str "AAAAA") (str "AA") = Some [0; 1; 2; 3] /\
  Search.kmpSearch (str "Hello World Hello") (str "World") = Some [6] /\
  Search.rabinKarpSearch (str "Hello World Hello") (str "World") = Some [6] /\
  Search.boyerMooreSearch (str "Hello World Hello") (str "World") = Some [].
Proof. evaluate. Qed.

(** ** Compression engine *)

(** C4.  Huffman on "ab": the two code bits are padded to a byte and the
    decoder reads all eight bits, giving eight characters; this is so for
    either order of the two leaves in the tree.  LZ77 on "aa":
    the match runs to the end of the text, the token's next character is
    the terminating NUL, and the decoder appends it. *)
Theorem compression_round_trip_fails :
  (exists bytes hc,
      Huffman.compress (str "ab") Huffman.init = (bytes, hc) /\
      bytes = [255; 64] /\
      Huffman.decompress bytes hc = Some (str "abaaaaaa")) /\
  (let root := Huffman.Merged 2 (Huffman.Leaf "b" 1) (Huffman.Leaf "a" 1) in
   let codes := Huffman.generateHuffmanCodes (Some root) in
   let bytes := Huffman.serializeTree [] ++ Huffman.encodeText codes (str "ab") in
   Huffman.decompress bytes
     (Huffman.mkHuffman [("b"%char, 1); ("a"%char, 1)] codes (Some root))
   = Some (str "abbbbbbb")) /\
  (exists bytes,
      LZ77.compress LZ77.init (str "aa") = Some bytes /\
      bytes = [0; 0; 0; 97; 0; 1; 1; 0] /\
      LZ77.decompress bytes = str "aa" ++ [zero]).
Proof.
  split; [|split].
  - do 2 eexists. evaluate.
  - vm_compute. reflexivity.
  - eexists. evaluate.
Qed.

(** ** Password scoring *)

Lemma islower_not_upper c : islower c = true -> isupper c = false.
Proof.
  unfold islower, isupper. intros H.
  apply andb_true_iff in H as [H1 H2].
  apply Nat.leb_le in H1. apply andb_false_iff. right.
  apply Nat.leb_gt. lia.
Qed.

Lemma islower_not_digit c : islower c = true -> isdigit c = false.
Proof.
  unfold islower, isdigit. intros H.
  apply andb_true_iff in H as [H1 H2].
  apply Nat.leb_le in H1. apply andb_false_iff. right.
  apply Nat.leb_gt. lia.
Qed.

Lemma isupper_not_digit c : isupper c = true -> isdigit c = false.
Proof.
  unfold isupper, isdigit. intros H.
  apply andb_true_iff in H as [H1 H2].
  apply Nat.leb_le in H1. apply andb_false_iff. right.
  apply Nat.leb_gt. lia.
Qed.

(** The flags after the loop: each one is set exactly when the password
    has a character of its class. *)
Lemma classify_fold (password : cstring) (f : Password.Flags) :
  let g := fold_left Password.classify password f in
  Password.hasLower g = Password.hasLower f || existsb islower password /\
  Password.hasUpper g = Password.hasUpper f || existsb isupper password /\
  Password.hasDigit g = Password.hasDigit f || existsb isdigit password /\
  Password.hasSpecial g =
    Password.hasSpecial f || existsb (fun c => negb (isalnum c)) password.
Proof.
  revert f. induction password as [|c password IH]; intros f; cbn.
  - rewrite !orb_false_r. auto.
  - destruct (IH (Password.classify f c)) as (Hl & Hu & Hd & Hs).
    rewrite Hl, Hu, Hd, Hs. clear IH Hl Hu Hd Hs.
    unfold Password.classify, isalnum.
    destruct (islower c) eqn:El.
    + rewrite (islower_not_upper c El), (islower_not_digit c El). cbn.
      rewrite !orb_true_r. cbn. auto.
    + destruct (isupper c) eqn:Eu.
      * rewrite (isupper_not_digit c Eu). cbn.
        rewrite !orb_true_r. cbn. auto.
      * destruct (isdigit c) eqn:Ed; cbn.
        -- rewrite !orb_true_r. cbn. auto.
        -- rewrite !orb_true_r. cbn. auto.
Qed.

(** C7.  The score of [checkPasswordStrength] is the number of satisfied
    criteria among: length at least 8, 12, 16; has a lowercase letter, an
    uppercase letter, a digit, a non-alphanumeric character.  It lies in
    0..7 and [isStrong] holds exactly when it is at least 6.  A password
    of four lowercase letters is not strong; one of sixteen characters
    with all four classes scores 7 and is strong. *)
Theorem checkPasswordStrength_score (password : cstring) :
  let r := Password.checkPasswordStrength password in
  Password.score r =
    Password.point (8 <=? len password)
    + Password.point (12 <=? len password)
    + Password.point (16 <=? len password)
    + Password.point (existsb islower password)
    + Password.point (existsb isupper password)
    + Password.point (existsb isdigit password)
    + Password.point (existsb (fun c => negb (isalnum c)) password) /\
  0 <= Password.score r <= 7 /\
  Password.isStrong r = (6 <=? Password.score r) /\
  (len password = 4 -> forallb islower password = true ->
   Password.isStrong r = false) /\
  (len password = 16 ->
   existsb islower password = true ->
   existsb isupper password = true ->
   existsb isdigit password = true ->
   existsb (fun c => negb (isalnum c)) password = true ->
   Password.score r = 7 /\ Password.isStrong r = true).
Proof.
  pose proof (classify_fold password
                (Password.mkFlags false false false false))
    as (Hl & Hu & Hd & Hs).
  cbn [Password.hasLower Password.hasUpper Password.hasDigit
       Password.hasSpecial orb] in Hl, Hu, Hd, Hs.
  cbv zeta. unfold Password.checkPasswordStrength.
  cbn [Password.score Password.isStrong].
  rewrite Hl, Hu, Hd, Hs.
  assert (Hp : forall b, 0 <= Password.point b <= 1)
    by (intros []; cbn; lia).
  split; [lia|].
  split.
  { pose proof (Hp (8 <=? len password)).
    pose proof (Hp (12 <=? len password)).
    pose proof (Hp (16 <=? len password)).
    pose proof (Hp (existsb islower password)).
    pose proof (Hp (existsb isupper password)).
    pose proof (Hp (existsb isdigit password)).
    pose proof (Hp (existsb (fun c => negb (isalnum c)) password)).
    lia. }
  split; [reflexivity|].
  split.
  - intros Hlen Hall. rewrite Hlen. cbn [Z.leb Z.compare Pos.compare
      Pos.compare_cont Password.point].
    apply Z.leb_gt.
    pose proof (Hp (existsb islower password)).
    pose proof (Hp (existsb isdigit password)).
    assert (Hu0 : existsb isupper password = false).
    { apply not_true_is_false. intros Hex.
      apply existsb_exists in Hex as (c & Hin & Hc).
      rewrite forallb_forall in Hall. specialize (Hall c Hin).
      rewrite (islower_not_upper c Hall) in Hc. discriminate. }
    assert (Hs0 : existsb (fun c => negb (isalnum c)) password = false).
    { apply not_true_is_false. intros Hex.
      apply existsb_exists in Hex as (c & Hin & Hc).
      rewrite forallb_forall in Hall. specialize (Hall c Hin).
      unfold isalnum in Hc. rewrite Hall in Hc. discriminate. }
    rewrite Hu0, Hs0. cbn [Password.point]. lia.
  - intros Hlen H1 H2 H3 H4. rewrite Hlen, H1, H2, H3, H4.
    split; reflexivity.
Qed.

Lemma checkPasswordStrength_score_witness :
  Password.isStrong (Password.checkPasswordStrength (str "abcd")) = false /\
  Password.score (Password.checkPasswordStrength (str "Abcdefgh1234!@#$")) = 7 /\
  Password.isStrong (Password.checkPasswordStrength (str "Abcdefgh1234!@#$"))
  = true.
Proof.
  split.
  - apply (checkPasswordStrength_score (str "abcd")); reflexivity.
  - apply (checkPasswordStrength_score (str "Abcdefgh1234!@#$")); reflexivity.
Defined.

(** ** NLP client *)

(** C8, as the code has it.  While the client is not connected, whatever
    the service would do: [checkGrammar] returns the empty response (empty
    corrected text, no errors, no suggestions), [correctGrammar] is the
    call that returns the input text unchanged, [analyzeSentiment] returns
    "neutral" with confidence 1/2; each of them returns, none throws. *)
Theorem disconnected_client_defaults
    (gs : cstring -> cstring -> bool -> NLP.outcome NLP.GrammarResponse)
    (cs : cstring -> cstring -> NLP.outcome (option cstring))
    (ss : cstring -> cstring -> NLP.outcome NLP.SentimentResponse)
    (c : NLP.NLPClient) (text language granularity : cstring)
    (autoCorrect : bool) :
  NLP.connected_ c = false ->
  NLP.checkGrammar gs c text language autoCorrect
    = NLP.Returned (NLP.mkGrammar [] [] []) /\
  NLP.correctGrammar cs c text language = NLP.Returned text /\
  NLP.analyzeSentiment ss c text granularity
    = NLP.Returned (NLP.mkSentiment (str "neutral") (1 # 2) [] []).
Proof.
  intros H. unfold NLP.checkGrammar, NLP.correctGrammar, NLP.analyzeSentiment.
  rewrite H. cbn. auto.
Qed.

Lemma disconnected_client_defaults_witness :
  NLP.checkGrammar (fun _ _ _ => NLP.Thrown []) (NLP.mkClient [] false)
    (str "Hello") (str "en") false
    = NLP.Returned (NLP.mkGrammar [] [] []) /\
  NLP.correctGrammar (fun _ _ => NLP.Thrown []) (NLP.mkClient [] false)
    (str "Hello") (str "en") = NLP.Returned (str "Hello") /\
  NLP.analyzeSentiment (fun _ _ => NLP.Thrown []) (NLP.mkClient [] false)
    (str "Hello") (str "sentence")
    = NLP.Returned (NLP.mkSentiment (str "neutral") (1 # 2) [] []).
Proof.
  apply (disconnected_client_defaults _ _ _ (NLP.mkClient [] false)).
  reflexivity.
Defined.

(** C8 as stated fails: for the text "Hello" a disconnected client's
    [checkGrammar] returns a response whose corrected text is empty. *)
Lemma checkGrammar_disconnected_drops_text :
  exists r,
    NLP.checkGrammar (fun _ _ _ => NLP.Thrown []) (NLP.mkClient [] false)
      (str "Hello") (str "en") false = NLP.Returned r /\
    NLP.corrected_text r = [] /\
    NLP.corrected_text r <> str "Hello".
Proof.
  eexists. split; [reflexivity|]. split; [reflexivity|]. discriminate.
Qed.

(** ** Storage tree: reading and searching *)

Arguments AVL.searchLoop : simpl never.
Arguments AVL.getText : simpl never.
Arguments AVL.findAll : simpl never.

Lemma searchLoop_S fuel d pattern pos cur res :
  AVL.searchLoop (S fuel) d pattern pos cur res
  = match find d pattern pos with
    | None => Some res
    | Some q =>
        AVL.searchLoop fuel d pattern (q + length pattern)%nat cur
          (res ++ [cur + Z.of_nat q])
    end.
Proof. reflexivity. Qed.

Lemma len_app (a b : cstring) : len (a ++ b) = len a + len b.
Proof. unfold len. rewrite length_app. lia. Qed.

Lemma len_nonneg (a : cstring) : 0 <= len a.
Proof. unfold len. lia. Qed.

Lemma collectNode_slice d start length result cur :
  AVL.collectNode d start length (result, cur)
  = (result ++ slice d cur start length, cur + len d).
Proof.
  unfold AVL.collectNode, slice, substr. f_equal.
  pose proof (len_nonneg d) as Hd.
  destruct (cur <? start + length) eqn:E1; cbn [andb].
  - destruct (start <? cur + len d) eqn:E2.
    + apply Z.ltb_lt in E1, E2.
      destruct (Z.max 0 (start - cur) <? Z.min (len d) (start + length - cur))
        eqn:E3.
      * apply Z.ltb_lt in E3. f_equal.
        replace (Z.to_nat (start - cur))
          with (Z.to_nat (Z.max 0 (start - cur))) by lia.
        destruct (Z.le_gt_cases (len d) (start + length - cur)) as [Hle|Hgt].
        -- rewrite !take_ge; [reflexivity| |]; rewrite length_drop;
             unfold len in *; lia.
        -- f_equal. lia.
      * apply Z.ltb_ge in E3.
        destruct (Z.le_gt_cases (len d) (Z.max 0 (start - cur))) as [Hle|Hgt].
        -- rewrite drop_ge; [|unfold len in *; lia].
           rewrite take_nil, app_nil_r. reflexivity.
        -- replace (Z.to_nat (start + length - Z.max start cur)) with 0%nat
             by lia.
           rewrite take_0, app_nil_r. reflexivity.
    + apply Z.ltb_ge in E2. rewrite drop_ge; [|unfold len in *; lia].
      rewrite take_nil, app_nil_r. reflexivity.
  - apply Z.ltb_ge in E1.
    replace (Z.to_nat (start + length - Z.max start cur)) with 0%nat by lia.
    rewrite take_0, app_nil_r. reflexivity.
Qed.

Lemma slice_app a b cur start length :
  slice (a ++ b) cur start length
  = slice a cur start length ++ slice b (cur + len a) start length.
Proof.
  unfold slice. rewrite drop_app, take_app, length_drop. unfold len.
  f_equal. f_equal; [lia|]. f_equal. lia.
Qed.

Lemma collectList_flat frags start length result cur :
  collectList frags start length (result, cur)
  = (result ++ slice (concat frags) cur start length,
     cur + len (concat frags)).
Proof.
  unfold collectList. revert result cur.
  induction frags as [|d frags IH]; intros result cur; cbn [fold_left concat].
  - unfold slice. rewrite drop_nil, take_nil, app_nil_r.
    f_equal. unfold len. cbn. lia.
  - rewrite collectNode_slice, IH, slice_app, len_app.
    f_equal; [rewrite app_assoc; reflexivity | lia].
Qed.

Lemma collectList_app f1 f2 start length st :
  collectList (f1 ++ f2) start length st
  = collectList f2 start length (collectList f1 start length st).
Proof. unfold collectList. apply fold_left_app. Qed.

Lemma searchList_app f1 f2 pattern st :
  searchList (f1 ++ f2) pattern st
  = searchList f1 pattern st ≫= searchList f2 pattern.
Proof.
  revert st. induction f1 as [|d f1 IH]; intros st; cbn; [reflexivity|].
  destruct (AVL.searchLoop _ d pattern 0 (snd st) (fst st)); cbn;
    [apply IH | reflexivity].
Qed.

(** The traversals on the store agree with their replay on the list of
    fragments. *)
Lemma collectText_inOrder fuel h node frags start length st :
  AVL.inOrderTraversal fuel h node = Some frags ->
  AVL.collectText fuel h node start length st
  = Some (collectList frags start length st).
Proof.
  revert node frags st.
  induction fuel as [|fuel IH]; intros node frags st H; [discriminate|].
  cbn in H |- *. destruct node as [p|]; [|injection H as <-; reflexivity].
  destruct (h !! p) as [n|]; [|discriminate]. cbn in H |- *.
  destruct (AVL.inOrderTraversal fuel h (AVL.left n)) as [l|] eqn:El;
    [|discriminate].
  destruct (AVL.inOrderTraversal fuel h (AVL.right n)) as [r|] eqn:Er;
    [|discriminate].
  cbn in H. injection H as <-.
  rewrite (IH _ _ st El). cbn. rewrite (IH _ _ _ Er).
  rewrite collectList_app. reflexivity.
Qed.

Lemma searchInNode_inOrder fuel h node pattern st st' :
  AVL.searchInNode fuel h node pattern st = Some st' ->
  exists frags,
    AVL.inOrderTraversal fuel h node = Some frags /\
    searchList frags pattern st = Some st'.
Proof.
  revert node st st'.
  induction fuel as [|fuel IH]; intros node st st' H; [discriminate|].
  cbn in H |- *. destruct node as [p|].
  2:{ exists []. split; [reflexivity | exact H]. }
  destruct (h !! p) as [n|]; [|discriminate]. cbn in H |- *.
  destruct (AVL.searchInNode fuel h (AVL.left n) pattern st) as [st1|] eqn:El;
    [|discriminate].
  cbn in H.
  destruct (AVL.searchLoop _ (AVL.data n) pattern 0 (snd st1) (fst st1))
    as [res|] eqn:Es; [|discriminate].
  cbn in H.
  destruct (IH _ _ _ El) as (fl & Hfl & Hsl).
  destruct (IH _ _ _ H) as (fr & Hfr & Hsr).
  exists (fl ++ [AVL.data n] ++ fr). rewrite Hfl, Hfr. cbn.
  split; [reflexivity|].
  rewrite searchList_app, Hsl. cbn. rewrite Es. cbn. exact Hsr.
Qed.

Lemma searchInNode_of_inOrder fuel h node pattern st frags :
  AVL.inOrderTraversal fuel h node = Some frags ->
  AVL.searchInNode fuel h node pattern st = searchList frags pattern st.
Proof.
  revert node st frags.
  induction fuel as [|fuel IH]; intros node st frags H; [discriminate|].
  cbn in H |- *. destruct node as [p|]; [|injection H as <-; reflexivity].
  destruct (h !! p) as [n|]; [|discriminate]. cbn in H |- *.
  destruct (AVL.inOrderTraversal fuel h (AVL.left n)) as [l|] eqn:El;
    [|discriminate].
  destruct (AVL.inOrderTraversal fuel h (AVL.right n)) as [r|] eqn:Er;
    [|discriminate].
  cbn in H. injection H as <-.
  rewrite (IH _ st _ El). rewrite searchList_app.
  destruct (searchList l pattern st) as [st1|]; cbn; [|reflexivity].
  destruct (AVL.searchLoop _ (AVL.data n) pattern 0 (snd st1) (fst st1));
    cbn; [|reflexivity].
  apply IH. exact Er.
Qed.

Lemma ascii_eqb_eq a b : ascii_eqb a b = true -> a = b.
Proof. apply Ascii.eqb_eq. Qed.

Lemma prefix_at_take pat s :
  prefix_at pat s = true -> take (length pat) s = pat.
Proof.
  revert s. induction pat as [|x pat IH]; intros s H; [reflexivity|].
  destruct s as [|y s]; [discriminate|]. cbn in H |- *.
  apply andb_true_iff in H as [Hxy Hrest].
  apply ascii_eqb_eq in Hxy as ->. f_equal. apply IH, Hrest.
Qed.

Lemma find_from_spec pat s base q :
  find_from pat s base = Some q ->
  (base <= q <= base + length s)%nat /\
  prefix_at pat (drop (q - base) s) = true.
Proof.
  revert base. induction s as [|c s IH]; intros base H; cbn in H.
  - destruct (prefix_at pat []) eqn:E; [|discriminate].
    injection H as <-. rewrite Nat.sub_diag. cbn. split; [lia | exact E].
  - destruct (prefix_at pat (c :: s)) eqn:E.
    + injection H as <-. rewrite Nat.sub_diag. cbn [drop length].
      split; [lia | exact E].
    + apply IH in H as [Hr Hp]. cbn [length]. split; [lia|].
      replace (q - base)%nat with (S (q - S base)) by lia. exact Hp.
Qed.

Lemma find_spec d pat pos q :
  find d pat pos = Some q ->
  (pos <= q <= length d)%nat /\ take (length pat) (drop q d) = pat.
Proof.
  unfold find. intros H.
  destruct (length d <? pos)%nat eqn:E; [discriminate|].
  apply Nat.ltb_ge in E.
  apply find_from_spec in H as [Hr Hp]. rewrite length_drop in Hr.
  split; [lia|]. apply prefix_at_take in Hp.
  rewrite drop_drop in Hp. replace (pos + (q - pos))%nat with q in Hp by lia.
  exact Hp.
Qed.

Lemma searchLoop_spec fuel d pat pos cur res res' :
  AVL.searchLoop fuel d pat pos cur res = Some res' ->
  exists new,
    res' = res ++ new /\
    Forall (fun x => exists q : nat,
                x = cur + Z.of_nat q /\ (q <= length d)%nat /\
                take (length pat) (drop q d) = pat) new.
Proof.
  revert pos res. induction fuel as [|fuel IH]; intros pos res H;
    [discriminate|].
  rewrite searchLoop_S in H. destruct (find d pat pos) as [q|] eqn:Ef.
  - apply IH in H as (new & -> & Hnew).
    exists ((cur + Z.of_nat q) :: new). split.
    + rewrite <- app_assoc. reflexivity.
    + constructor; [|exact Hnew].
      apply find_spec in Ef as [Hr Hp]. exists q. repeat split; [lia | exact Hp].
  - injection H as <-. exists []. rewrite app_nil_r. split; [reflexivity|].
    constructor.
Qed.

Lemma occurs_at_fragment pre d post pat (q : nat) :
  (q <= length d)%nat ->
  take (length pat) (drop q d) = pat ->
  occurs_at (pre ++ d ++ post) pat (len pre + Z.of_nat q).
Proof.
  intros Hq Hp. split; [unfold len; lia|].
  replace (Z.to_nat (len pre + Z.of_nat q)) with (length pre + q)%nat
    by (unfold len; lia).
  rewrite drop_app, drop_ge by lia. cbn [app].
  replace (length pre + q - length pre)%nat with q by lia.
  rewrite drop_app, take_app.
  assert (Hlen : (length pat <= length (drop q d))%nat).
  { rewrite <- Hp at 1. rewrite length_take. lia. }
  rewrite Hp.
  replace (length pat - length (drop q d))%nat with 0%nat by lia.
  rewrite take_0, app_nil_r. reflexivity.
Qed.

Lemma searchList_spec frags pat res cur res' cur' :
  searchList frags pat (res, cur) = Some (res', cur') ->
  cur' = cur + len (concat frags) /\
  exists new,
    res' = res ++ new /\
    forall pre post, cur = len pre ->
      Forall (occurs_at (pre ++ concat frags ++ post) pat) new.
Proof.
  revert res cur. induction frags as [|d frags IH]; intros res cur H.
  - cbn in H. injection H as <- <-. split; [unfold len; cbn; lia|].
    exists []. rewrite app_nil_r. split; [reflexivity|]. intros. constructor.
  - cbn in H.
    destruct (AVL.searchLoop _ d pat 0 cur res) as [res1|] eqn:Es;
      [|discriminate].
    cbn in H. apply searchLoop_spec in Es as (new1 & -> & Hnew1).
    apply IH in H as (Hcur & new2 & -> & Hnew2).
    split; [cbn; rewrite len_app; lia|].
    exists (new1 ++ new2). split; [rewrite app_assoc; reflexivity|].
    intros pre post Hpre. apply Forall_app. split.
    + eapply Forall_impl; [exact Hnew1|].
      intros x (q & -> & Hq & Hp). cbn. rewrite <- app_assoc. subst cur.
      apply occurs_at_fragment; assumption.
    + specialize (Hnew2 (pre ++ d) post). cbn.
      rewrite <- !app_assoc in Hnew2 |- *. apply Hnew2.
      rewrite len_app. lia.
Qed.

(** Every offset reported by [findAll] is an exact occurrence of the
    pattern in the text that [getText] reads. *)
Lemma getText_at_match pattern t results :
  AVL.findAll pattern t = Some results ->
  Forall (fun pos => AVL.getText pos (len pattern) t = Some pattern) results.
Proof.
  unfold AVL.findAll, AVL.getText. intros H.
  destruct (AVL.searchInNode (AVL.fuel_of t) (AVL.nodes t) (AVL.root_ t)
              pattern ([], 0)) as [[res cur]|] eqn:Es; [|discriminate].
  cbn in H. injection H as <-.
  apply searchInNode_inOrder in Es as (frags & Hin & Hs).
  apply searchList_spec in Hs as (_ & new & Hres & Hocc). cbn in Hres.
  subst res. specialize (Hocc [] [] eq_refl). cbn in Hocc.
  rewrite app_nil_r in Hocc.
  eapply Forall_impl; [exact Hocc|]. intros pos [Hpos Htake].
  rewrite (collectText_inOrder _ _ _ _ _ _ _ Hin), collectList_flat. cbn.
  unfold slice.
  replace (Z.to_nat (pos + len pattern - Z.max pos 0))
    with (length pattern) by (unfold len; lia).
  rewrite Z.sub_0_r, Htake. reflexivity.
Qed.

Lemma cstring_eqb_refl s : cstring_eqb s s = true.
Proof.
  induction s as [|c s IH]; [reflexivity|]. cbn.
  unfold ascii_eqb. rewrite Ascii.eqb_refl. exact IH.
Qed.

Lemma filterResults_id t pattern results :
  Forall (fun pos => AVL.getText pos (len pattern) t = Some pattern) results ->
  Editor.filterResults t pattern (map tolower pattern) results = Some results.
Proof.
  induction 1 as [|pos results Hpos _ IH]; [reflexivity|].
  cbn. rewrite Hpos. cbn. rewrite IH. cbn.
  rewrite cstring_eqb_refl. reflexivity.
Qed.

(** For a non-empty pattern the search loop of one fragment finishes
    within its fuel. *)
Lemma searchLoop_total d pat cur :
  pat <> [] ->
  forall fuel pos res,
    (1 <= fuel)%nat -> (length d + 1 - pos <= fuel)%nat ->
    is_Some (AVL.searchLoop fuel d pat pos cur res).
Proof.
  intros Hpat. induction fuel as [|fuel IH]; intros pos res Hf1 Hf; [lia|].
  rewrite searchLoop_S.
  destruct (find d pat pos) as [q|] eqn:Ef; [|eexists; reflexivity].
  apply find_spec in Ef as [Hr Hp].
  assert (Hl : (0 < length pat)%nat) by (destruct pat; [congruence | cbn; lia]).
  assert (Hq : (q + length pat <= length d)%nat).
  { assert (Hx : length (take (length pat) (drop q d)) = length pat)
      by (rewrite Hp; reflexivity).
    rewrite length_take, length_drop in Hx. lia. }
  apply IH; lia.
Qed.

Lemma searchList_total frags pat st :
  pat <> [] -> is_Some (searchList frags pat st).
Proof.
  intros Hpat. revert st. induction frags as [|d frags IH]; intros st; cbn.
  - eexists; reflexivity.
  - destruct (searchLoop_total d pat (snd st) Hpat (S (length d)) 0%nat (fst st))
      as [res Hres]; [lia | lia |].
    rewrite Hres. cbn. apply IH.
Qed.

(** C9.  [findText] with [caseSensitive = false] gives the very result of
    [findText] with [caseSensitive = true]; each offset it returns is an
    exact, case-sensitive occurrence of the pattern in the document; and
    for a non-empty pattern, on a document whose tree can be traversed,
    both searches return. *)
Theorem findText_ignores_caseSensitive (pattern : cstring)
    (e : Editor.TextEditor) :
  Editor.findText pattern false e = Editor.findText pattern true e /\
  (forall d results,
      Editor.getCurrentDocument e = Some d ->
      Editor.findText pattern false e = Some results ->
      Forall (fun pos =>
                AVL.getText pos (len pattern) (Editor.content d)
                = Some pattern) results) /\
  (forall d,
      Editor.getCurrentDocument e = Some d ->
      pattern <> [] ->
      is_Some (AVL.inOrderTraversal (AVL.fuel_of (Editor.content d))
                 (AVL.nodes (Editor.content d))
                 (AVL.root_ (Editor.content d))) ->
      is_Some (Editor.findText pattern true e)).
Proof.
  assert (Heq : Editor.findText pattern false e
                = Editor.findText pattern true e).
  { unfold Editor.findText.
    destruct (Editor.getCurrentDocument e) as [d|]; [|reflexivity].
    destruct (AVL.findAll pattern (Editor.content d)) as [results|] eqn:Ef;
      [|reflexivity].
    cbn. apply filterResults_id, getText_at_match, Ef. }
  split; [exact Heq|]. split.
  - intros d results Hd Hres. rewrite Heq in Hres.
    unfold Editor.findText in Hres. rewrite Hd in Hres.
    destruct (AVL.findAll pattern (Editor.content d)) as [r|] eqn:Ef;
      [|discriminate].
    cbn in Hres. injection Hres as <-. apply getText_at_match, Ef.
  - intros d Hd Hpat [frags Hin].
    unfold Editor.findText. rewrite Hd. unfold AVL.findAll.
    rewrite (searchInNode_of_inOrder _ _ _ _ _ _ Hin).
    destruct (searchList_total frags pattern ([], 0) Hpat) as [st Hst].
    rewrite Hst. cbn. eexists; reflexivity.
Qed.

Lemma findText_ignores_caseSensitive_witness :
  exists e,
    script [Editor.insertText (str "Hello hello HELLO")] Editor.init = Some e /\
    Editor.findText (str "hello") false e = Some [6] /\
    Editor.findText (str "hello") true e = Some [6] /\
    is_Some (Editor.findText (str "hello") true e) /\
    (forall d, Editor.getCurrentDocument e = Some d ->
               AVL.getText 6 5 (Editor.content d) = Some (str "hello")).
Proof.
  eexists. split; [vm_compute; reflexivity|].
  match goal with
  | |- Editor.findText ?p false ?e = _ /\ _ =>
      destruct (findText_ignores_caseSensitive p e) as (Heq & Hocc & Htot)
  end.
  split; [rewrite Heq; vm_compute; reflexivity|].
  split; [vm_compute; reflexivity|].
  split.
  - eapply Htot.
    + vm_compute. reflexivity.
    + discriminate.
    + vm_compute. eexists. reflexivity.
  - intros d Hd.
    assert (Hf : Editor.findText (str "hello") false _ = Some [6])
      by (rewrite Heq; vm_compute; reflexivity).
    pose proof (Hocc d [6] Hd Hf) as HF.
    inversion HF as [|? ? H6 _]. exact H6.
Defined.

(** ** Editor core: cursor and selection *)

Lemma getCurrentDocument_valid e d :
  Editor.getCurrentDocument e = Some d ->
  Editor.isValidDocumentIndex (Editor.currentDocumentIndex_ e) e = true /\
  Editor.documents_ e !! Z.to_nat (Editor.currentDocumentIndex_ e) = Some d.
Proof.
  unfold Editor.getCurrentDocument.
  destruct (Editor.isValidDocumentIndex _ e); [auto | discriminate].
Qed.

Lemma getCurrentDocument_replace e d d' :
  Editor.getCurrentDocument e = Some d ->
  Editor.getCurrentDocument
    (Editor.set_documents
       (<[Z.to_nat (Editor.currentDocumentIndex_ e) := d']>
          (Editor.documents_ e)) e) = Some d'.
Proof.
  intros H. apply getCurrentDocument_valid in H as [Hv Hl].
  unfold Editor.getCurrentDocument, Editor.isValidDocumentIndex in *.
  cbn [Editor.set_documents Editor.documents_ Editor.currentDocumentIndex_].
  rewrite length_insert, Hv.
  apply list_lookup_insert_eq. eapply lookup_lt_Some, Hl.
Qed.

Lemma getCurrentDocument_set_content e d c :
  Editor.getCurrentDocument e = Some d ->
  Editor.getCurrentDocument (Editor.set_content c e)
  = Some (Editor.mkDocument (Editor.filename d) (Editor.title d)
            (Editor.modified d) c).
Proof.
  intros H. unfold Editor.set_content. rewrite H.
  apply (getCurrentDocument_replace e d), H.
Qed.

Lemma getCurrentDocument_mark e d :
  Editor.getCurrentDocument e = Some d ->
  Editor.getCurrentDocument (Editor.markDocumentModified e)
  = Some (Editor.mkDocument (Editor.filename d) (Editor.title d) true
            (Editor.content d)).
Proof.
  intros H. unfold Editor.markDocumentModified. rewrite H.
  apply (getCurrentDocument_replace e d), H.
Qed.

Lemma cursor_markDocumentModified e :
  Editor.cursorPosition_ (Editor.markDocumentModified e)
  = Editor.cursorPosition_ e.
Proof.
  unfold Editor.markDocumentModified.
  destruct (Editor.getCurrentDocument e); reflexivity.
Qed.


Lemma selection_markDocumentModified e :
  Editor.selectionStart_ (Editor.markDocumentModified e)
  = Editor.selectionStart_ e /\
  Editor.selectionEnd_ (Editor.markDocumentModified e)
  = Editor.selectionEnd_ e.
Proof.
  unfold Editor.markDocumentModified.
  destruct (Editor.getCurrentDocument e); split; reflexivity.
Qed.

Lemma selection_set_content c e :
  Editor.selectionStart_ (Editor.set_content c e) = Editor.selectionStart_ e /\
  Editor.selectionEnd_ (Editor.set_content c e) = Editor.selectionEnd_ e.
Proof.
  unfold Editor.set_content.
  destruct (Editor.getCurrentDocument e); split; reflexivity.
Qed.

(** What [insertText] does over an active selection, in terms of the
    tree operations it calls: [erase] of the selected range, then [insert]
    at the selection start; the cursor ends after the inserted text and
    the selection is cleared. *)
Lemma insertText_over_selection e d text c1 c2 :
  Editor.getCurrentDocument e = Some d ->
  Editor.selectionStart_ e < Editor.selectionEnd_ e ->
  AVL.erase (Editor.selectionStart_ e)
    (Editor.selectionEnd_ e - Editor.selectionStart_ e) (Editor.content d)
  = Some c1 ->
  AVL.insert (Editor.selectionStart_ e) text c1 = Some c2 ->
  exists e',
    Editor.insertText text e = Some e' /\
    Editor.content <$> Editor.getCurrentDocument e' = Some c2 /\
    Editor.cursorPosition_ e' = Editor.selectionStart_ e + len text /\
    Editor.selectionStart_ e' = Editor.selectionStart_ e /\
    Editor.selectionEnd_ e' = Editor.selectionStart_ e.
Proof.
  intros Hd Hsel He Hi.
  assert (Hhas : Editor.hasSelection e = true).
  { unfold Editor.hasSelection. apply negb_true_iff, Z.eqb_neq. lia. }
  unfold Editor.insertText. rewrite Hd, Hhas.
  unfold Editor.deleteSelection. rewrite Hhas, Hd. cbn [negb].
  rewrite He. cbn [mbind option_bind].
  set (e1 := Editor.markDocumentModified
               (Editor.clearSelection
                  (Editor.set_cursor (Editor.selectionStart_ e)
                     (Editor.set_content c1 e)))).
  pose proof (getCurrentDocument_set_content e d c1 Hd) as Hd0.
  assert (Hd1 : Editor.getCurrentDocument e1
                = Some (Editor.mkDocument (Editor.filename d) (Editor.title d)
                          true c1)).
  { unfold e1.
    apply (getCurrentDocument_mark _
             (Editor.mkDocument (Editor.filename d) (Editor.title d)
                (Editor.modified d) c1)).
    exact Hd0. }
  assert (Hc1 : Editor.cursorPosition_ e1 = Editor.selectionStart_ e).
  { unfold e1. rewrite cursor_markDocumentModified. reflexivity. }
  assert (Hs1 : Editor.selectionStart_ e1 = Editor.selectionStart_ e /\
                Editor.selectionEnd_ e1 = Editor.selectionStart_ e).
  { unfold e1. destruct (selection_markDocumentModified
      (Editor.clearSelection
         (Editor.set_cursor (Editor.selectionStart_ e)
            (Editor.set_content c1 e)))) as [-> ->]. split; reflexivity. }
  rewrite Hd1. cbn [mbind option_bind Editor.content]. rewrite Hc1, Hi.
  cbn [mbind option_bind]. eexists. split; [reflexivity|].
  pose proof (getCurrentDocument_set_content e1 _ c2 Hd1) as Hd2.
  split.
  { rewrite (getCurrentDocument_mark
               (Editor.set_cursor (Editor.selectionStart_ e + len text)
                  (Editor.set_content c2 e1)) _ Hd2).
    reflexivity. }
  split.
  { rewrite cursor_markDocumentModified. reflexivity. }
  destruct Hs1 as [Hs1 Hs2].
  destruct (selection_markDocumentModified
              (Editor.set_cursor (Editor.selectionStart_ e + len text)
                 (Editor.set_content c2 e1))) as [-> ->].
  cbn [Editor.set_cursor Editor.selectionStart_ Editor.selectionEnd_].
  destruct (selection_set_content c2 e1) as [-> ->]. auto.
Qed.

(** C6.  A document is typed as "B", then "A" in front of it; the whole
    text "AB" is selected (start 0, end 2) and "X" is inserted.  The
    cursor ends after the inserted text, at 1, but only the part of the
    selection that lies in the first node is deleted: the document reads
    "XB" where replacing the selection gives "X". *)
Theorem insertText_over_selection_keeps_text :
  let selected :=
    script [Editor.insertText (str "B"); Editor.moveCursorTo 0;
            Editor.insertText (str "A"); Editor.moveCursorTo 0;
            total Editor.startSelection; Editor.moveCursorTo 2;
            total Editor.endSelection] Editor.init in
  let replaced := selected ≫= Editor.insertText (str "X") in
  selected ≫= Editor.getText = Some (str "AB") /\
  Editor.selectionStart_ <$> selected = Some 0 /\
  Editor.selectionEnd_ <$> selected = Some 2 /\
  replaced ≫= Editor.getText = Some (str "XB") /\
  Editor.cursorPosition_ <$> replaced = Some 1 /\
  Reference.insert 0 (str "X") (Reference.erase 0 2 (str "AB")) = str "X".
Proof. evaluate. Qed.




(** ** Store invariant: cached sizes stay non-negative *)

Lemma keeps_ret {A} (a : A) (Q : A -> Prop) : Q a -> keeps (AVL.ret a) Q.
Proof. intros HQ h a' h' Hh [= <- <-]. auto. Qed.

Lemma keeps_fail {A} (Q : A -> Prop) : keeps AVL.fail Q.
Proof. intros h a h' _ H. discriminate. Qed.

Lemma keeps_bind {A B} (m : AVL.M A) (k : A -> AVL.M B) Q R :
  keeps m Q -> (forall a, Q a -> keeps (k a) R) -> keeps (AVL.bind m k) R.
Proof.
  intros Hm Hk h b h' Hh H. unfold AVL.bind in H.
  destruct (m h) as [[a h1]|] eqn:E; [|discriminate].
  destruct (Hm _ _ _ Hh E) as [Hh1 HQ]. exact (Hk a HQ _ _ _ Hh1 H).
Qed.

Lemma keeps_weaken {A} (m : AVL.M A) (Q R : A -> Prop) :
  keeps m Q -> (forall a, Q a -> R a) -> keeps m R.
Proof.
  intros Hm HQR h a h' Hh H. destruct (Hm _ _ _ Hh H). auto.
Qed.

Lemma keeps_deref p : keeps (AVL.deref p) (fun n => 0 <= AVL.size n).
Proof.
  intros h n h' Hh H. unfold AVL.deref in H.
  destruct (h !! p) as [n0|] eqn:E; [|discriminate]. injection H as <- <-.
  split; [exact Hh|]. exact (Forall_lookup_1 _ _ _ _ Hh E).
Qed.

Lemma keeps_modify p (f : AVL.AVLNode -> AVL.AVLNode) :
  (forall n, 0 <= AVL.size n -> 0 <= AVL.size (f n)) ->
  keeps (AVL.modify p f) (fun _ => True).
Proof.
  intros Hf h a h' Hh H. unfold AVL.modify in H.
  destruct (h !! p) as [n|] eqn:E; [|discriminate]. injection H as <- <-.
  split; [|exact I]. apply Forall_insert; [exact Hh|].
  apply Hf. exact (Forall_lookup_1 _ _ _ _ Hh E).
Qed.

Lemma keeps_alloc n :
  0 <= AVL.size n -> keeps (AVL.alloc n) (fun _ => True).
Proof.
  intros Hn h a h' Hh [= <- <-]. split; [|exact I].
  apply Forall_app. split; [exact Hh|]. constructor; [exact Hn | constructor].
Qed.

Lemma keeps_nonnull q : keeps (AVL.nonnull q) (fun _ => True).
Proof. destruct q; [apply keeps_ret; exact I | apply keeps_fail]. Qed.

Create HintDb keeps.
#[local] Hint Resolve keeps_deref keeps_nonnull keeps_fail : keeps.

(** One step of a proof of [keeps]: split a bind, case on a test, or
    close the goal with a known fact. *)
Ltac keeps_step :=
  match goal with
  | |- keeps (AVL.bind _ _) _ =>
      eapply keeps_bind; [solve [eauto with keeps] | intros; cbv beta in *]
  | |- keeps (AVL.bind _ _) _ =>
      eapply keeps_bind with (Q := fun _ => True); [|intros]
  | |- keeps (AVL.ret _) _ => apply keeps_ret; try exact I
  | |- keeps (if ?b then _ else _) _ => destruct b eqn:?
  | |- keeps (match ?x with _ => _ end) _ => destruct x eqn:?
  | |- keeps _ (fun _ => True) => solve [eauto with keeps]
  | |- keeps _ _ =>
      eapply keeps_weaken; [solve [eauto with keeps] | intros; exact I]
  end.

Lemma keeps_getHeight q : keeps (AVL.getHeight q) (fun _ => True).
Proof. unfold AVL.getHeight. repeat keeps_step. Qed.

Lemma keeps_getSize q : keeps (AVL.getSize q) (fun z => 0 <= z).
Proof.
  unfold AVL.getSize. destruct q.
  - eapply keeps_bind; [apply keeps_deref|]. intros n Hn.
    apply keeps_ret. exact Hn.
  - apply keeps_ret. lia.
Qed.

#[local] Hint Resolve keeps_getHeight keeps_getSize : keeps.

Lemma keeps_getBalance q : keeps (AVL.getBalance q) (fun _ => True).
Proof. unfold AVL.getBalance. repeat keeps_step. Qed.

Lemma keeps_set_height p x : keeps (AVL.modify p (AVL.set_height x)) (fun _ => True).
Proof. apply keeps_modify. intros n Hn. exact Hn. Qed.

Lemma keeps_set_left p q : keeps (AVL.modify p (AVL.set_left q)) (fun _ => True).
Proof. apply keeps_modify. intros n Hn. exact Hn. Qed.

Lemma keeps_set_right p q : keeps (AVL.modify p (AVL.set_right q)) (fun _ => True).
Proof. apply keeps_modify. intros n Hn. exact Hn. Qed.

Lemma keeps_set_data p d : keeps (AVL.modify p (AVL.set_data d)) (fun _ => True).
Proof. apply keeps_modify. intros n Hn. exact Hn. Qed.

Lemma keeps_set_size p x :
  0 <= x -> keeps (AVL.modify p (AVL.set_size x)) (fun _ => True).
Proof. intros Hx. apply keeps_modify. intros n _. exact Hx. Qed.

#[local] Hint Resolve keeps_getBalance keeps_set_height keeps_set_left
  keeps_set_right keeps_set_data : keeps.

Lemma keeps_updateHeight q : keeps (AVL.updateHeight q) (fun _ => True).
Proof. unfold AVL.updateHeight. repeat keeps_step. Qed.

Lemma keeps_updateSize q : keeps (AVL.updateSize q) (fun _ => True).
Proof.
  unfold AVL.updateSize. destruct q; [|apply keeps_ret; exact I].
  do 3 keeps_step. apply keeps_set_size.
  match goal with n : AVL.AVLNode |- _ => pose proof (len_nonneg (AVL.data n)) end.
  lia.
Qed.

#[local] Hint Resolve keeps_updateHeight keeps_updateSize : keeps.

Lemma keeps_rotateRight y : keeps (AVL.rotateRight y) (fun _ => True).
Proof. unfold AVL.rotateRight. repeat keeps_step. Qed.

Lemma keeps_rotateLeft x : keeps (AVL.rotateLeft x) (fun _ => True).
Proof. unfold AVL.rotateLeft. repeat keeps_step. Qed.

#[local] Hint Resolve keeps_rotateRight keeps_rotateLeft : keeps.

Lemma keeps_balance q : keeps (AVL.balance q) (fun _ => True).
Proof. unfold AVL.balance. repeat keeps_step. Qed.

#[local] Hint Resolve keeps_balance : keeps.

Lemma keeps_insertHelper fuel q position text :
  keeps (AVL.insertHelper fuel q position text) (fun _ => True).
Proof.
  revert q position.
  induction fuel as [|fuel IH]; intros q position; cbn [AVL.insertHelper].
  - apply keeps_fail.
  - destruct q as [p|].
    + eapply keeps_bind; [apply keeps_deref | intros n _].
      eapply keeps_bind; [apply keeps_getSize | intros leftSize _].
      eapply keeps_bind with (Q := fun _ => True);
        [|intros; apply keeps_balance].
      destruct (position <=? leftSize).
      * eapply keeps_bind; [apply IH | intros; apply keeps_set_left].
      * destruct (position <=? leftSize + len (AVL.data n)).
        -- eapply keeps_bind; [apply keeps_set_data|].
           intros; apply keeps_updateSize.
        -- eapply keeps_bind; [apply IH | intros; apply keeps_set_right].
    + eapply keeps_bind; [apply keeps_alloc | intros; apply keeps_ret; exact I].
      cbn. apply len_nonneg.
Qed.

Lemma keeps_eraseHelper fuel q position length :
  keeps (AVL.eraseHelper fuel q position length) (fun _ => True).
Proof.
  revert q position length.
  induction fuel as [|fuel IH]; intros q position length;
    cbn [AVL.eraseHelper].
  - apply keeps_fail.
  - destruct q as [p|]; [|apply keeps_ret; exact I].
    eapply keeps_bind; [apply keeps_deref | intros n _].
    eapply keeps_bind; [apply keeps_getSize | intros leftSize _].
    eapply keeps_bind with (Q := fun _ => True);
      [|intros; apply keeps_balance].
    destruct (position <? leftSize).
    + eapply keeps_bind; [apply IH | intros; apply keeps_set_left].
    + destruct (position <? leftSize + len (AVL.data n)).
      * eapply keeps_bind; [apply keeps_set_data|]. intros _ _.
        eapply keeps_bind; [apply keeps_updateSize|]. intros _ _.
        match goal with |- keeps (if ?b then _ else _) _ => destruct b end.
        -- eapply keeps_bind; [apply IH | intros; apply keeps_set_right].
        -- apply keeps_ret. exact I.
      * eapply keeps_bind; [apply IH | intros; apply keeps_set_right].
Qed.

Lemma insert_sizes_nonneg position text t t' :
  sizes_nonneg (AVL.nodes t) ->
  AVL.insert position text t = Some t' ->
  sizes_nonneg (AVL.nodes t').
Proof.
  intros Hh H. unfold AVL.insert in H.
  destruct text as [|c text]; [injection H as <-; exact Hh|].
  destruct (AVL.insertHelper _ _ position (c :: text) _) as [[r h]|] eqn:E;
    [|discriminate].
  cbn in H. injection H as <-. cbn [AVL.nodes].
  exact (proj1 (keeps_insertHelper _ _ _ _ _ _ _ Hh E)).
Qed.

Lemma erase_sizes_nonneg position length t t' :
  sizes_nonneg (AVL.nodes t) ->
  AVL.erase position length t = Some t' ->
  sizes_nonneg (AVL.nodes t').
Proof.
  intros Hh H. unfold AVL.erase in H.
  destruct (length <=? 0); [injection H as <-; exact Hh|].
  destruct (AVL.eraseHelper _ _ position length _) as [[r h]|] eqn:E;
    [|discriminate].
  cbn in H. injection H as <-. cbn [AVL.nodes].
  exact (proj1 (keeps_eraseHelper _ _ _ _ _ _ _ Hh E)).
Qed.

Lemma size_of_nonneg t sz :
  sizes_nonneg (AVL.nodes t) -> AVL.size_of t = Some sz -> 0 <= sz.
Proof.
  intros Hh H. unfold AVL.size_of in H.
  destruct (AVL.getSize (AVL.root_ t) (AVL.nodes t)) as [[z h]|] eqn:E;
    [|discriminate].
  cbn in H. injection H as <-.
  exact (proj2 (keeps_getSize _ _ _ _ Hh E)).
Qed.

(** ** Editor core: what every command preserves *)






































(** ** Moving the cursor by lines *)

(** [moveCursorUp] calls [moveCursorToLine] for the line above, which calls
    [moveCursorUp] again, with the cursor where it was: above the first
    line, and likewise before the last one, no depth of calls suffices. *)
Lemma line_moves_stuck fuel e l :
  Editor.getCurrentLine e = Some l ->
  (1 < l ->
   Editor.moveCursorUp fuel e = None /\
   Editor.moveCursorToLine fuel (l - 1) e = None) /\
  (forall n, Editor.getLineCount e = Some n -> l < n ->
             Editor.moveCursorDown fuel e = None /\
             Editor.moveCursorToLine fuel (l + 1) e = None).
Proof.
  intros Hl. induction fuel as [|fuel IH].
  - split; [intros _ | intros n _ _]; split; reflexivity.
  - destruct IH as [IHu IHd].
    destruct (Editor.getCurrentDocument e) as [d|] eqn:Ed.
    2:{ unfold Editor.getCurrentLine in Hl. rewrite Ed in Hl.
        injection Hl as <-. split; [lia|].
        intros n Hn. unfold Editor.getLineCount in Hn. rewrite Ed in Hn.
        injection Hn as <-. lia. }
    split.
    + intros H1. destruct (IHu H1) as [Hu Ht]. split.
      * cbn. rewrite Ed, Hl. cbn.
        destruct (Editor.getCurrentColumn e); [|reflexivity]. cbn.
        replace (1 <? l) with true by (symmetry; apply Z.ltb_lt; lia).
        rewrite Ht. reflexivity.
      * cbn. rewrite Ed, Hl. cbn.
        replace (0 <? l - 1 - l) with false by (symmetry; apply Z.ltb_ge; lia).
        replace (l - 1 - l <? 0) with true by (symmetry; apply Z.ltb_lt; lia).
        replace (Z.to_nat (- (l - 1 - l))) with 1%nat by lia.
        cbn. rewrite Hu. reflexivity.
    + intros n Hn H1. destruct (IHd n Hn H1) as [Hd Ht]. split.
      * cbn. rewrite Ed, Hl. cbn.
        destruct (Editor.getCurrentColumn e); [|reflexivity]. cbn.
        rewrite Hn. cbn.
        replace (l <? n) with true by (symmetry; apply Z.ltb_lt; lia).
        rewrite Ht. reflexivity.
      * cbn. rewrite Ed, Hl. cbn.
        replace (0 <? l + 1 - l) with true by (symmetry; apply Z.ltb_lt; lia).
        replace (Z.to_nat (l + 1 - l)) with 1%nat by lia.
        cbn. rewrite Hd. reflexivity.
Qed.

Lemma moveCursorUp_returns_same fuel e e' :
  Editor.moveCursorUp fuel e = Some e' -> e' = e.
Proof.
  destruct fuel as [|fuel]; [discriminate|]. cbn.
  destruct (Editor.getCurrentDocument e) as [d|]; [|congruence].
  destruct (Editor.getCurrentLine e) as [l|] eqn:El; [|discriminate]. cbn.
  destruct (Editor.getCurrentColumn e) as [c|]; [|discriminate]. cbn.
  destruct (1 <? l) eqn:E; [|congruence].
  apply Z.ltb_lt in E.
  destruct (line_moves_stuck fuel e l El) as [Hu _].
  rewrite (proj2 (Hu E)). discriminate.
Qed.

Lemma moveCursorDown_returns_same fuel e e' :
  Editor.moveCursorDown fuel e = Some e' -> e' = e.
Proof.
  destruct fuel as [|fuel]; [discriminate|]. cbn.
  destruct (Editor.getCurrentDocument e) as [d|]; [|congruence].
  destruct (Editor.getCurrentLine e) as [l|] eqn:El; [|discriminate]. cbn.
  destruct (Editor.getCurrentColumn e) as [c|]; [|discriminate]. cbn.
  destruct (Editor.getLineCount e) as [n|] eqn:En; [|discriminate]. cbn.
  destruct (l <? n) eqn:E; [|congruence].
  apply Z.ltb_lt in E.
  destruct (line_moves_stuck fuel e l El) as [_ Hd].
  rewrite (proj2 (Hd n En E)). discriminate.
Qed.

Lemma times_returns_same n step e e' :
  (forall x y, step x = Some y -> y = x) ->
  Editor.times n step e = Some e' -> e' = e.
Proof.
  intros Hstep. revert e. induction n as [|n IH]; intros e H; cbn in H.
  - congruence.
  - destruct (step e) as [e1|] eqn:E; [|discriminate]. cbn in H.
    apply Hstep in E as ->. apply IH, H.
Qed.

Lemma moveCursorToLine_returns_same fuel line e e' :
  Editor.moveCursorToLine fuel line e = Some e' -> e' = e.
Proof.
  destruct fuel as [|fuel]; [discriminate|]. cbn.
  destruct (Editor.getCurrentDocument e) as [d|]; [|congruence].
  destruct (Editor.getCurrentLine e) as [l|]; [|discriminate]. cbn.
  destruct (0 <? line - l).
  - apply times_returns_same. intros x y. apply moveCursorDown_returns_same.
  - destruct (line - l <? 0); [|congruence].
    apply times_returns_same. intros x y. apply moveCursorUp_returns_same.
Qed.







(** ** Reading a tree *)

Lemma getText_flat t frags start length :
  AVL.inOrderTraversal (AVL.fuel_of t) (AVL.nodes t) (AVL.root_ t)
  = Some frags ->
  AVL.getText start length t = Some (slice (concat frags) 0 start length).
Proof.
  intros H. unfold AVL.getText.
  rewrite (collectText_inOrder _ _ _ _ _ _ _ H), collectList_flat.
  reflexivity.
Qed.

Lemma text_of_inv t text :
  text_of t = Some text ->
  exists frags,
    AVL.inOrderTraversal (AVL.fuel_of t) (AVL.nodes t) (AVL.root_ t)
    = Some frags /\ text = concat frags.
Proof.
  unfold text_of. intros H.
  destruct (AVL.inOrderTraversal _ _ _) as [frags|]; [|discriminate].
  injection H as <-. exists frags. split; reflexivity.
Qed.

Lemma getText_text_of t text start length :
  text_of t = Some text ->
  AVL.getText start length t = Some (slice text 0 start length).
Proof.
  intros H. apply text_of_inv in H as (frags & Hin & ->).
  apply getText_flat, Hin.
Qed.

(** X1.  As long as the [int] sum [start + length] that [collectText]
    computes does not overflow ([start], [length] and [start + length] fit
    an [int], as does the length of the text; the other sums and
    differences of [collectText] are then in range as well),
    [getText(start, length)] returns the part of the tree's text (the node
    fragments in traversal order) that lies in the window
    [start, start + length): for [start >= 0] it is
    [text.substr(start, length)], a negative [start] shortens the window
    from the left, and a non-positive [length] gives the empty string.
    (Where [start + length] exceeds [INT_MAX] the sum wraps in the code and
    nothing is stated.) *)
Theorem getText_is_window_of_text t text start length :
  text_of t = Some text ->
  len text <= INT_MAX ->
  int_range start -> int_range length -> int_range (start + length) ->
  AVL.getText start length t
  = Some (substr text (Z.max 0 start) (length + Z.min 0 start)).
Proof.
  intros H _ _ _ _. rewrite (getText_text_of _ _ _ _ H).
  unfold slice, substr. f_equal. f_equal; [lia|]. f_equal. lia.
Qed.

Lemma getText_is_window_of_text_witness :
  text_of tree_hello_world = Some (str "Hello World") /\
  AVL.getText 3 5 tree_hello_world = Some (str "lo Wo") /\
  AVL.getText (-2) 5 tree_hello_world = Some (str "Hel").
Proof.
  split; [reflexivity|]. split.
  - apply (getText_is_window_of_text tree_hello_world (str "Hello World") 3 5);
      [reflexivity | | | |]; vm_compute; intuition discriminate.
  - apply (getText_is_window_of_text tree_hello_world (str "Hello World")
             (-2) 5);
      [reflexivity | | | |]; vm_compute; intuition discriminate.
Defined.

Lemma getSize_lookup h q z h' :
  AVL.getSize q h = Some (z, h') ->
  h' = h /\
  z = match q with
      | Some p => match h !! p with Some n => AVL.size n | None => 0 end
      | None => 0
      end.
Proof.
  destruct q as [p|]; cbn; unfold AVL.bind, AVL.deref, AVL.ret.
  - destruct (h !! p) as [n|]; [|discriminate].
    intros H. injection H as <- <-. split; reflexivity.
  - intros H. injection H as <- <-. split; reflexivity.
Qed.

(** A subtree that passes [validateHelper] can be traversed, and the size
    cached in its root is the length of its text. *)
Lemma validateHelper_size fuel h node :
  AVL.validateHelper fuel h node = Some true ->
  exists frags,
    AVL.inOrderTraversal fuel h node = Some frags /\
    AVL.getSize node h = Some (len (concat frags), h).
Proof.
  revert node. induction fuel as [|fuel IH]; intros node H; [discriminate|].
  cbn in H |- *. destruct node as [p|].
  2:{ exists []. split; reflexivity. }
  unfold AVL.bind, AVL.deref, AVL.ret.
  destruct (h !! p) as [n|] eqn:Hp; [|discriminate]. cbn in H |- *.
  destruct (fst <$> _) as [b|]; [|discriminate]. cbn in H.
  destruct ((b <? -1) || (1 <? b)); [discriminate|].
  destruct (match AVL.left n with
            | Some l => AVL.size <$> h !! l
            | None => Some 0
            end) as [sl|] eqn:Esl; [|discriminate].
  cbn in H.
  destruct (match AVL.right n with
            | Some r => AVL.size <$> h !! r
            | None => Some 0
            end) as [sr|] eqn:Esr; [|discriminate].
  cbn in H.
  destruct (AVL.size n =? len (AVL.data n) + sl + sr) eqn:Esz;
    [|discriminate].
  cbn in H. apply Z.eqb_eq in Esz.
  destruct (AVL.validateHelper fuel h (AVL.left n)) as [vl|] eqn:Evl;
    [|discriminate].
  cbn in H. destruct vl; [|discriminate].
  destruct (IH _ Evl) as (fl & Hfl & Hsl).
  destruct (IH _ H) as (fr & Hfr & Hsr).
  apply getSize_lookup in Hsl as [_ Hsl].
  apply getSize_lookup in Hsr as [_ Hsr].
  assert (Hl : sl = len (concat fl)).
  { rewrite Hsl. destruct (AVL.left n) as [l|]; [|congruence].
    destruct (h !! l); cbn in Esl; congruence. }
  assert (Hr : sr = len (concat fr)).
  { rewrite Hsr. destruct (AVL.right n) as [r|]; [|congruence].
    destruct (h !! r); cbn in Esr; congruence. }
  exists (fl ++ [AVL.data n] ++ fr). rewrite Hfl, Hfr. cbn.
  split; [reflexivity|].
  unfold AVL.bind, AVL.deref, AVL.ret. rewrite Hp. f_equal. f_equal.
  rewrite concat_app. cbn. rewrite !len_app. lia.
Qed.

Lemma validate_text t :
  AVL.validate t = Some true ->
  exists text, text_of t = Some text /\ AVL.size_of t = Some (len text).
Proof.
  unfold AVL.validate, text_of, AVL.size_of. intros H.
  apply validateHelper_size in H as (frags & Hin & Hsz).
  exists (concat frags). rewrite Hin, Hsz. split; reflexivity.
Qed.

(** X2.  On a tree that passes [validate()], the cached size is the real
    length of the text: [getSize()] is the length of the text that the
    traversal yields, [getText(0, getSize())] is the whole text, and
    [getChar(position)] is the character of the text at that offset, NUL
    for every offset outside [0, getSize()). *)
Theorem validate_size_is_text_length t :
  AVL.validate t = Some true ->
  exists text,
    text_of t = Some text /\
    AVL.size_of t = Some (len text) /\
    AVL.getText 0 (len text) t = Some text /\
    forall position,
      AVL.getChar position t
      = Some (if (position <? 0) || (len text <=? position) then zero
              else char_at text position).
Proof.
  intros H. apply validate_text in H as (text & Ht & Hsz).
  exists text. split; [exact Ht|]. split; [exact Hsz|]. split.
  - rewrite (getText_text_of _ _ _ _ Ht). f_equal. unfold slice.
    rewrite Z.sub_0_r. change (Z.to_nat 0) with 0%nat. rewrite drop_0.
    apply take_ge. unfold len. lia.
  - intros position. unfold AVL.getChar. rewrite Hsz. cbn.
    destruct ((position <? 0) || (len text <=? position)) eqn:E;
      [reflexivity|].
    apply orb_false_iff in E as [E1 E2].
    apply Z.ltb_ge in E1. apply Z.leb_gt in E2.
    rewrite (getText_text_of _ _ _ _ Ht). cbn. f_equal.
    unfold slice, char_at.
    replace (Z.to_nat (position + 1 - Z.max position 0)) with 1%nat by lia.
    rewrite Z.sub_0_r.
    assert (Hlt : (Z.to_nat position < length text)%nat)
      by (unfold len in E2; lia).
    generalize dependent (Z.to_nat position). clear.
    induction text as [|c text IH]; intros n Hn; cbn in Hn; [lia|].
    destruct n as [|n]; [reflexivity|]. cbn. apply IH. lia.
Qed.

Lemma validate_size_is_text_length_witness :
  exists text,
    text_of tree_hello_world = Some text /\
    AVL.size_of tree_hello_world = Some (len text) /\
    AVL.getText 0 (len text) tree_hello_world = Some text /\
    forall position,
      AVL.getChar position tree_hello_world
      = Some (if (position <? 0) || (len text <=? position) then zero
              else char_at text position).
Proof.
  apply (validate_size_is_text_length tree_hello_world). reflexivity.
Defined.

(** ** Search in a tree *)

Lemma spaced_weaken m lo lo' l : lo' <= lo -> spaced m lo l -> spaced m lo' l.
Proof. destruct l as [|x l]; cbn; [tauto|]. intros ? [? ?]. split; [lia | assumption]. Qed.

Lemma spaced_app m lo hi l1 l2 :
  0 <= m -> lo <= hi ->
  spaced m lo l1 -> Forall (fun x => x + m <= hi) l1 -> spaced m hi l2 ->
  spaced m lo (l1 ++ l2).
Proof.
  intros Hm. revert lo. induction l1 as [|x l1 IH]; intros lo Hlo H1 Hb H2.
  - cbn. eapply spaced_weaken; eassumption.
  - cbn in H1 |- *. destruct H1 as [Hx H1]. inversion Hb; subst.
    split; [exact Hx|]. apply IH; [lia | assumption..].
Qed.

Lemma spaced_lower m lo l :
  0 <= m -> spaced m lo l -> Forall (fun x => lo <= x) l.
Proof.
  intros Hm. revert lo. induction l as [|x l IH]; intros lo H; constructor.
  - apply H.
  - destruct H as [Hx H]. apply IH in H.
    eapply Forall_impl; [exact H|]. cbn. intros. lia.
Qed.

(** The matches that the search loop of one fragment adds lie inside the
    fragment, from the start offset on, one after the end of the other. *)
Lemma searchLoop_spaced fuel d pat pos cur res res' :
  AVL.searchLoop fuel d pat pos cur res = Some res' ->
  exists new,
    res' = res ++ new /\
    spaced (len pat) (cur + Z.of_nat pos) new /\
    Forall (fun x => x + len pat <= cur + len d) new.
Proof.
  revert pos res. induction fuel as [|fuel IH]; intros pos res H;
    [discriminate|].
  rewrite searchLoop_S in H. destruct (find d pat pos) as [q|] eqn:Ef.
  - apply IH in H as (new & -> & Hsp & Hb).
    apply find_spec in Ef as [Hr Hp].
    assert (Hq : (q + length pat <= length d)%nat).
    { assert (Hx : length (take (length pat) (drop q d)) = length pat)
        by (rewrite Hp; reflexivity).
      rewrite length_take, length_drop in Hx. lia. }
    exists ((cur + Z.of_nat q) :: new). split; [|split].
    + rewrite <- app_assoc. reflexivity.
    + cbn. split; [lia|]. eapply spaced_weaken; [|exact Hsp].
      unfold len. lia.
    + constructor; [unfold len; lia | exact Hb].
  - injection H as <-. exists []. rewrite app_nil_r.
    split; [reflexivity|]. split; [exact I | constructor].
Qed.

Lemma searchList_spaced frags pat res cur res' cur' :
  searchList frags pat (res, cur) = Some (res', cur') ->
  exists new,
    res' = res ++ new /\
    spaced (len pat) cur new /\
    Forall (fun x => x + len pat <= cur + len (concat frags)) new.
Proof.
  revert res cur. induction frags as [|d frags IH]; intros res cur H.
  - cbn in H. injection H as <- <-. exists []. rewrite app_nil_r.
    split; [reflexivity|]. split; [exact I | constructor].
  - cbn in H.
    destruct (AVL.searchLoop _ d pat 0 cur res) as [res1|] eqn:Es;
      [|discriminate].
    cbn in H. apply searchLoop_spaced in Es as (new1 & -> & Hsp1 & Hb1).
    apply IH in H as (new2 & -> & Hsp2 & Hb2).
    pose proof (len_nonneg d) as Hd. pose proof (len_nonneg pat) as Hp.
    pose proof (len_nonneg (concat frags)) as Hc.
    exists (new1 ++ new2). split; [rewrite app_assoc; reflexivity|].
    cbn [concat]. rewrite len_app. split.
    + apply spaced_app with (hi := cur + len d); [lia | lia | | exact Hb1
                                                   | exact Hsp2].
      eapply spaced_weaken; [|exact Hsp1]. lia.
    + apply Forall_app. split.
      * eapply Forall_impl; [exact Hb1|]. cbn. intros. lia.
      * eapply Forall_impl; [exact Hb2|]. cbn. intros. lia.
Qed.

(** X3.  The offsets that [findAll] reports are ascending and do not
    overlap: the first is at least 0, each further one is at least a
    pattern length after its predecessor, and every match ends within the
    text. *)
Theorem findAll_matches_do_not_overlap pattern t results :
  AVL.findAll pattern t = Some results ->
  exists text,
    text_of t = Some text /\
    spaced (len pattern) 0 results /\
    Forall (fun pos => pos + len pattern <= len text) results.
Proof.
  unfold AVL.findAll, text_of. intros H.
  destruct (AVL.searchInNode (AVL.fuel_of t) (AVL.nodes t) (AVL.root_ t)
              pattern ([], 0)) as [[res cur]|] eqn:Es; [|discriminate].
  cbn in H. injection H as <-.
  apply searchInNode_inOrder in Es as (frags & Hin & Hs).
  apply searchList_spaced in Hs as (new & Hres & Hsp & Hb). cbn in Hres.
  subst res. exists (concat frags). rewrite Hin. cbn.
  split; [reflexivity|]. split; [exact Hsp | exact Hb].
Qed.

Lemma findAll_matches_do_not_overlap_witness :
  exists text,
    text_of tree_hello_world = Some text /\
    spaced 1 0 [2; 3; 9] /\
    Forall (fun pos => pos + 1 <= len text) [2; 3; 9].
Proof.
  apply (findAll_matches_do_not_overlap (str "l") tree_hello_world [2; 3; 9]).
  reflexivity.
Defined.

(** ** The history of a tree *)

Lemma saveState_undo_length t :
  (length (AVL.undoStack_ (AVL.saveState t)) <= 50)%nat \/
  (length (AVL.undoStack_ (AVL.saveState t)) <= length (AVL.undoStack_ t))%nat.
Proof.
  unfold AVL.saveState. cbn [AVL.undoStack_].
  destruct (AVL.root_ t) as [p|]; [|right; lia].
  cbn [length]. destruct (50 <? S (length (AVL.undoStack_ t)))%nat eqn:E.
  - right. rewrite length_rev, length_take. cbn [length]. lia.
  - apply Nat.ltb_ge in E. left. cbn [length]. lia.
Qed.

Lemma history_bounded_saveState t :
  history_bounded t -> history_bounded (AVL.saveState t).
Proof.
  unfold history_bounded. intros H.
  destruct (saveState_undo_length t) as [Hl|Hl];
    unfold AVL.saveState in *; cbn in *; lia.
Qed.

Lemma history_bounded_insert position text t t' :
  history_bounded t -> AVL.insert position text t = Some t' ->
  history_bounded t'.
Proof.
  intros Hb H. unfold AVL.insert in H.
  destruct text as [|c text]; [injection H as <-; exact Hb|].
  destruct (AVL.insertHelper _ _ _ _ _) as [[r h]|]; [|discriminate].
  cbn in H. injection H as <-.
  apply history_bounded_saveState in Hb. exact Hb.
Qed.

Lemma history_bounded_erase position length t t' :
  history_bounded t -> AVL.erase position length t = Some t' ->
  history_bounded t'.
Proof.
  intros Hb H. unfold AVL.erase in H.
  destruct (length <=? 0); [injection H as <-; exact Hb|].
  destruct (AVL.eraseHelper _ _ _ _ _) as [[r h]|]; [|discriminate].
  cbn in H. injection H as <-.
  apply history_bounded_saveState in Hb. exact Hb.
Qed.

(** X4.  The history of a tree is bounded: in every state reached from the
    empty tree by [insert], [erase], [saveState], [undo], [redo],
    [clearHistory] and [loadFromFile], the undo and the redo stack hold at
    most 50 snapshots together. *)
Theorem history_holds_at_most_50_snapshots t :
  tree_reachable t ->
  (length (AVL.undoStack_ t) + length (AVL.redoStack_ t) <= 50)%nat.
Proof.
  change (tree_reachable t -> history_bounded t).
  induction 1 as [|position text t t' _ IH H|position length t t' _ IH H
                  |t _ IH|t _ IH|t _ IH|t _ IH|content t t' _ IH H].
  - unfold history_bounded. cbn. lia.
  - eapply history_bounded_insert; eassumption.
  - eapply history_bounded_erase; eassumption.
  - apply history_bounded_saveState, IH.
  - unfold history_bounded, AVL.undo in *.
    destruct (AVL.undoStack_ t) as [|top rest] eqn:E; cbn in *;
      [rewrite E; cbn|]; lia.
  - unfold history_bounded, AVL.redo in *.
    destruct (AVL.redoStack_ t) as [|top rest] eqn:E; cbn in *;
      [rewrite E; cbn|]; lia.
  - unfold history_bounded. cbn. lia.
  - unfold AVL.loadContent in H. destruct content as [|c content].
    + injection H as <-. unfold history_bounded. cbn. lia.
    + eapply history_bounded_insert; [|exact H].
      unfold history_bounded. cbn. lia.
Qed.

Lemma history_holds_at_most_50_snapshots_witness :
  (length (AVL.undoStack_ tree_hello_world)
   + length (AVL.redoStack_ tree_hello_world) <= 50)%nat.
Proof.
  apply (history_holds_at_most_50_snapshots tree_hello_world).
  apply (tree_insert 0 (str "Hello ")
           (default AVL.empty (AVL.insert 0 (str "World") AVL.empty)));
    [|reflexivity].
  apply (tree_insert 0 (str "World") AVL.empty); [|reflexivity].
  apply tree_empty.
Defined.

(** X5.  [redo] takes back a successful [undo] and [undo] takes back a
    successful [redo]: the root pointer and both stacks are again what they
    were, and on an empty stack either call returns false and changes
    nothing. *)
Theorem undo_and_redo_are_inverse t :
  (AVL.undoStack_ t <> [] ->
   fst (AVL.undo t) = true /\ AVL.redo (snd (AVL.undo t)) = (true, t)) /\
  (AVL.redoStack_ t <> [] ->
   fst (AVL.redo t) = true /\ AVL.undo (snd (AVL.redo t)) = (true, t)) /\
  (AVL.undoStack_ t = [] -> AVL.undo t = (false, t)) /\
  (AVL.redoStack_ t = [] -> AVL.redo t = (false, t)).
Proof.
  destruct t as [h r us rs]. unfold AVL.undo, AVL.redo. cbn.
  split; [|split; [|split]].
  - destruct us; [congruence | split; reflexivity].
  - destruct rs; [congruence | split; reflexivity].
  - intros ->. reflexivity.
  - intros ->. reflexivity.
Qed.

Lemma undo_and_redo_are_inverse_witness :
  AVL.undoStack_ tree_hello_world <> [] /\
  AVL.redo (snd (AVL.undo tree_hello_world)) = (true, tree_hello_world).
Proof.
  assert (H : AVL.undoStack_ tree_hello_world <> []) by (cbn; congruence).
  split; [exact H|].
  apply (proj1 (undo_and_redo_are_inverse tree_hello_world)). exact H.
Defined.

Lemma rev_take_top {A} (l : list A) n :
  (n < length l)%nat ->
  exists q, l !! n = Some q /\ rev (take (S n) l) = q :: rev (take n l).
Proof.
  intros Hn. destruct (lookup_lt_is_Some_2 l n Hn) as [q Hq].
  exists q. split; [exact Hq|].
  rewrite (take_S_r _ _ _ Hq), rev_app_distr. reflexivity.
Qed.

(** X6.  When [saveState] pushes onto a full stack of 50 snapshots, it
    keeps the 26 newest ones but in reverse order: the top of the stack is
    then the snapshot that was 25th from the top, so the next [undo] sets
    the root to that one and not to the state saved last. *)
Theorem saveState_overflow_reverses_history t p :
  AVL.root_ t = Some p ->
  length (AVL.undoStack_ t) = 50%nat ->
  exists q,
    AVL.undoStack_ t !! 24%nat = Some q /\
    AVL.undoStack_ (AVL.saveState t)
    = q :: rev (take 24 (AVL.undoStack_ t)) ++ [Some p] /\
    AVL.root_ (snd (AVL.undo (AVL.saveState t))) = q.
Proof.
  intros Hr Hl.
  destruct (rev_take_top (AVL.undoStack_ t) 24) as (q & Hq & Hrev); [lia|].
  exists q. split; [exact Hq|].
  assert (Hs : AVL.undoStack_ (AVL.saveState t)
               = q :: rev (take 24 (AVL.undoStack_ t)) ++ [Some p]).
  { unfold AVL.saveState. cbn [AVL.undoStack_]. rewrite Hr.
    cbn [length]. rewrite Hl. cbn [Nat.ltb Nat.leb Nat.sub].
    change (take 26 (Some p :: AVL.undoStack_ t))
      with (Some p :: take 25 (AVL.undoStack_ t)).
    cbn [rev]. rewrite Hrev. reflexivity. }
  split; [exact Hs|]. unfold AVL.undo. rewrite Hs. reflexivity.
Qed.

Lemma saveState_overflow_reverses_history_witness :
  exists q,
    AVL.undoStack_ tree_full_history !! 24%nat = Some q /\
    AVL.undoStack_ (AVL.saveState tree_full_history)
    = q :: rev (take 24 (AVL.undoStack_ tree_full_history)) ++ [Some 0%nat] /\
    AVL.root_ (snd (AVL.undo (AVL.saveState tree_full_history))) = q.
Proof.
  apply (saveState_overflow_reverses_history tree_full_history 0%nat);
    reflexivity.
Defined.

Lemma tree_reachable_sizes t : tree_reachable t -> sizes_nonneg (AVL.nodes t).
Proof.
  induction 1 as [|position text t t' _ IH H|position length t t' _ IH H
                  |t _ IH|t _ IH|t _ IH|t _ IH|content t t' _ IH H].
  - constructor.
  - eapply insert_sizes_nonneg; eassumption.
  - eapply erase_sizes_nonneg; eassumption.
  - exact IH.
  - unfold AVL.undo. destruct (AVL.undoStack_ t); exact IH.
  - unfold AVL.redo. destruct (AVL.redoStack_ t); exact IH.
  - exact IH.
  - unfold AVL.loadContent in H. destruct content as [|c content].
    + injection H as <-. exact IH.
    + eapply insert_sizes_nonneg; [|exact H]. exact IH.
Qed.

(** X7.  In every state reached from the empty tree by the public
    operations, [getSize()] is not negative and [moveCursor] returns an
    offset within [0, getSize()], whatever the current offset and the
    displacement are. *)
Theorem moveCursor_stays_in_text t currentPos offset newPos :
  tree_reachable t ->
  AVL.moveCursor currentPos offset t = Some newPos ->
  exists sz, AVL.size_of t = Some sz /\ 0 <= sz /\ 0 <= newPos <= sz.
Proof.
  intros Hr H. apply tree_reachable_sizes in Hr.
  unfold AVL.moveCursor in H.
  destruct (AVL.size_of t) as [sz|] eqn:Esz; [|discriminate].
  cbn in H. injection H as <-.
  pose proof (size_of_nonneg _ _ Hr Esz).
  exists sz. split; [reflexivity|]. lia.
Qed.

Lemma moveCursor_stays_in_text_witness :
  exists sz,
    AVL.size_of tree_hello_world = Some sz /\ 0 <= sz /\ 0 <= 11 <= sz.
Proof.
  apply (moveCursor_stays_in_text tree_hello_world 4 100 11); [|reflexivity].
  apply (tree_insert 0 (str "Hello ")
           (default AVL.empty (AVL.insert 0 (str "World") AVL.empty)));
    [|reflexivity].
  apply (tree_insert 0 (str "World") AVL.empty); [|reflexivity].
  apply tree_empty.
Defined.

(** ** Lines *)

Lemma rfind_char_spec c s :
  match AVL.rfind_char c s with
  | Some i => s !! i = Some c /\ forall j, (i < j)%nat -> s !! j <> Some c
  | None => forall j, s !! j <> Some c
  end.
Proof.
  induction s as [|x s IH]; cbn; [intros j; destruct j; discriminate|].
  destruct (AVL.rfind_char c s) as [i|].
  - destruct IH as [Hi Hj]. split; [exact Hi|].
    intros [|j] Hlt; [lia|]. cbn. apply Hj. lia.
  - destruct (ascii_eqb x c) eqn:E.
    + apply ascii_eqb_eq in E as ->. split; [reflexivity|].
      intros [|j] Hlt; [lia|]. cbn. apply IH.
    + intros [|j]; cbn; [|apply IH].
      intros [= ->]. unfold ascii_eqb in E. rewrite Ascii.eqb_refl in E.
      discriminate.
Qed.

Lemma find_char_spec c s :
  match AVL.find_char c s with
  | Some i => s !! i = Some c /\ forall j, (j < i)%nat -> s !! j <> Some c
  | None => forall j, s !! j <> Some c
  end.
Proof.
  induction s as [|x s IH]; cbn; [intros j; destruct j; discriminate|].
  destruct (ascii_eqb x c) eqn:E.
  - apply ascii_eqb_eq in E as ->. split; [reflexivity|]. intros j Hj. lia.
  - assert (Hx : x <> c).
    { intros ->. unfold ascii_eqb in E. rewrite Ascii.eqb_refl in E.
      discriminate. }
    destruct (AVL.find_char c s) as [i|]; cbn.
    + destruct IH as [Hi Hj]. split; [exact Hi|].
      intros [|j] Hlt; cbn; [congruence | apply Hj; lia].
    + intros [|j]; cbn; [congruence | apply IH].
Qed.

Lemma count_char_nonneg c s : 0 <= AVL.count_char c s.
Proof.
  induction s as [|x s IH]; cbn; [lia|]. destruct (ascii_eqb x c); lia.
Qed.

(** X8.  [getLineStart(position)], for [position >= 0], is an offset in
    [0, position] that is 0 or follows a newline, with no newline between
    it and [position]; so [getColumnNumber(position)] is not negative, and
    [getLineNumber(position)] is at least 1. *)
Theorem getLineStart_is_start_of_line t text position :
  text_of t = Some text ->
  0 <= position ->
  exists s,
    AVL.getLineStart position t = Some s /\
    0 <= s <= position /\
    (s = 0 \/ text !! Z.to_nat (s - 1) = Some AVL.newline) /\
    (forall i, s <= i < position -> text !! Z.to_nat i <> Some AVL.newline) /\
    AVL.getColumnNumber position t = Some (position - s) /\
    exists n, AVL.getLineNumber position t = Some n /\ 1 <= n.
Proof.
  intros Ht Hpos.
  assert (Hg : AVL.getText 0 position t = Some (take (Z.to_nat position) text)).
  { rewrite (getText_text_of _ _ _ _ Ht). f_equal. unfold slice.
    rewrite Z.sub_0_r. change (Z.to_nat 0) with 0%nat. rewrite drop_0.
    f_equal; lia. }
  unfold AVL.getColumnNumber, AVL.getLineNumber, AVL.getLineStart.
  rewrite Hg. cbn.
  pose proof (rfind_char_spec AVL.newline (take (Z.to_nat position) text))
    as Hspec.
  pose proof (count_char_nonneg AVL.newline (take (Z.to_nat position) text)).
  destruct (AVL.rfind_char AVL.newline (take (Z.to_nat position) text))
    as [i|].
  - destruct Hspec as [Hi Hj].
    assert (Hlt : (i < Z.to_nat position)%nat).
    { apply lookup_lt_Some in Hi. rewrite length_take in Hi. lia. }
    exists (Z.of_nat i + 1). split; [reflexivity|]. split; [lia|].
    split; [|split; [|split]].
    + right. replace (Z.to_nat (Z.of_nat i + 1 - 1)) with i by lia.
      rewrite lookup_take_lt in Hi by lia. exact Hi.
    + intros j Hjr Hnl. apply (Hj (Z.to_nat j)); [lia|].
      rewrite lookup_take_lt by lia. exact Hnl.
    + reflexivity.
    + eexists. split; [reflexivity | lia].
  - exists 0. split; [reflexivity|]. split; [lia|].
    split; [|split; [|split]].
    + left. reflexivity.
    + intros j Hjr Hnl. apply (Hspec (Z.to_nat j)).
      rewrite lookup_take_lt by lia. exact Hnl.
    + reflexivity.
    + eexists. split; [reflexivity | lia].
Qed.

Lemma getLineStart_is_start_of_line_witness :
  text_of tree_lines
  = Some (str "ab" ++ [AVL.newline] ++ str "cd" ++ [AVL.newline] ++ str "e")
  /\ AVL.getLineStart 5 tree_lines = Some 3.
Proof.
  split; [reflexivity|].
  destruct (getLineStart_is_start_of_line tree_lines
              (str "ab" ++ [AVL.newline] ++ str "cd" ++ [AVL.newline]
                 ++ str "e") 5) as (s & Hs & _); [reflexivity | lia |].
  rewrite Hs. f_equal.
  assert (E : AVL.getLineStart 5 tree_lines = Some 3) by reflexivity.
  congruence.
Defined.

(** X9.  On a tree that passes [validate()], [getLineEnd(position)], for
    [0 <= position <= getSize()], is an offset in [position, getSize()]
    that is the end of the text or the offset of a newline, with no newline
    between [position] and it. *)
Theorem getLineEnd_is_end_of_line t text position :
  AVL.validate t = Some true ->
  text_of t = Some text ->
  0 <= position <= len text ->
  exists e,
    AVL.getLineEnd position t = Some e /\
    position <= e <= len text /\
    (e = len text \/ text !! Z.to_nat e = Some AVL.newline) /\
    (forall i, position <= i < e -> text !! Z.to_nat i <> Some AVL.newline).
Proof.
  intros Hv Ht Hpos. apply validate_text in Hv as (text' & Ht' & Hsz).
  rewrite Ht in Ht'. injection Ht' as <-.
  assert (Hg : AVL.getText position (len text - position) t
               = Some (drop (Z.to_nat position) text)).
  { rewrite (getText_text_of _ _ _ _ Ht). f_equal. unfold slice.
    rewrite Z.sub_0_r. apply take_ge. rewrite length_drop. unfold len in *.
    lia. }
  unfold AVL.getLineEnd. rewrite Hsz. cbn. rewrite Hg. cbn.
  pose proof (find_char_spec AVL.newline (drop (Z.to_nat position) text))
    as Hspec.
  destruct (AVL.find_char AVL.newline (drop (Z.to_nat position) text))
    as [i|].
  - destruct Hspec as [Hi Hj]. rewrite lookup_drop in Hi.
    pose proof (lookup_lt_Some _ _ _ Hi) as Hlt.
    exists (position + Z.of_nat i). split; [reflexivity|].
    split; [unfold len in *; lia|]. split.
    + right. replace (Z.to_nat (position + Z.of_nat i))
        with (Z.to_nat position + i)%nat by lia. exact Hi.
    + intros j Hjr Hnl.
      apply (Hj (Z.to_nat j - Z.to_nat position)%nat); [lia|].
      rewrite lookup_drop.
      replace (Z.to_nat position + (Z.to_nat j - Z.to_nat position))%nat
        with (Z.to_nat j) by lia.
      exact Hnl.
  - exists (len text). split; [reflexivity|]. split; [lia|]. split.
    + left. reflexivity.
    + intros j Hjr Hnl.
      apply (Hspec (Z.to_nat j - Z.to_nat position)%nat).
      rewrite lookup_drop.
      replace (Z.to_nat position + (Z.to_nat j - Z.to_nat position))%nat
        with (Z.to_nat j) by lia.
      exact Hnl.
Qed.

Lemma getLineEnd_is_end_of_line_witness :
  AVL.validate tree_lines = Some true /\
  exists e, AVL.getLineEnd 3 tree_lines = Some e /\ 3 <= e <= 7.
Proof.
  split; [reflexivity|].
  destruct (getLineEnd_is_end_of_line tree_lines
              (str "ab" ++ [AVL.newline] ++ str "cd" ++ [AVL.newline]
                 ++ str "e") 3) as (e & He & Hr & _);
    [reflexivity | reflexivity | change (0 <= 3 <= 7); lia |].
  exists e. split; [exact He|]. exact Hr.
Defined.

(** ** The document list of an editor session *)

Lemma shape_set_content c e : shape (Editor.set_content c e) = shape e.
Proof.
  unfold Editor.set_content. destruct (Editor.getCurrentDocument e);
    [|reflexivity].
  unfold shape. cbn. rewrite length_insert. reflexivity.
Qed.

Lemma shape_mark e : shape (Editor.markDocumentModified e) = shape e.
Proof.
  unfold Editor.markDocumentModified. destruct (Editor.getCurrentDocument e);
    [|reflexivity].
  unfold shape. cbn. rewrite length_insert. reflexivity.
Qed.

Lemma shape_normalizeSelection e :
  shape (Editor.normalizeSelection e) = shape e.
Proof.
  unfold Editor.normalizeSelection. destruct (_ <? _); reflexivity.
Qed.

Lemma shape_set_cursor c e : shape (Editor.set_cursor c e) = shape e.
Proof. reflexivity. Qed.

Lemma shape_set_selection s t b e :
  shape (Editor.set_selection s t b e) = shape e.
Proof. reflexivity. Qed.

Lemma shape_set_clipboard c e : shape (Editor.set_clipboard c e) = shape e.
Proof. reflexivity. Qed.

Lemma shape_clearSelection e : shape (Editor.clearSelection e) = shape e.
Proof. reflexivity. Qed.

Ltac shape_simpl :=
  repeat first
    [ rewrite shape_mark | rewrite shape_set_content
    | rewrite shape_normalizeSelection | rewrite shape_set_cursor
    | rewrite shape_set_selection | rewrite shape_set_clipboard
    | rewrite shape_clearSelection ];
  try reflexivity.

(** Takes apart an equation [op e = Some e'] along the tests and the
    failing steps of [op]. *)
Ltac shape_inv H :=
  repeat match type of H with
         | Some _ = Some _ => injection H as <-
         | None = Some _ => discriminate H
         | context [?m ≫= _] => destruct m; cbn [mbind option_bind] in H
         | context [if ?b then _ else _] => destruct b
         | context [match ?x with _ => _ end] => destruct x
         end.

Lemma shape_ensureValid e e' :
  Editor.ensureValidCursorPosition e = Some e' -> shape e' = shape e.
Proof.
  unfold Editor.ensureValidCursorPosition. intros H. shape_inv H; shape_simpl.
Qed.

Lemma shape_deleteSelection e e' :
  Editor.deleteSelection e = Some e' -> shape e' = shape e.
Proof.
  unfold Editor.deleteSelection. intros H. shape_inv H; shape_simpl.
Qed.

Lemma shape_insertText text e e' :
  Editor.insertText text e = Some e' -> shape e' = shape e.
Proof.
  unfold Editor.insertText. intros H.
  destruct (Editor.getCurrentDocument e); [|injection H as <-; reflexivity].
  destruct (if Editor.hasSelection e then Editor.deleteSelection e else Some e)
    as [e1|] eqn:E1; [|discriminate].
  assert (H1 : shape e1 = shape e).
  { destruct (Editor.hasSelection e);
      [apply shape_deleteSelection, E1 | injection E1 as <-; reflexivity]. }
  cbn in H. shape_inv H; shape_simpl; exact H1.
Qed.

Lemma shape_deleteText length e e' :
  Editor.deleteText length e = Some e' -> shape e' = shape e.
Proof.
  unfold Editor.deleteText. intros H.
  destruct (Editor.getCurrentDocument e); [|injection H as <-; reflexivity].
  destruct (Editor.hasSelection e); [apply shape_deleteSelection, H|].
  shape_inv H; shape_simpl.
Qed.

Lemma shape_backspace length e e' :
  Editor.backspace length e = Some e' -> shape e' = shape e.
Proof.
  unfold Editor.backspace. intros H.
  destruct (Editor.getCurrentDocument e); [|injection H as <-; reflexivity].
  destruct (Editor.hasSelection e); [apply shape_deleteSelection, H|].
  cbv zeta in H. shape_inv H; shape_simpl.
Qed.

Lemma shape_moveCursor offset e e' :
  Editor.moveCursor offset e = Some e' -> shape e' = shape e.
Proof.
  unfold Editor.moveCursor. intros H.
  destruct (Editor.getCurrentDocument e); [|injection H as <-; reflexivity].
  destruct (AVL.moveCursor _ _ _); [|discriminate]. cbn in H.
  apply shape_ensureValid in H. rewrite H. reflexivity.
Qed.

Lemma shape_moveCursorTo position e e' :
  Editor.moveCursorTo position e = Some e' -> shape e' = shape e.
Proof.
  unfold Editor.moveCursorTo. intros H.
  destruct (Editor.getCurrentDocument e); [|injection H as <-; reflexivity].
  destruct (AVL.size_of _); [|discriminate]. cbn in H.
  apply shape_ensureValid in H. rewrite H. reflexivity.
Qed.

Lemma shape_history e c e' :
  Editor.ensureValidCursorPosition
    (Editor.markDocumentModified (Editor.set_content c e)) = Some e' ->
  shape e' = shape e.
Proof.
  intros H. apply shape_ensureValid in H. rewrite H. shape_simpl.
Qed.

Lemma shape_saveDocument ok e :
  shape (snd (Editor.saveDocument ok e)) = shape e.
Proof.
  unfold Editor.saveDocument.
  destruct (Editor.getCurrentDocument e); [|reflexivity].
  destruct ok; [|reflexivity].
  unfold shape. cbn. rewrite length_insert. reflexivity.
Qed.

Lemma shape_saveAsDocument name ok e :
  shape (snd (Editor.saveAsDocument name ok e)) = shape e.
Proof.
  unfold Editor.saveAsDocument.
  destruct (Editor.getCurrentDocument e); [|reflexivity].
  rewrite shape_saveDocument.
  unfold shape. cbn. rewrite length_insert. reflexivity.
Qed.

(** Every command but those on the document list leaves the number of
    documents and the current index as they are. *)
Lemma shape_run c e e' :
  Editor.run c e = Some e' ->
  match c with
  | Editor.NewDocument | Editor.SwitchToDocument _ | Editor.CloseDocument _
  | Editor.OpenDocument _ _ | Editor.LoadCompressedFile _ _
  | Editor.LoadEncryptedFile _ _ _ =>
      True
  | _ => shape e' = shape e
  end.
Proof.
  intros H. destruct c; cbn [Editor.run] in H;
    try first [ exact (shape_insertText _ _ _ H)
              | exact (shape_deleteText _ _ _ H)
              | exact (shape_backspace _ _ _ H)
              | exact (shape_moveCursor _ _ _ H)
              | exact (shape_moveCursorTo _ _ _ H)
              | exact (shape_deleteSelection _ _ H)
              | exact I ].
  - injection H as <-. reflexivity.
  - unfold Editor.moveCursorToDocumentEnd in H. shape_inv H; shape_simpl.
  - unfold Editor.moveCursorLeft in H.
    destruct (0 <? _); [exact (shape_moveCursor _ _ _ H)|].
    injection H as <-. reflexivity.
  - unfold Editor.moveCursorRight in H.
    destruct (Editor.getCurrentDocument e); [|injection H as <-; reflexivity].
    destruct (AVL.size_of _); [|discriminate]. cbn in H.
    destruct (_ <? _); [exact (shape_moveCursor _ _ _ H)|].
    injection H as <-. reflexivity.
  - injection H as <-. reflexivity.
  - injection H as <-. unfold Editor.endSelection.
    destruct (Editor.isSelecting_ e); shape_simpl.
  - injection H as <-. reflexivity.
  - unfold Editor.selectWord in H. shape_inv H; shape_simpl.
  - unfold Editor.copy in H. shape_inv H; shape_simpl.
  - unfold Editor.cut in H.
    destruct (Editor.copy e) as [e1|] eqn:E; [|discriminate]. cbn in H.
    apply shape_deleteSelection in H. rewrite H.
    unfold Editor.copy in E. shape_inv E; shape_simpl.
  - unfold Editor.paste in H.
    destruct (Editor.clipboard_ e); [injection H as <-; reflexivity|].
    exact (shape_insertText _ _ _ H).
  - unfold Editor.undo in H.
    destruct (Editor.getCurrentDocument e); [|injection H as <-; reflexivity].
    destruct (AVL.undo _) as [[|] c];
      [exact (shape_history _ _ _ H) | injection H as <-; reflexivity].
  - unfold Editor.redo in H.
    destruct (Editor.getCurrentDocument e); [|injection H as <-; reflexivity].
    destruct (AVL.redo _) as [[|] c];
      [exact (shape_history _ _ _ H) | injection H as <-; reflexivity].
  - unfold Editor.moveCursorToLineStart in H. shape_inv H; shape_simpl.
  - unfold Editor.moveCursorToLineEnd in H. shape_inv H; shape_simpl.
  - unfold Editor.selectLine in H. shape_inv H; shape_simpl.
  - unfold Editor.replaceText in H.
    destruct (Editor.getCurrentDocument e); [|injection H as <-; reflexivity].
    destruct (Editor.findText pattern false e); [|discriminate]. cbn in H.
    destruct (if all then _ else _); [|discriminate]. cbn in H.
    injection H as <-. shape_simpl.
  - unfold Editor.replaceRegex in H.
    destruct (Editor.getCurrentDocument e); [|injection H as <-; reflexivity].
    destruct (if all then _ else _); [|discriminate]. cbn in H.
    injection H as <-. shape_simpl.
  - injection H as <-. apply shape_saveDocument.
  - injection H as <-. apply shape_saveAsDocument.
  - injection H as <-. apply shape_saveAsDocument.
  - injection H as <-. apply shape_saveAsDocument.
Qed.

Lemma doc_valid_newDocument e : doc_valid (Editor.newDocument e).
Proof.
  unfold doc_valid, shape, Editor.newDocument. cbn.
  rewrite length_app. cbn. lia.
Qed.

Lemma doc_valid_closeDocument index e :
  doc_valid e -> doc_valid (snd (Editor.closeDocument index e)).
Proof.
  intros Hv. unfold Editor.closeDocument.
  destruct (negb (Editor.isValidDocumentIndex index e)) eqn:E; [exact Hv|].
  cbn [snd]. unfold doc_valid.
  rewrite shape_clearSelection, shape_set_cursor.
  apply negb_false_iff in E. unfold Editor.isValidDocumentIndex in E.
  apply andb_true_iff in E as [E1 E2].
  apply Z.leb_le in E1. apply Z.ltb_lt in E2.
  set (e1 := Editor.set_documents _ e).
  assert (Hl : length (Editor.documents_ e1)
               = (length (Editor.documents_ e) - 1)%nat).
  { unfold e1. cbn. apply length_delete, lookup_lt_is_Some_2. lia. }
  assert (Hi : Editor.currentDocumentIndex_ e1
               = Editor.currentDocumentIndex_ e) by reflexivity.
  unfold doc_valid, shape in Hv. cbn [fst snd] in Hv.
  set (e2 := if _ <=? _ then _ else e1).
  assert (Hl2 : length (Editor.documents_ e2) = length (Editor.documents_ e1)).
  { unfold e2. destruct (_ <=? _); reflexivity. }
  assert (Hv2 : Editor.documents_ e2 <> [] ->
                0 <= Editor.currentDocumentIndex_ e2
                < Z.of_nat (length (Editor.documents_ e2))).
  { intros Hne.
    assert (0 < length (Editor.documents_ e2))%nat
      by (destruct (Editor.documents_ e2); [congruence | cbn; lia]).
    unfold e2 in *. destruct (_ <=? _) eqn:E3.
    - cbn [Editor.set_index Editor.currentDocumentIndex_ Editor.documents_]
        in *. lia.
    - apply Z.leb_gt in E3. lia. }
  destruct (Editor.documents_ e2) eqn:Ed.
  - apply doc_valid_newDocument.
  - unfold shape. cbn [fst snd]. rewrite Ed. apply Hv2. congruence.
Qed.

Lemma doc_valid_openDocument name file e r :
  doc_valid e -> Editor.openDocument name file e = Some r ->
  doc_valid (snd r).
Proof.
  intros Hv H. unfold Editor.openDocument in H.
  destruct file as [fileContent|]; [|injection H as <-; exact Hv].
  destruct (AVL.loadContent fileContent AVL.empty) as [c|]; [|discriminate].
  cbn in H. injection H as <-.
  unfold doc_valid, shape. cbn. rewrite length_app. cbn. lia.
Qed.

Lemma doc_valid_run c e e' :
  doc_valid e -> Editor.run c e = Some e' -> doc_valid e'.
Proof.
  intros Hv H. pose proof (shape_run _ _ _ H) as Hs.
  destruct c; try (unfold doc_valid; rewrite Hs; exact Hv);
    cbn [Editor.run] in H.
  - injection H as <-. apply doc_valid_newDocument.
  - injection H as <-. unfold Editor.switchToDocument.
    destruct (Editor.isValidDocumentIndex index e) eqn:E; [|exact Hv].
    unfold Editor.isValidDocumentIndex in E.
    apply andb_true_iff in E as [E1 E2].
    apply Z.leb_le in E1. apply Z.ltb_lt in E2.
    unfold doc_valid, shape. cbn. lia.
  - injection H as <-. apply doc_valid_closeDocument, Hv.
  - destruct (Editor.openDocument name file e) as [r|] eqn:E; [|discriminate].
    injection H as <-. exact (doc_valid_openDocument _ _ _ _ Hv E).
  - destruct (Editor.loadCompressedFile name file e) as [r|] eqn:E;
      [|discriminate].
    injection H as <-. exact (doc_valid_openDocument _ _ _ _ Hv E).
  - destruct (Editor.loadEncryptedFile name password file e) as [r|] eqn:E;
      [|discriminate].
    injection H as <-. exact (doc_valid_openDocument _ _ _ _ Hv E).
Qed.

Lemma doc_valid_current e :
  doc_valid e -> is_Some (Editor.getCurrentDocument e).
Proof.
  unfold doc_valid, shape, Editor.getCurrentDocument,
    Editor.isValidDocumentIndex. cbn [fst snd]. intros Hv.
  replace (0 <=? Editor.currentDocumentIndex_ e) with true
    by (symmetry; apply Z.leb_le; lia).
  replace (Editor.currentDocumentIndex_ e
           <? Z.of_nat (length (Editor.documents_ e))) with true
    by (symmetry; apply Z.ltb_lt; lia).
  cbn. apply lookup_lt_is_Some_2. lia.
Qed.

(** X10.  An editor session always has a current document: in every state
    reached from a fresh editor by a sequence of its public operations
    (closing and opening documents included), the document list is not
    empty and the current index points into it, so [getCurrentDocument()]
    is never null. *)
Theorem session_always_has_a_document e :
  reachable e ->
  Editor.documents_ e <> [] /\
  0 <= Editor.currentDocumentIndex_ e
  < Z.of_nat (length (Editor.documents_ e)) /\
  is_Some (Editor.getCurrentDocument e).
Proof.
  intros Hr.
  assert (Hv : doc_valid e).
  { induction Hr as [|c e e' _ IH H|fuel e e' _ IH H|fuel e e' _ IH H
                     |fuel line e e' _ IH H].
    - apply doc_valid_newDocument.
    - exact (doc_valid_run _ _ _ IH H).
    - apply moveCursorUp_returns_same in H as ->. exact IH.
    - apply moveCursorDown_returns_same in H as ->. exact IH.
    - apply moveCursorToLine_returns_same in H as ->. exact IH. }
  split; [|split; [exact Hv | apply doc_valid_current, Hv]].
  unfold doc_valid, shape in Hv. cbn [fst snd] in Hv.
  destruct (Editor.documents_ e); [cbn in Hv; lia | congruence].
Qed.

Lemma session_always_has_a_document_witness :
  Editor.documents_ (snd (Editor.closeDocument 0 Editor.init)) <> [] /\
  0 <= Editor.currentDocumentIndex_ (snd (Editor.closeDocument 0 Editor.init))
  < Z.of_nat (length (Editor.documents_
                        (snd (Editor.closeDocument 0 Editor.init)))) /\
  is_Some (Editor.getCurrentDocument
             (snd (Editor.closeDocument 0 Editor.init))).
Proof.
  apply (session_always_has_a_document
           (snd (Editor.closeDocument 0 Editor.init))).
  apply (reach_step (Editor.CloseDocument 0) Editor.init); [|reflexivity].
  apply reach_init.
Defined.

(** ** Moving the cursor by lines: what the calls do *)

(** X11.  [moveCursorUp], [moveCursorDown] and [moveCursorToLine] never
    move the cursor.  With the cursor below the first line [moveCursorUp]
    does not return, and with the cursor above the last line
    [moveCursorDown] does not: each calls [moveCursorToLine] for the
    neighbouring line, which calls it back with nothing changed, at every
    depth.  Whenever one of the three returns, the editor is exactly as it
    was before the call. *)
Theorem line_moves_never_move_the_cursor fuel e :
  (forall l, Editor.getCurrentLine e = Some l -> 1 < l ->
             Editor.moveCursorUp fuel e = None) /\
  (forall l n, Editor.getCurrentLine e = Some l ->
               Editor.getLineCount e = Some n -> l < n ->
               Editor.moveCursorDown fuel e = None) /\
  (forall e', Editor.moveCursorUp fuel e = Some e' -> e' = e) /\
  (forall e', Editor.moveCursorDown fuel e = Some e' -> e' = e) /\
  (forall line e', Editor.moveCursorToLine fuel line e = Some e' -> e' = e).
Proof.
  split; [|split; [|split; [|split]]].
  - intros l Hl H. destruct (line_moves_stuck fuel e l Hl) as [Hu _].
    apply (Hu H).
  - intros l n Hl Hn H. destruct (line_moves_stuck fuel e l Hl) as [_ Hd].
    apply (Hd n Hn H).
  - intros e'. apply moveCursorUp_returns_same.
  - intros e'. apply moveCursorDown_returns_same.
  - intros line e'. apply moveCursorToLine_returns_same.
Qed.

Lemma line_moves_never_move_the_cursor_witness :
  Editor.getCurrentLine ed_two_lines = Some 2 /\
  Editor.moveCursorUp 100 ed_two_lines = None /\
  Editor.moveCursorDown 100 ed_two_lines = Some ed_two_lines.
Proof.
  split; [reflexivity|]. split.
  - apply (proj1 (line_moves_never_move_the_cursor 100 ed_two_lines) 2);
      [reflexivity | lia].
  - assert (E : exists e', Editor.moveCursorDown 100 ed_two_lines = Some e')
      by (eexists; reflexivity).
    destruct E as [e' E]. rewrite E. f_equal.
    apply (proj1 (proj2 (proj2 (proj2
             (line_moves_never_move_the_cursor 100 ed_two_lines)))) e' E).
Defined.

(** ** The search engine *)

(** A window of the text that agrees with the pattern character by
    character is an occurrence of the pattern. *)
Lemma chars_occurs text pattern i :
  0 <= i -> i + len pattern <= len text ->
  (forall j, 0 <= j < len pattern ->
             char_at text (i + j) = char_at pattern j) ->
  occurs_at text pattern i.
Proof.
  intros Hi Hb Hc. split; [exact Hi|]. unfold len in *.
  apply (nth_ext _ _ zero zero).
  - rewrite length_take, length_drop. lia.
  - intros k Hk. rewrite length_take, length_drop in Hk.
    rewrite nth_firstn.
    replace (k <? length pattern)%nat with true
      by (symmetry; apply Nat.ltb_lt; lia).
    rewrite nth_skipn. specialize (Hc (Z.of_nat k)).
    unfold char_at in Hc.
    replace (Z.to_nat (i + Z.of_nat k)) with (Z.to_nat i + k)%nat in Hc by lia.
    rewrite Nat2Z.id in Hc. apply Hc. lia.
Qed.

Lemma matchBackwards_le n text pattern shift j :
  Search.matchBackwards n text pattern shift j <= j.
Proof.
  revert j. induction n as [|n IH]; intros j; cbn; [lia|].
  destruct ((0 <=? j) && _); [|lia]. specialize (IH (j - 1)). lia.
Qed.

Lemma matchBackwards_all n text pattern shift j :
  j < Z.of_nat n ->
  Search.matchBackwards n text pattern shift j < 0 ->
  forall k, 0 <= k <= j -> char_at pattern k = char_at text (shift + k).
Proof.
  revert j. induction n as [|n IH]; intros j Hj H k Hk; cbn in H; [lia|].
  destruct (0 <=? j) eqn:E0; cbn [andb] in H; [|apply Z.leb_gt in E0; lia].
  destruct (ascii_eqb (char_at pattern j) (char_at text (shift + j))) eqn:E;
    [|lia].
  apply ascii_eqb_eq in E.
  destruct (Z.eq_dec k j) as [->|Hne]; [exact E|].
  apply (IH (j - 1)); [lia | exact H | lia].
Qed.

Lemma badCharLoop_bound n pattern i table :
  0 <= i ->
  (forall c, Search.tget table c <= len pattern - 1) ->
  forall c, Search.tget (Search.badCharLoop n pattern i table) c
            <= len pattern - 1.
Proof.
  revert i table. induction n as [|n IH]; intros i table Hi Ht c; cbn;
    [apply Ht|].
  apply IH; [lia|]. intros c'. unfold Search.tset. cbn.
  destruct (ascii_eqb _ c'); [lia | apply Ht].
Qed.

Lemma buildBadCharTable_bound pattern c :
  pattern <> [] ->
  Search.tget (Search.buildBadCharTable pattern) c <= len pattern - 1.
Proof.
  intros Hp. unfold Search.buildBadCharTable.
  apply badCharLoop_bound; [lia|]. intros c'. cbn.
  destruct pattern; [congruence|]. unfold len. cbn [length]. lia.
Qed.

Lemma vget_replicate n (x : Z) j :
  0 <= j < Z.of_nat n -> Search.vget (replicate n x) j = x.
Proof.
  intros Hj. unfold Search.vget.
  rewrite (nth_lookup_Some _ _ _ x); [reflexivity|].
  apply lookup_replicate_2. lia.
Qed.

(** The main loop of [boyerMooreSearch] moves the window forward at each
    turn, so it finishes within one turn for each window position, and it
    reports only windows that agree with the pattern. *)
Lemma bmLoop_spec text pattern bc :
  pattern <> [] ->
  (forall c, Search.tget bc c <= len pattern - 1) ->
  forall fuel shift result,
    0 <= shift ->
    len text - len pattern - shift + 1 < Z.of_nat fuel ->
    (0 < fuel)%nat ->
    exists new,
      Search.bmLoop fuel text pattern bc
        (Search.buildGoodSuffixTable pattern) shift result
      = Some (result ++ new) /\
      spaced 1 shift new /\
      Forall (occurs_at text pattern) new.
Proof.
  intros Hp Hbc.
  assert (Hm : 1 <= len pattern)
    by (destruct pattern; [congruence | unfold len; cbn [length]; lia]).
  induction fuel as [|fuel IH]; intros shift result Hs Hf Hf0; [lia|].
  cbn [Search.bmLoop]. cbv zeta.
  destruct (shift <=? len text - len pattern) eqn:E.
  2:{ exists []. rewrite app_nil_r. split; [reflexivity|].
      split; [exact I | constructor]. }
  apply Z.leb_le in E.
  set (j := Search.matchBackwards _ text pattern shift (len pattern - 1)).
  pose proof (matchBackwards_le (S (length pattern)) text pattern shift
                (len pattern - 1)) as Hjle.
  fold j in Hjle.
  destruct (j <? 0) eqn:Ej.
  - apply Z.ltb_lt in Ej.
    set (step := if shift + len pattern <? len text
                 then len pattern
                      - Search.tget bc (char_at text (shift + len pattern))
                 else 1).
    assert (Hstep : 1 <= step).
    { unfold step. destruct (_ <? _); [|lia].
      specialize (Hbc (char_at text (shift + len pattern))). lia. }
    destruct (IH (shift + step) (result ++ [shift])) as (new & Hnew & Hsp & Ho);
      [lia | lia | lia |].
    exists (shift :: new). rewrite Hnew, <- app_assoc. split; [reflexivity|].
    split.
    + cbn. split; [lia|]. eapply spaced_weaken; [|exact Hsp]. lia.
    + constructor; [|exact Ho].
      apply chars_occurs; [exact Hs | lia |].
      intros k Hk. symmetry.
      apply (matchBackwards_all (S (length pattern)) text pattern shift
               (len pattern - 1)); [unfold len; lia | exact Ej | lia].
  - apply Z.ltb_ge in Ej.
    set (step := Z.max _ _).
    assert (Hstep : 1 <= step).
    { unfold step, Search.buildGoodSuffixTable.
      rewrite vget_replicate by (unfold len in *; lia). lia. }
    destruct (IH (shift + step) result) as (new & Hnew & Hsp & Ho);
      [lia | lia | lia |].
    exists new. split; [exact Hnew|]. split; [|exact Ho].
    eapply spaced_weaken; [|exact Hsp]. lia.
Qed.

(** X12.  [boyerMooreSearch] always returns, and what it returns is a
    strictly ascending list of offsets at each of which the pattern occurs
    in the text. *)
Theorem boyerMooreSearch_reports_only_matches text pattern :
  exists results,
    Search.boyerMooreSearch text pattern = Some results /\
    spaced 1 0 results /\
    Forall (occurs_at text pattern) results.
Proof.
  unfold Search.boyerMooreSearch.
  destruct pattern as [|c p'] eqn:Ep.
  { exists []. split; [reflexivity|]. split; [exact I | constructor]. }
  rewrite <- Ep. assert (Hp : pattern <> []) by (subst; congruence).
  clear Ep. destruct (length text <? length pattern)%nat.
  { exists []. split; [reflexivity|]. split; [exact I | constructor]. }
  destruct (bmLoop_spec text pattern (Search.buildBadCharTable pattern) Hp
              (fun c => buildBadCharTable_bound _ c Hp)
              (S (length text)) 0 []) as (new & Hnew & Hsp & Ho).
  - lia.
  - assert (1 <= len pattern)
      by (destruct pattern; [congruence | unfold len; cbn [length]; lia]).
    unfold len in *. lia.
  - lia.
  - exists new. split; [exact Hnew|]. split; assumption.
Qed.

Lemma windowMatches_all n text pattern i j :
  Search.windowMatches n text pattern i j = true ->
  forall k, j <= k < j + Z.of_nat n ->
            char_at text (i + k) = char_at pattern k.
Proof.
  revert j. induction n as [|n IH]; intros j H k Hk; [lia|].
  cbn in H.
  destruct (ascii_eqb (char_at text (i + j)) (char_at pattern j)) eqn:E;
    cbn in H; [|discriminate].
  apply ascii_eqb_eq in E.
  destruct (Z.eq_dec k j) as [->|Hne]; [exact E|].
  apply (IH (j + 1)); [exact H | lia].
Qed.

Lemma rkLoop_spec text pattern base mod_ patternHash power :
  forall n i textHash result,
    0 <= i ->
    i + Z.of_nat n - 1 <= len text - len pattern ->
    exists new,
      Search.rkLoop n text pattern base mod_ patternHash power i textHash
        result = result ++ new /\
      spaced 1 i new /\
      Forall (occurs_at text pattern) new.
Proof.
  induction n as [|n IH]; intros i textHash result Hi Hb.
  - exists []. rewrite app_nil_r. split; [reflexivity|].
    split; [exact I | constructor].
  - cbn [Search.rkLoop]. cbv zeta.
    set (h1 := if i <? _ then _ else textHash).
    destruct ((patternHash =? textHash)
              && Search.windowMatches (length pattern) text pattern i 0)
      eqn:E.
    + apply andb_true_iff in E as [_ E].
      destruct (IH (i + 1) h1 (result ++ [i])) as (new & Hnew & Hsp & Ho);
        [lia | lia |].
      exists (i :: new). rewrite Hnew, <- app_assoc. split; [reflexivity|].
      split; [cbn; split; [lia | exact Hsp]|].
      constructor; [|exact Ho].
      apply chars_occurs; [exact Hi | lia |].
      intros k Hk. apply (windowMatches_all _ _ _ _ _ E). unfold len in Hk.
      lia.
    + destruct (IH (i + 1) h1 result) as (new & Hnew & Hsp & Ho);
        [lia | lia |].
      exists new. split; [exact Hnew|]. split; [|exact Ho].
      eapply spaced_weaken; [|exact Hsp]. lia.
Qed.

Lemma rabinKarpSearch_sound_aux text pattern :
  exists results,
    Search.rabinKarpSearch text pattern = Some results /\
    spaced 1 0 results /\
    Forall (occurs_at text pattern) results.
Proof.
  unfold Search.rabinKarpSearch.
  destruct pattern as [|c p'] eqn:Ep.
  { exists []. split; [reflexivity|]. split; [exact I | constructor]. }
  rewrite <- Ep. clear Ep.
  destruct (length text <? length pattern)%nat eqn:El.
  { exists []. split; [reflexivity|]. split; [exact I | constructor]. }
  apply Nat.ltb_ge in El. cbv zeta.
  match goal with
  | |- context [Search.rkLoop ?n text pattern ?b ?m ?ph ?pw 0 ?th []] =>
      destruct (rkLoop_spec text pattern b m ph pw n 0 th [])
        as (new & Hnew & Hsp & Ho); [lia | unfold len; lia |]
  end.
  exists new. rewrite Hnew. split; [reflexivity|]. split; assumption.
Qed.

(** X13.  [rabinKarpSearch] returns a strictly ascending list of offsets
    at each of which the pattern occurs in the text: a window whose hash
    happens to equal the hash of the pattern is reported only after the
    character-by-character comparison. *)
Theorem rabinKarpSearch_reports_only_matches text pattern :
  exists results,
    Search.rabinKarpSearch text pattern = Some results /\
    spaced 1 0 results /\
    Forall (fun pos => 0 <= pos /\ substr text pos (len pattern) = pattern)
      results.
Proof.
  destruct (rabinKarpSearch_sound_aux text pattern)
    as (results & Hr & Hsp & Ho).
  exists results. split; [exact Hr|]. split; [exact Hsp|].
  eapply Forall_impl; [exact Ho|]. intros pos [Hpos Ht].
  split; [exact Hpos|]. unfold substr, len. rewrite Nat2Z.id. exact Ht.
Qed.

Lemma vget_vset_eq lps i x :
  0 <= i < Z.of_nat (length lps) -> Search.vget (Search.vset lps i x) i = x.
Proof.
  intros Hi. unfold Search.vget, Search.vset.
  rewrite (nth_lookup_Some _ _ _ x); [reflexivity|].
  apply list_lookup_insert_eq. lia.
Qed.

Lemma vget_vset_ne lps i x k :
  0 <= i -> 0 <= k -> k <> i ->
  Search.vget (Search.vset lps i x) k = Search.vget lps k.
Proof.
  intros Hi Hk Hne. unfold Search.vget, Search.vset.
  rewrite !nth_lookup, list_lookup_insert_ne by lia. reflexivity.
Qed.

Lemma length_vset lps i x : length (Search.vset lps i x) = length lps.
Proof. apply length_insert. Qed.

(** The loop of [computeLPSArray]: the entries below [i] are borders,
    [len_] is a border of the prefix that ends before [i], and the loop
    finishes within [2 * (n - i) + len_ + 1] turns. *)
Lemma lpsLoop_spec pattern :
  forall fuel lps len_ i,
    length lps = length pattern ->
    1 <= i ->
    (forall k, 0 <= k < i -> k < len pattern ->
               is_border pattern (Search.vget lps k) k) ->
    is_border pattern len_ (i - 1) ->
    (1 <= fuel)%nat ->
    2 * (len pattern - i) + len_ + 1 <= Z.of_nat fuel ->
    exists lps',
      Search.lpsLoop fuel pattern lps len_ i = Some lps' /\
      lps_ok pattern lps'.
Proof.
  induction fuel as [|fuel IH]; intros lps len_ i Hlen Hi Hlps Hb Hf1 Hf;
    [lia|].
  cbn [Search.lpsLoop].
  destruct (i <? len pattern) eqn:E.
  2:{ apply Z.ltb_ge in E. exists lps. split; [reflexivity|].
      split; [exact Hlen|]. intros k Hk. apply Hlps; lia. }
  apply Z.ltb_lt in E. destruct Hb as [Hr Hb].
  destruct (ascii_eqb (char_at pattern i) (char_at pattern len_)) eqn:Ec.
  - apply ascii_eqb_eq in Ec.
    apply IH; [rewrite length_vset; exact Hlen | lia | | | lia | lia].
    + intros k Hk Hkn. destruct (Z.eq_dec k i) as [->|Hne].
      * rewrite vget_vset_eq by (unfold len in *; lia).
        split; [lia|]. intros t Ht.
        destruct (Z.eq_dec t len_) as [->|Hne].
        -- rewrite <- Ec. f_equal. lia.
        -- rewrite (Hb t) by lia. f_equal. lia.
      * rewrite vget_vset_ne by lia. apply Hlps; lia.
    + replace (i + 1 - 1) with i by lia. split; [lia|]. intros t Ht.
      destruct (Z.eq_dec t len_) as [->|Hne].
      * rewrite <- Ec. f_equal. lia.
      * rewrite (Hb t) by lia. f_equal. lia.
  - destruct (len_ =? 0) eqn:E0; cbn [negb].
    + apply Z.eqb_eq in E0. subst len_.
      apply IH; [rewrite length_vset; exact Hlen | lia | | | lia | lia].
      * intros k Hk Hkn. destruct (Z.eq_dec k i) as [->|Hne].
        -- rewrite vget_vset_eq by (unfold len in *; lia).
           split; [lia|]. intros t Ht. lia.
        -- rewrite vget_vset_ne by lia. apply Hlps; lia.
      * split; [lia|]. intros t Ht. lia.
    + apply Z.eqb_neq in E0.
      destruct (Hlps (len_ - 1)) as [Hr' Hb']; [lia | lia |].
      apply IH; [exact Hlen | lia | exact Hlps | | lia | lia].
      split; [lia|]. intros t Ht.
      rewrite (Hb' t) by lia. rewrite (Hb (len_ - 1 + 1
                                           - Search.vget lps (len_ - 1) + t))
        by lia.
      f_equal. lia.
Qed.

Lemma computeLPSArray_ok pattern :
  exists lps, Search.computeLPSArray pattern = Some lps /\ lps_ok pattern lps.
Proof.
  unfold Search.computeLPSArray.
  apply lpsLoop_spec.
  - apply length_replicate.
  - lia.
  - intros k Hk Hkn. assert (k = 0) as -> by lia.
    rewrite vget_replicate by (unfold len in *; lia).
    split; [lia|]. intros t Ht. lia.
  - split; [lia|]. intros t Ht. lia.
  - lia.
  - unfold len. lia.
Qed.

(** X14.  [computeLPSArray] returns, for every pattern, a table with one
    entry for each character; entry [i] lies in [0, i] and is the length
    of a border: the first [lps[i]] characters of the pattern are the
    [lps[i]] characters that end at index [i]. *)
Theorem computeLPSArray_gives_borders pattern :
  exists lps,
    Search.computeLPSArray pattern = Some lps /\
    length lps = length pattern /\
    forall i, 0 <= i < len pattern ->
      0 <= Search.vget lps i <= i /\
      substr pattern 0 (Search.vget lps i)
      = substr pattern (i + 1 - Search.vget lps i) (Search.vget lps i).
Proof.
  destruct (computeLPSArray_ok pattern) as (lps & Hc & Hlen & Hb).
  exists lps. split; [exact Hc|]. split; [exact Hlen|].
  intros i Hi. destruct (Hb i Hi) as [Hr Ht]. split; [exact Hr|].
  unfold substr. change (Z.to_nat 0) with 0%nat. rewrite drop_0.
  apply (nth_ext _ _ zero zero).
  - rewrite !length_take, length_drop. unfold len in *. lia.
  - intros k Hk. rewrite length_take in Hk.
    rewrite !nth_firstn.
    replace (k <? Z.to_nat (Search.vget lps i))%nat with true
      by (symmetry; apply Nat.ltb_lt; lia).
    rewrite nth_skipn. specialize (Ht (Z.of_nat k)).
    unfold char_at in Ht. rewrite Nat2Z.id in Ht.
    rewrite Ht by lia. f_equal. lia.
Qed.

Lemma matched_border text pattern j i k :
  matched text pattern j i -> is_border pattern k (j - 1) ->
  matched text pattern k i.
Proof.
  intros Hm [Hr Hb] t Ht. rewrite (Hb t Ht).
  rewrite (Hm (j - 1 + 1 - k + t)) by lia. f_equal. lia.
Qed.

Lemma matched_extend text pattern j i :
  matched text pattern j i -> char_at pattern j = char_at text i ->
  matched text pattern (j + 1) (i + 1).
Proof.
  intros Hm Hc t Ht. destruct (Z.eq_dec t j) as [->|Hne].
  - rewrite Hc. f_equal. lia.
  - rewrite (Hm t) by lia. f_equal. lia.
Qed.

(** The main loop of [kmpSearch], with [j] characters of the pattern
    matched before offset [i] of the text. *)
Lemma kmpLoop_spec text pattern lps :
  lps_ok pattern lps ->
  forall fuel i j result,
    0 <= j <= i -> i <= len text -> j < len pattern ->
    matched text pattern j i ->
    2 * (len text - i) + j + 1 <= Z.of_nat fuel ->
    exists new,
      Search.kmpLoop fuel text pattern lps i j result = Some (result ++ new) /\
      spaced 1 (i - j) new /\
      Forall (occurs_at text pattern) new.
Proof.
  intros [Hlen Hlps].
  induction fuel as [|fuel IH]; intros i j result Hj Hi Hjm Hm Hf; [lia|].
  cbn [Search.kmpLoop].
  destruct (i <? len text) eqn:E.
  2:{ exists []. rewrite app_nil_r. split; [reflexivity|].
      split; [exact I | constructor]. }
  apply Z.ltb_lt in E.
  destruct (ascii_eqb (char_at pattern j) (char_at text i)) eqn:Ec.
  - apply ascii_eqb_eq in Ec.
    pose proof (matched_extend _ _ _ _ Hm Ec) as Hm1.
    destruct (j + 1 =? len pattern) eqn:Ej.
    + apply Z.eqb_eq in Ej.
      replace (j + 1 - 1) with j by lia.
      destruct (Hlps j) as [Hr Hb]; [lia|].
      destruct (IH (i + 1) (Search.vget lps j) (result ++ [i + 1 - (j + 1)]))
        as (new & Hnew & Hsp & Ho); [lia | lia | lia | | lia |].
      { apply (matched_border _ _ (j + 1)); [exact Hm1|].
        replace (j + 1 - 1) with j by lia. split; assumption. }
      exists ((i - j) :: new). rewrite Hnew, <- app_assoc.
      replace (i + 1 - (j + 1)) with (i - j) by lia.
      split; [reflexivity|]. split.
      * cbn. split; [lia|]. eapply spaced_weaken; [|exact Hsp]. lia.
      * constructor; [|exact Ho].
        apply chars_occurs; [lia | lia |].
        intros t Ht. rewrite (Hm1 t) by lia. f_equal. lia.
    + apply Z.eqb_neq in Ej.
      destruct ((i + 1 <? len text)
                && negb (ascii_eqb (char_at pattern (j + 1))
                           (char_at text (i + 1)))).
      * destruct (j + 1 =? 0) eqn:E0; [apply Z.eqb_eq in E0; lia|].
        cbn [negb]. replace (j + 1 - 1) with j by lia.
        destruct (Hlps j) as [Hr Hb]; [lia|].
        destruct (IH (i + 1) (Search.vget lps j) result)
          as (new & Hnew & Hsp & Ho); [lia | lia | lia | | lia |].
        { apply (matched_border _ _ (j + 1)); [exact Hm1|].
          replace (j + 1 - 1) with j by lia. split; assumption. }
        exists new. split; [exact Hnew|]. split; [|exact Ho].
        eapply spaced_weaken; [|exact Hsp]. lia.
      * destruct (IH (i + 1) (j + 1) result)
          as (new & Hnew & Hsp & Ho); [lia | lia | lia | exact Hm1 | lia |].
        exists new. split; [exact Hnew|]. split; [|exact Ho].
        eapply spaced_weaken; [|exact Hsp]. lia.
  - destruct (j =? len pattern) eqn:Ej; [apply Z.eqb_eq in Ej; lia|].
    replace (i <? len text) with true by (symmetry; apply Z.ltb_lt; lia).
    rewrite Ec. cbn [andb negb].
    destruct (j =? 0) eqn:E0; cbn [negb].
    + apply Z.eqb_eq in E0. subst j.
      destruct (IH (i + 1) 0 result)
        as (new & Hnew & Hsp & Ho); [lia | lia | lia | | lia |].
      { intros t Ht. lia. }
      exists new. split; [exact Hnew|]. split; [|exact Ho].
      eapply spaced_weaken; [|exact Hsp]. lia.
    + apply Z.eqb_neq in E0.
      destruct (Hlps (j - 1)) as [Hr Hb]; [lia|].
      destruct (IH i (Search.vget lps (j - 1)) result)
        as (new & Hnew & Hsp & Ho); [lia | lia | lia | | lia |].
      { apply (matched_border _ _ j); [exact Hm | split; assumption]. }
      exists new. split; [exact Hnew|]. split; [|exact Ho].
      eapply spaced_weaken; [|exact Hsp]. lia.
Qed.

Lemma kmpSearch_spec text pattern :
  exists results,
    Search.kmpSearch text pattern = Some results /\
    spaced 1 0 results /\
    Forall (occurs_at text pattern) results.
Proof.
  unfold Search.kmpSearch.
  destruct pattern as [|c p'] eqn:Ep.
  { exists []. split; [reflexivity|]. split; [exact I | constructor]. }
  rewrite <- Ep.
  assert (Hm : 1 <= len pattern) by (subst; unfold len; cbn [length]; lia).
  clear Ep. destruct (length text <? length pattern)%nat.
  { exists []. split; [reflexivity|]. split; [exact I | constructor]. }
  destruct (computeLPSArray_ok pattern) as (lps & Hc & Hok).
  rewrite Hc. cbn.
  destruct (kmpLoop_spec text pattern lps Hok (2 * length text + 2) 0 0 [])
    as (new & Hnew & Hsp & Ho);
    [lia | unfold len; lia | lia | intros t Ht; lia | unfold len; lia |].
  exists new. split; [exact Hnew|]. split; assumption.
Qed.

(** X15.  [kmpSearch] always returns, and what it returns is a strictly
    ascending list of offsets at each of which the pattern occurs in the
    text. *)
Theorem kmpSearch_reports_only_matches text pattern :
  exists results,
    Search.kmpSearch text pattern = Some results /\
    spaced 1 0 results /\
    Forall (fun pos => 0 <= pos /\ substr text pos (len pattern) = pattern)
      results.
Proof.
  destruct (kmpSearch_spec text pattern) as (results & Hr & Hsp & Ho).
  exists results. split; [exact Hr|]. split; [exact Hsp|].
  eapply Forall_impl; [exact Ho|]. intros pos [Hpos Ht].
  split; [exact Hpos|]. unfold substr, len. rewrite Nat2Z.id. exact Ht.
Qed.

Lemma rem_mod_nonneg a m : 0 <= a -> 0 < m -> Z.rem a m = a mod m.
Proof. intros. apply Z.rem_mod_nonneg; lia. Qed.

Lemma powerLoop_spec mod_ :
  1 < mod_ ->
  forall n base exp result,
    0 <= base -> 0 <= result < mod_ -> 0 <= exp < 2 ^ Z.of_nat n ->
    Search.powerLoop n base exp mod_ result = (result * base ^ exp) mod mod_.
Proof.
  intros HM. induction n as [|n IH]; intros base exp result Hb Hr He.
  - cbn in He. assert (exp = 0) as -> by lia. cbn [Search.powerLoop].
    rewrite Z.pow_0_r, Z.mul_1_r, Z.mod_small by lia. reflexivity.
  - cbn [Search.powerLoop]. destruct (0 <? exp) eqn:E.
    2:{ apply Z.ltb_ge in E. assert (exp = 0) as -> by lia.
        rewrite Z.pow_0_r, Z.mul_1_r, Z.mod_small by lia. reflexivity. }
    apply Z.ltb_lt in E.
    rewrite Z.shiftr_div_pow2 by lia. change (2 ^ 1) with 2.
    rewrite !rem_mod_nonneg by nia.
    assert (Hexp : exp = 2 * (exp / 2) + exp mod 2) by (apply Z.div_mod; lia).
    assert (Hm2 : 0 <= exp mod 2 < 2) by (apply Z.mod_pos_bound; lia).
    assert (Hd : 0 <= exp / 2 < 2 ^ Z.of_nat n).
    { split; [apply Z.div_pos; lia|].
      apply Z.div_lt_upper_bound; [lia|].
      rewrite Nat2Z.inj_succ, Z.pow_succ_r in He by lia. lia. }
    assert (Hpow : base ^ exp = (base * base) ^ (exp / 2) * base ^ (exp mod 2)).
    { rewrite Hexp at 1. rewrite Z.pow_add_r, Z.pow_mul_r by lia.
      change (base ^ 2) with (base * (base * 1)). rewrite Z.mul_1_r.
      reflexivity. }
    rewrite IH; [| apply Z.mod_pos_bound; lia | | exact Hd].
    2:{ destruct (_ =? 1); [apply Z.mod_pos_bound; lia | exact Hr]. }
    rewrite Hpow.
    rewrite <- Z.mul_mod_idemp_r, Z.mod_pow_l, Z.mul_mod_idemp_r by lia.
    destruct (exp mod 2 =? 1) eqn:E1.
    + apply Z.eqb_eq in E1. rewrite E1, Z.pow_1_r.
      rewrite Z.mul_mod_idemp_l by lia. f_equal. ring.
    + apply Z.eqb_neq in E1. assert (exp mod 2 = 0) as -> by lia.
      rewrite Z.pow_0_r, Z.mul_1_r. reflexivity.
Qed.

(** X16.  [computePower(base, exp, mod)] is [base] to the power [exp]
    modulo [mod], for a modulus above 1 whose square fits a [long long], a
    base that is not negative and an exponent in the range of a
    non-negative 32-bit [int]. *)
Theorem computePower_is_modular_power base exp mod_ :
  1 < mod_ <= 2 ^ 31 -> 0 <= base -> 0 <= exp < 2 ^ 31 ->
  Search.computePower base exp mod_ = base ^ exp mod mod_.
Proof.
  intros [HM _] Hb He. unfold Search.computePower.
  rewrite rem_mod_nonneg by lia.
  rewrite powerLoop_spec;
    [| exact HM | apply Z.mod_pos_bound; lia | lia
     | change (2 ^ Z.of_nat 32) with (2 ^ 31 * 2); lia].
  rewrite Z.mul_1_l, Z.mod_pow_l. reflexivity.
Qed.

Lemma computePower_is_modular_power_witness :
  Search.computePower 256 4 1000000007 = 256 ^ 4 mod 1000000007.
Proof.
  apply (computePower_is_modular_power 256 4 1000000007); lia.
Defined.

(** X17.  [caseInsensitiveSearch] always returns, and at each offset it
    reports the text agrees with the pattern up to the case of the
    letters: the lower-cased window of the text is the lower-cased
    pattern. *)
Theorem caseInsensitiveSearch_matches_up_to_case text pattern :
  exists results,
    Search.caseInsensitiveSearch text pattern = Some results /\
    spaced 1 0 results /\
    Forall (fun pos =>
              0 <= pos /\
              Search.toLowerCase (substr text pos (len pattern))
              = Search.toLowerCase pattern) results.
Proof.
  unfold Search.caseInsensitiveSearch. cbv zeta.
  destruct (kmpSearch_spec (Search.toLowerCase text)
              (Search.toLowerCase pattern)) as (results & Hr & Hsp & Ho).
  exists results. split; [exact Hr|]. split; [exact Hsp|].
  eapply Forall_impl; [exact Ho|]. intros pos [Hpos Ht].
  split; [exact Hpos|]. unfold Search.toLowerCase in *.
  rewrite length_map in Ht. unfold substr, len.
  rewrite Nat2Z.id, <- Ht, <- !firstn_map, <- !skipn_map. reflexivity.
Qed.

(** X18.  [replaceFirst] always returns; it returns the text itself, or
    it has split the text around one occurrence of the pattern and returns
    the text with that occurrence replaced. *)
Theorem replaceFirst_replaces_an_occurrence text pattern replacement :
  exists result,
    Search.replaceFirst text pattern replacement = Some result /\
    (result = text \/
     exists pre post,
       text = pre ++ pattern ++ post /\
       result = pre ++ replacement ++ post).
Proof.
  unfold Search.replaceFirst.
  destruct pattern as [|c p'] eqn:Ep.
  { exists text. split; [reflexivity | left; reflexivity]. }
  rewrite <- Ep.
  assert (Hm : (1 <= length pattern)%nat) by (subst; cbn [length]; lia).
  clear Ep.
  destruct (kmpSearch_spec text pattern) as (results & Hr & _ & Ho).
  rewrite Hr. cbn.
  destruct results as [|pos results].
  { exists text. split; [reflexivity | left; reflexivity]. }
  inversion Ho as [|? ? [Hpos Ht] _]; subst.
  assert (Hlen : (Z.to_nat pos + length pattern <= length text)%nat).
  { assert (Hx : length (take (length pattern) (drop (Z.to_nat pos) text))
                 = length pattern) by (rewrite Ht; reflexivity).
    rewrite length_take, length_drop in Hx. lia. }
  unfold Search.replace_at.
  replace ((pos <? 0) || (len text <? pos)) with false.
  2:{ symmetry. apply orb_false_iff. split;
        [apply Z.ltb_ge; lia | apply Z.ltb_ge; unfold len; lia]. }
  eexists. split; [reflexivity|]. right.
  exists (take (Z.to_nat pos) text),
         (drop (Z.to_nat pos + Z.to_nat (len pattern)) text).
  split; [|reflexivity].
  unfold len. rewrite Nat2Z.id.
  rewrite <- (take_drop (Z.to_nat pos) text) at 1. f_equal.
  rewrite <- (take_drop (length pattern) (drop (Z.to_nat pos) text)) at 1.
  rewrite Ht, drop_drop. reflexivity.
Qed.

(** ** The dictionary codec *)

Lemma pack16 o :
  Z.lor (Z.shiftl (Z.land (Z.shiftr o 8) 255) 8) (Z.land o 255)
  = o mod 65536.
Proof.
  change 255 with (Z.ones 8). change 65536 with (2 ^ 16).
  apply Z.bits_inj'. intros n Hn.
  rewrite Z.lor_spec, Z.land_spec.
  destruct (Z.lt_ge_cases n 8) as [Hlt|Hge].
  - rewrite Z.shiftl_spec_low, Z.ones_spec_low, Z.mod_pow2_bits_low by lia.
    cbn. apply andb_true_r.
  - rewrite Z.shiftl_spec, Z.land_spec, Z.shiftr_spec by lia.
    replace (n - 8 + 8) with n by lia.
    rewrite (Z.ones_spec_high 8 n), andb_false_r, orb_false_r by lia.
    rewrite Z.testbit_ones_nonneg by lia.
    destruct (Z.lt_ge_cases n 16) as [Hlt|Hge'].
    + rewrite Z.mod_pow2_bits_low by lia.
      replace (n - 8 <? 8) with true by (symmetry; apply Z.ltb_lt; lia).
      apply andb_true_r.
    + rewrite Z.mod_pow2_bits_high by lia.
      replace (n - 8 <? 8) with false by (symmetry; apply Z.ltb_ge; lia).
      apply andb_false_r.
Qed.

Lemma deserialize_serialize tokens :
  LZ77.deserializeTokens (LZ77.serializeTokens tokens)
  = map (fun token =>
           LZ77.mkToken (LZ77.offset token mod 65536)
             (LZ77.length token mod 256) (LZ77.nextChar token)) tokens.
Proof.
  induction tokens as [|token tokens IH]; [reflexivity|].
  unfold LZ77.serializeTokens in *. cbn [flat_map app map].
  cbn [LZ77.deserializeTokens]. rewrite IH. f_equal.
  rewrite pack16, Nat2Z.id, ascii_nat_embedding.
  change 255 with (Z.ones 8). rewrite Z.land_ones by lia. reflexivity.
Qed.

Lemma deserialize_serialize_small tokens :
  Forall (fun token => 0 <= LZ77.offset token < 65536 /\
                       0 <= LZ77.length token < 256) tokens ->
  LZ77.deserializeTokens (LZ77.serializeTokens tokens) = tokens.
Proof.
  intros H. rewrite deserialize_serialize.
  induction H as [|token tokens [Ho Hl] _ IH]; [reflexivity|].
  cbn [map]. rewrite IH, !Z.mod_small by lia. destruct token; reflexivity.
Qed.

(** X19.  Reading back serialized tokens gives the tokens with the offset
    reduced modulo 65536 and the length modulo 256, the character
    unchanged: tokens with offsets in [0, 65536) and lengths in [0, 256)
    are read back as they were, and no other token is. *)
Theorem deserializeTokens_of_serializeTokens tokens :
  LZ77.deserializeTokens (LZ77.serializeTokens tokens)
  = map (fun token =>
           LZ77.mkToken (LZ77.offset token mod 65536)
             (LZ77.length token mod 256) (LZ77.nextChar token)) tokens /\
  (LZ77.deserializeTokens (LZ77.serializeTokens tokens) = tokens <->
   Forall (fun token => 0 <= LZ77.offset token < 65536 /\
                        0 <= LZ77.length token < 256) tokens).
Proof.
  split; [apply deserialize_serialize|]. split.
  - rewrite deserialize_serialize. intros H.
    induction tokens as [|token tokens IH]; constructor.
    + cbn [map] in H. injection H as H _. destruct token as [o l c].
      cbn in H |- *. injection H as Ho Hl.
      pose proof (Z.mod_pos_bound o 65536). pose proof (Z.mod_pos_bound l 256).
      lia.
    + apply IH. cbn [map] in H. injection H as _ H. exact H.
  - apply deserialize_serialize_small.
Qed.

Lemma deserializeTokens_of_serializeTokens_witness :
  LZ77.deserializeTokens
    (LZ77.serializeTokens [LZ77.mkToken 300 2 "a"%char])
  = [LZ77.mkToken 300 2 "a"%char].
Proof.
  apply (proj2 (deserializeTokens_of_serializeTokens
                  [LZ77.mkToken 300 2 "a"%char])).
  constructor; [cbn; lia | constructor].
Defined.

Lemma matchLength_spec text i pos maxLength :
  0 <= i ->
  forall n l,
    0 <= l -> i + l <= pos -> pos + l <= len text ->
    (forall k, 0 <= k < l -> char_at text (i + k) = char_at text (pos + k)) ->
    let L := LZ77.matchLength n text i pos maxLength l in
    l <= L /\ i + L <= pos /\ pos + L <= len text /\
    forall k, 0 <= k < L -> char_at text (i + k) = char_at text (pos + k).
Proof.
  intros Hi. induction n as [|n IH]; intros l Hl H1 H2 Hc; cbn.
  - repeat split; try lia. exact Hc.
  - destruct (l <? maxLength) eqn:E1; cbn [andb];
      [|repeat split; try lia; exact Hc].
    destruct (i + l <? pos) eqn:E2; cbn [andb];
      [|repeat split; try lia; exact Hc].
    destruct (pos + l <? len text) eqn:E3; cbn [andb];
      [|repeat split; try lia; exact Hc].
    destruct (ascii_eqb _ _) eqn:E4; [|repeat split; try lia; exact Hc].
    apply Z.ltb_lt in E2, E3. apply ascii_eqb_eq in E4.
    destruct (IH (l + 1)) as (Ha & Hb & Hd & He); [lia | lia | lia | |].
    { intros k Hk. destruct (Z.eq_dec k l) as [->|Hne];
        [exact E4 | apply Hc; lia]. }
    repeat split; try lia. exact He.
Qed.

Lemma searchWindow_spec text pos maxLength :
  pos <= len text ->
  forall n i best,
    0 <= i ->
    ((0 < n)%nat -> i + Z.of_nat n <= pos) ->
    0 <= snd best ->
    (0 < fst best -> match_ok text pos (fst best) (snd best)) ->
    let r := LZ77.searchWindow n text i pos maxLength best in
    0 <= snd r /\ (0 < fst r -> match_ok text pos (fst r) (snd r)).
Proof.
  intros Hpos.
  induction n as [|n IH]; intros i [bo bl] Hi Hn Hl Hb; cbn [LZ77.searchWindow].
  - split; assumption.
  - cbv zeta. specialize (Hn ltac:(lia)).
    pose proof (matchLength_spec text i pos maxLength Hi
                  (Z.to_nat maxLength) 0) as Hm.
    cbv zeta in Hm.
    destruct Hm as (Ha & Hc & Hd & He); [lia | lia | lia | |].
    { intros k Hk. lia. }
    set (L := LZ77.matchLength _ text i pos maxLength 0) in *.
    apply IH; [lia | lia | |].
    + destruct (bl <? L); cbn [snd] in *; lia.
    + destruct (bl <? L); cbn [fst snd] in *; [|exact Hb].
      intros _. unfold match_ok.
      replace (pos - (pos - i)) with i by lia.
      repeat split; try lia. exact He.
Qed.

Lemma findLongestMatch_spec lz text pos :
  0 <= pos <= len text ->
  let r := LZ77.findLongestMatch lz text pos in
  0 <= snd r /\ (0 < fst r -> match_ok text pos (fst r) (snd r)).
Proof.
  intros Hp. unfold LZ77.findLongestMatch. cbv zeta.
  apply searchWindow_spec; cbn [fst snd]; lia.
Qed.

Lemma char_at_app_l (a b : cstring) k :
  0 <= k < len a -> char_at (a ++ b) k = char_at a k.
Proof.
  intros Hk. unfold char_at, len in *. apply app_nth1. lia.
Qed.

Lemma char_at_sentinel (text : cstring) k :
  char_at (text ++ [zero]) k = char_at text k.
Proof.
  unfold char_at. destruct (Nat.lt_ge_cases (Z.to_nat k) (length text)).
  - apply app_nth1. lia.
  - rewrite app_nth2, (nth_overflow text) by lia.
    destruct (Z.to_nat k - length text)%nat as [|[|m]]; reflexivity.
Qed.

Lemma take_S_char (s : cstring) n :
  (n < length s)%nat -> take (S n) s = take n s ++ [char_at s (Z.of_nat n)].
Proof.
  intros Hn. destruct (lookup_lt_is_Some_2 s n Hn) as [c Hc].
  rewrite (take_S_r _ _ _ Hc). unfold char_at. rewrite Nat2Z.id.
  rewrite (nth_lookup_Some _ _ _ _ Hc). reflexivity.
Qed.

(** Copying [n] characters that lie inside [result]. *)
Lemma copyLoop_spec n :
  forall result start i,
    0 <= start + i ->
    start + i + Z.of_nat n <= len result ->
    LZ77.copyLoop n result start i
    = result ++ take n (drop (Z.to_nat (start + i)) result).
Proof.
  induction n as [|n IH]; intros result start i Hs Hb; cbn [LZ77.copyLoop].
  - rewrite take_0, app_nil_r. reflexivity.
  - rewrite IH; [| lia | rewrite len_app; unfold len in *; cbn [length]; lia].
    rewrite <- app_assoc. f_equal.
    replace (Z.to_nat (start + (i + 1))) with (S (Z.to_nat (start + i))) by lia.
    assert (Hlt : (Z.to_nat (start + i) < length result)%nat)
      by (unfold len in *; lia).
    destruct (lookup_lt_is_Some_2 result _ Hlt) as [c Hc].
    rewrite (drop_S _ _ _ Hc). cbn [take].
    unfold char_at. rewrite (nth_lookup_Some _ _ _ _ Hc). cbn [app]. f_equal.
    rewrite drop_app_le by lia. apply take_app_le.
    rewrite length_drop. unfold len in *. lia.
Qed.

Lemma take_drop_chars (s t : cstring) (a b : nat) n :
  (a + n <= length s)%nat -> (b + n <= length t)%nat ->
  (forall k, (k < n)%nat -> nth (a + k) s zero = nth (b + k) t zero) ->
  take n (drop a s) = take n (drop b t).
Proof.
  intros Ha Hb Hc. apply (nth_ext _ _ zero zero).
  - rewrite !length_take, !length_drop. lia.
  - intros k Hk. rewrite length_take, length_drop in Hk.
    rewrite !nth_firstn.
    replace (k <? n)%nat with true by (symmetry; apply Nat.ltb_lt; lia).
    rewrite !nth_skipn. apply Hc. lia.
Qed.

(** Decoding one token that the encoder emits at offset [pos] extends the
    decoded prefix of the text (followed by a NUL) by the token. *)
Lemma decodeToken_match text pos off l :
  match_ok text pos off l ->
  LZ77.decodeToken (take (Z.to_nat pos) (text ++ [zero]))
    (LZ77.mkToken off l (char_at text (pos + l)))
  = take (Z.to_nat (pos + (l + 1))) (text ++ [zero]).
Proof.
  intros (Ho & Hl & H1 & H2 & Hc). unfold LZ77.decodeToken. cbn.
  replace (off =? 0) with false by (symmetry; apply Z.eqb_neq; lia).
  assert (Hlen : len (take (Z.to_nat pos) (text ++ [zero])) = pos).
  { unfold len in *. rewrite length_take, length_app. cbn [length]. lia. }
  rewrite Hlen.
  rewrite copyLoop_spec by (rewrite ?Hlen; lia).
  rewrite Z.add_0_r.
  rewrite (take_drop_chars _ (text ++ [zero]) _ (Z.to_nat pos)).
  - replace (Z.to_nat (pos + (l + 1))) with (S (Z.to_nat pos + Z.to_nat l))
      by lia.
    rewrite take_S_char
      by (rewrite length_app; unfold len in *; cbn [length]; lia).
    rewrite char_at_sentinel, take_take_drop. f_equal.
    do 2 f_equal. lia.
  - rewrite length_take, length_app. cbn [length]. unfold len in *. lia.
  - rewrite length_app. cbn [length]. unfold len in *. lia.
  - intros k Hk.
    assert (Hnth : forall j, (j < Z.to_nat pos)%nat ->
               nth j (take (Z.to_nat pos) (text ++ [zero])) zero
               = char_at text (Z.of_nat j)).
    { intros j Hj. rewrite nth_firstn.
      replace (j <? Z.to_nat pos)%nat with true
        by (symmetry; apply Nat.ltb_lt; lia).
      rewrite <- char_at_sentinel. unfold char_at. rewrite Nat2Z.id.
      reflexivity. }
    rewrite Hnth by lia.
    specialize (Hc (Z.of_nat k)).
    replace (Z.of_nat (Z.to_nat (pos - off) + k)) with (pos - off + Z.of_nat k)
      by lia.
    rewrite Hc by lia. rewrite <- char_at_sentinel. unfold char_at.
    f_equal. lia.
Qed.

Lemma decodeToken_literal text pos :
  0 <= pos < len text ->
  LZ77.decodeToken (take (Z.to_nat pos) (text ++ [zero]))
    (LZ77.mkToken 0 0 (char_at text pos))
  = take (Z.to_nat (pos + 1)) (text ++ [zero]).
Proof.
  intros Hp. unfold LZ77.decodeToken. cbn.
  replace (Z.to_nat (pos + 1)) with (S (Z.to_nat pos)) by lia.
  rewrite take_S_char
    by (rewrite length_app; unfold len in *; cbn [length]; lia).
  rewrite char_at_sentinel. do 3 f_equal. lia.
Qed.

Lemma decode_snoc tokens token :
  LZ77.decode (tokens ++ [token])
  = LZ77.decodeToken (LZ77.decode tokens) token.
Proof. unfold LZ77.decode. rewrite fold_left_app. reflexivity. Qed.

(** The encoder loop keeps the decoded tokens equal to the part of the text
    (followed by a NUL) before [pos], and finishes within one turn for each
    character. *)
Lemma encodeLoop_spec lz text :
  forall fuel pos tokens,
    0 <= pos <= len text + 1 ->
    LZ77.decode tokens = take (Z.to_nat pos) (text ++ [zero]) ->
    Forall (token_ok text) tokens ->
    (0 < fuel)%nat -> len text - pos < Z.of_nat fuel ->
    exists tokens' pos',
      LZ77.encodeLoop fuel lz text pos tokens = Some tokens' /\
      len text <= pos' <= len text + 1 /\
      LZ77.decode tokens' = take (Z.to_nat pos') (text ++ [zero]) /\
      Forall (token_ok text) tokens'.
Proof.
  induction fuel as [|fuel IH]; intros pos tokens Hp Hd Hok Hf0 Hf; [lia|].
  cbn [LZ77.encodeLoop].
  destruct (pos <? len text) eqn:E.
  2:{ apply Z.ltb_ge in E. exists tokens, pos.
      split; [reflexivity|]. split; [lia|]. split; assumption. }
  apply Z.ltb_lt in E. cbv zeta.
  destruct (findLongestMatch_spec lz text pos) as [Hl Hm]; [lia|].
  destruct (LZ77.findLongestMatch lz text pos) as [off l]. cbn [fst snd] in *.
  destruct ((0 <? off) && (0 <? l)) eqn:Eb.
  - apply andb_true_iff in Eb as [Eo El].
    apply Z.ltb_lt in Eo, El. specialize (Hm Eo).
    pose proof Hm as (Ho & _ & H1 & H2 & _).
    apply IH; [lia | | | lia | lia].
    + rewrite decode_snoc, Hd. apply decodeToken_match, Hm.
    + apply Forall_app. split; [exact Hok|]. constructor; [|constructor].
      unfold token_ok. cbn. lia.
  - apply IH; [lia | | | lia | lia].
    + rewrite decode_snoc, Hd. apply decodeToken_literal. lia.
    + apply Forall_app. split; [exact Hok|]. constructor; [|constructor].
      unfold token_ok. cbn. lia.
Qed.

Lemma take_sentinel (text : cstring) pos :
  len text <= pos <= len text + 1 ->
  take (Z.to_nat pos) (text ++ [zero]) = text \/
  take (Z.to_nat pos) (text ++ [zero]) = text ++ [zero].
Proof.
  intros Hp. destruct (Z.eq_dec pos (len text)) as [->|Hne].
  - left. unfold len. rewrite Nat2Z.id, take_app_length. reflexivity.
  - right. apply take_ge. rewrite length_app. cbn [length].
    unfold len in *. lia.
Qed.

Lemma encode_spec lz text :
  exists tokens,
    LZ77.encode lz text = Some tokens /\
    (LZ77.decode tokens = text \/ LZ77.decode tokens = text ++ [zero]) /\
    Forall (token_ok text) tokens.
Proof.
  unfold LZ77.encode.
  destruct (encodeLoop_spec lz text (S (length text)) 0 [])
    as (tokens & pos & He & Hp & Hd & Hok);
    [unfold len; lia | reflexivity | apply Forall_nil; exact I
     | lia | unfold len; lia |].
  exists tokens. split; [exact He|]. split; [|exact Hok].
  rewrite Hd. apply take_sentinel, Hp.
Qed.

(** X20.  Encoding a text into tokens and decoding the tokens gives the
    text back, or the text followed by one NUL character (when the last
    match reaches the end of the text, its token carries the character
    after the end); the encoder returns for every text and every window
    and buffer size. *)
Theorem decode_of_encode_is_text_or_text_NUL lz text :
  exists tokens,
    LZ77.encode lz text = Some tokens /\
    (LZ77.decode tokens = text \/ LZ77.decode tokens = text ++ [zero]).
Proof.
  destruct (encode_spec lz text) as (tokens & He & Hd & _).
  exists tokens. split; assumption.
Qed.

Lemma lz77_round_trip lz text :
  len text < 512 ->
  exists data,
    LZ77.compress lz text = Some data /\
    (LZ77.decompress data = text \/ LZ77.decompress data = text ++ [zero]).
Proof.
  intros Hlen. unfold LZ77.compress.
  destruct text as [|c text'] eqn:Et.
  { exists []. split; [reflexivity | left; reflexivity]. }
  rewrite <- Et in *. clear Et.
  destruct (encode_spec lz text) as (tokens & He & Hd & Hok).
  rewrite He. cbn. eexists. split; [reflexivity|].
  assert (Hdec : LZ77.decompress (LZ77.serializeTokens tokens)
                 = LZ77.decode tokens).
  { unfold LZ77.decompress.
    rewrite deserialize_serialize_small.
    - destruct (LZ77.serializeTokens tokens) eqn:Es; [|reflexivity].
      destruct tokens; [reflexivity | discriminate].
    - eapply Forall_impl; [exact Hok|]. unfold token_ok. intros t. lia. }
  rewrite Hdec. exact Hd.
Qed.

(** X21.  For a text of fewer than 512 characters, [decompress] of
    [compress] is the text, or the text followed by one NUL character:
    every match is then shorter than 256 characters and at most 511
    back, which the four-byte token format can hold. *)
Theorem decompress_of_compress_short_text lz text :
  len text < 512 ->
  exists data,
    LZ77.compress lz text = Some data /\
    (LZ77.decompress data = text \/ LZ77.decompress data = text ++ [zero]).
Proof. apply lz77_round_trip. Qed.

Lemma decompress_of_compress_short_text_witness :
  exists data,
    LZ77.compress LZ77.init (str "abcabcab") = Some data /\
    (LZ77.decompress data = str "abcabcab" \/
     LZ77.decompress data = str "abcabcab" ++ [zero]).
Proof.
  apply (decompress_of_compress_short_text LZ77.init (str "abcabcab")).
  unfold len. cbn. lia.
Defined.

(** ** The frequency-tree codec *)

Lemma testbit_lor_one cb s p :
  0 <= s -> 0 <= p ->
  Z.testbit (Z.lor cb (Z.shiftl 1 s)) p = Z.testbit cb p || (p =? s).
Proof.
  intros Hs Hp. rewrite Z.lor_spec, Z.shiftl_spec by lia. f_equal.
  destruct (p =? s) eqn:E.
  - apply Z.eqb_eq in E. subst. rewrite Z.sub_diag. reflexivity.
  - apply Z.eqb_neq in E. destruct (Z.lt_ge_cases p s).
    + apply Z.testbit_neg_r. lia.
    + change 1 with (Z.ones 1). apply Z.ones_spec_high. lia.
Qed.

(** What [writeBits] appends: the bits already in [currentByte], then the
    bits of the string, most significant bit first, in
    [(bitCount + |bits| + 7) / 8] bytes. *)
Lemma writeBitsLoop_spec :
  forall bits cb bc data,
    0 <= bc < 8 ->
    (forall p, 0 <= p -> Z.testbit cb p = true -> 8 - bc <= p < 8) ->
    let out := Huffman.writeBitsLoop bits cb bc data in
    Z.of_nat (length out)
    = Z.of_nat (length data) + (bc + len bits + 7) / 8 /\
    (forall q, (q < length data)%nat -> nth q out 0 = nth q data 0) /\
    (forall j, 0 <= j < bc ->
               Z.testbit (nth (length data) out 0) (7 - j)
               = Z.testbit cb (7 - j)) /\
    (forall k, 0 <= k < len bits ->
               Z.testbit (nth (length data + Z.to_nat ((bc + k) / 8)) out 0)
                 (7 - (bc + k) mod 8)
               = is_one (nth (Z.to_nat k) bits zero)).
Proof.
  induction bits as [|bit rest IH]; intros cb bc data Hbc Hcb;
    cbn [Huffman.writeBitsLoop].
  - cbv zeta. unfold len. cbn [length].
    destruct (0 <? bc) eqn:E.
    + apply Z.ltb_lt in E. rewrite length_app. cbn [length].
      split; [Z.div_mod_to_equations; lia|].
      split; [intros q Hq; apply app_nth1; exact Hq|].
      split; [|intros k Hk; lia].
      intros j Hj. rewrite app_nth2, Nat.sub_diag by lia. reflexivity.
    + apply Z.ltb_ge in E.
      split; [Z.div_mod_to_equations; lia|].
      split; [reflexivity|]. split; [intros j Hj; lia | intros k Hk; lia].
  - cbv zeta.
    set (cb1 := if ascii_eqb bit "1" then Z.lor cb (Z.shiftl 1 (7 - bc))
                else cb).
    assert (Hcb1 : forall p, 0 <= p ->
               Z.testbit cb1 p
               = Z.testbit cb p || (is_one bit && (p =? 7 - bc))).
    { intros p Hp. unfold cb1, is_one. destruct (ascii_eqb bit "1").
      - apply testbit_lor_one; lia.
      - cbn. rewrite orb_false_r. reflexivity. }
    assert (Hnew : Z.testbit cb1 (7 - bc) = is_one bit).
    { rewrite Hcb1 by lia. rewrite Z.eqb_refl, andb_true_r.
      destruct (Z.testbit cb (7 - bc)) eqn:Et; [|reflexivity].
      apply Hcb in Et; lia. }
    assert (Hold : forall j, 0 <= j < bc ->
               Z.testbit cb1 (7 - j) = Z.testbit cb (7 - j)).
    { intros j Hj. rewrite Hcb1 by lia.
      replace (7 - j =? 7 - bc) with false by (symmetry; apply Z.eqb_neq; lia).
      rewrite andb_false_r, orb_false_r. reflexivity. }
    assert (Hrange : forall p, 0 <= p -> Z.testbit cb1 p = true ->
               8 - (bc + 1) <= p < 8).
    { intros p Hp Ht. rewrite Hcb1 in Ht by lia.
      apply orb_true_iff in Ht as [Ht|Ht].
      - apply Hcb in Ht; lia.
      - apply andb_true_iff in Ht as [_ Ht]. apply Z.eqb_eq in Ht. lia. }
    assert (Hlen : len (bit :: rest) = len rest + 1)
      by (unfold len; cbn [length]; lia).
    rewrite Hlen. pose proof (len_nonneg rest) as Hrest.
    destruct (bc + 1 =? 8) eqn:E8.
    + apply Z.eqb_eq in E8.
      destruct (IH 0 0 (data ++ [cb1])) as (H1 & H2 & _ & H4); [lia| |].
      { intros p Hp Ht. rewrite Z.bits_0 in Ht. discriminate. }
      rewrite length_app in H1, H2, H4. cbn [length] in H1, H2, H4.
      assert (Hcur : nth (length data)
                       (Huffman.writeBitsLoop rest 0 0 (data ++ [cb1])) 0
                     = cb1).
      { rewrite H2 by lia. rewrite app_nth2, Nat.sub_diag by lia.
        reflexivity. }
      split; [rewrite H1; Z.div_mod_to_equations; lia|].
      split; [intros q Hq; rewrite H2 by lia; apply app_nth1; exact Hq|].
      split; [intros j Hj; rewrite Hcur; apply Hold; exact Hj|].
      intros k Hk. destruct (Z.eq_dec k 0) as [->|Hne].
      * replace (Z.to_nat ((bc + 0) / 8)) with 0%nat
          by (Z.div_mod_to_equations; lia).
        rewrite Nat.add_0_r, Hcur.
        replace (7 - (bc + 0) mod 8) with (7 - bc)
          by (Z.div_mod_to_equations; lia).
        exact Hnew.
      * specialize (H4 (k - 1) ltac:(lia)).
        replace (Z.to_nat k) with (S (Z.to_nat (k - 1))) by lia.
        cbn [nth]. rewrite <- H4. f_equal; [f_equal|];
          Z.div_mod_to_equations; lia.
    + apply Z.eqb_neq in E8.
      destruct (IH cb1 (bc + 1) data) as (H1 & H2 & H3 & H4);
        [lia | exact Hrange |].
      split; [rewrite H1; f_equal; f_equal; lia|].
      split; [exact H2|].
      split; [intros j Hj; rewrite H3 by lia; apply Hold; exact Hj|].
      intros k Hk. destruct (Z.eq_dec k 0) as [->|Hne].
      * replace (Z.to_nat ((bc + 0) / 8)) with 0%nat
          by (Z.div_mod_to_equations; lia).
        rewrite Nat.add_0_r.
        replace (7 - (bc + 0) mod 8) with (7 - bc)
          by (Z.div_mod_to_equations; lia).
        rewrite H3 by lia. exact Hnew.
      * specialize (H4 (k - 1) ltac:(lia)).
        replace (Z.to_nat k) with (S (Z.to_nat (k - 1))) by lia.
        cbn [nth]. rewrite <- H4.
        replace (bc + 1 + (k - 1)) with (bc + k) by lia. reflexivity.
Qed.

Lemma writeBits_spec bits :
  Z.of_nat (length (Huffman.writeBits [] bits)) = (len bits + 7) / 8 /\
  forall k, 0 <= k < len bits ->
            bit_at (Huffman.writeBits [] bits) k
            = is_one (nth (Z.to_nat k) bits zero).
Proof.
  unfold Huffman.writeBits.
  destruct (writeBitsLoop_spec bits 0 0 []) as (H1 & _ & _ & H4); [lia| |].
  { intros p Hp Ht. rewrite Z.bits_0 in Ht. discriminate. }
  cbn [length] in H1, H4. split; [rewrite H1; f_equal; lia|].
  intros k Hk. unfold bit_at. specialize (H4 k Hk).
  cbn [Nat.add] in H4. rewrite Z.add_0_l in H4. exact H4.
Qed.

Lemma land_shiftr_bit x s :
  0 <= s -> negb (Z.land (Z.shiftr x s) 1 =? 0) = Z.testbit x s.
Proof.
  intros Hs. rewrite Z.testbit_odd. change 1 with (Z.ones 1) at 1.
  rewrite Z.land_ones by lia. change (2 ^ 1) with 2. rewrite Zmod_odd.
  destruct (Z.odd (Z.shiftr x s)); reflexivity.
Qed.

Lemma readBitsLoop_spec bits :
  forall n idx result,
    0 <= idx -> idx + Z.of_nat n <= len bits ->
    Huffman.readBitsLoop n (Huffman.writeBits [] bits) idx result
    = (result ++ map (fun bit => if is_one bit then "1"%char else "0"%char)
                   (take n (drop (Z.to_nat idx) bits)),
       idx + Z.of_nat n).
Proof.
  destruct (writeBits_spec bits) as [Hlen Hbits].
  induction n as [|n IH]; intros idx result Hi Hb; cbn [Huffman.readBitsLoop].
  - rewrite take_0. cbn. rewrite app_nil_r, Z.add_0_r. reflexivity.
  - cbv zeta. rewrite Hlen.
    replace ((len bits + 7) / 8 <=? idx / 8) with false
      by (symmetry; apply Z.leb_gt; Z.div_mod_to_equations; lia).
    rewrite land_shiftr_bit by (Z.div_mod_to_equations; lia).
    fold (bit_at (Huffman.writeBits [] bits) idx).
    rewrite Hbits by lia. rewrite IH by lia.
    assert (Hlt : (Z.to_nat idx < length bits)%nat) by (unfold len in *; lia).
    destruct (lookup_lt_is_Some_2 bits _ Hlt) as [b Hb'].
    rewrite (drop_S _ _ _ Hb'). cbn [take map].
    rewrite (nth_lookup_Some _ _ _ _ Hb'), <- app_assoc. cbn [app].
    replace (Z.to_nat (idx + 1)) with (S (Z.to_nat idx)) by lia.
    f_equal. lia.
Qed.

(** X22.  [readBits] reads back what [writeBits] has written: the bits of
    a string written into an empty buffer are read, from bit index 0, as
    the same string with every character other than '1' turned into '0',
    and the bit index ends at the number of bits; the buffer holds
    [(n + 7) / 8] bytes for [n] bits, most significant bit first: bit [k]
    of the string is bit [7 - k mod 8] of byte [k / 8], set exactly when
    the character is '1'. *)
Theorem readBits_of_writeBits bits :
  Huffman.readBits (Huffman.writeBits [] bits) 0 (len bits)
  = (map (fun bit => if is_one bit then "1"%char else "0"%char) bits,
     len bits) /\
  Z.of_nat (length (Huffman.writeBits [] bits)) = (len bits + 7) / 8 /\
  (forall k, 0 <= k < len bits ->
     Z.testbit (nth (Z.to_nat (k / 8)) (Huffman.writeBits [] bits) 0)
       (7 - k mod 8)
     = is_one (nth (Z.to_nat k) bits zero)).
Proof.
  split; [|split; [apply writeBits_spec|]].
  2:{ intros k Hk. apply (proj2 (writeBits_spec bits) k Hk). }
  unfold Huffman.readBits. rewrite readBitsLoop_spec by (unfold len; lia).
  unfold len. rewrite Nat2Z.id. change (Z.to_nat 0) with 0%nat.
  rewrite drop_0, take_ge by lia. reflexivity.
Qed.

Lemma ascii_eqb_refl c : ascii_eqb c c = true.
Proof. apply Ascii.eqb_refl. Qed.

Lemma bump_same c k t : Huffman.bump ((c, k) :: t) c = (c, k + 1) :: t.
Proof. cbn. rewrite ascii_eqb_refl. reflexivity. Qed.

Lemma bump_replicate n c k :
  fold_left Huffman.bump (replicate n c) [(c, k)] = [(c, k + Z.of_nat n)].
Proof.
  revert k. induction n as [|n IH]; intros k; cbn [replicate fold_left].
  - rewrite Z.add_0_r. reflexivity.
  - rewrite bump_same, IH. do 2 f_equal. lia.
Qed.

Lemma decodeLoop_leaf c f b rest :
  Huffman.decodeLoop (Huffman.Leaf c f) (b :: rest)
    (Some (Huffman.Leaf c f), []) = None.
Proof.
  cbn [Huffman.decodeLoop foldl]. unfold Huffman.decodeBit at 8.
  cbn [mbind option_bind Huffman.right Huffman.left].
  replace (if negb (Z.land (Z.shiftr b 7) 1 =? 0) then None else None)
    with (@None Huffman.HuffmanNode) by (destruct (negb _); reflexivity).
  reflexivity.
Qed.

(** X23.  A text that consists of one character repeated cannot be
    decompressed: the tree is a single leaf, and [decodeText] follows a
    child pointer of that leaf, which is null, and dereferences it at the
    next bit. *)
Theorem decompress_single_character_text_fails c n :
  (0 < n)%nat ->
  Huffman.decompress
    (fst (Huffman.compress (replicate n c) Huffman.init))
    (snd (Huffman.compress (replicate n c) Huffman.init)) = None.
Proof.
  intros Hn. destruct n as [|n]; [lia|].
  unfold Huffman.compress. cbn [replicate]. cbv zeta. cbn [fst snd].
  change (c :: replicate n c) with (replicate (S n) c).
  assert (Ht : Huffman.buildFrequencyTable (replicate (S n) c)
               = [(c, Z.of_nat (S n))]).
  { unfold Huffman.buildFrequencyTable. cbn [replicate fold_left].
    change (Huffman.bump [] c) with [(c, 1)].
    rewrite bump_replicate. do 2 f_equal. lia. }
  rewrite Ht.
  change (Huffman.buildHuffmanTree [(c, Z.of_nat (S n))])
    with (Some (Huffman.Leaf c (Z.of_nat (S n)))).
  unfold Huffman.decompress, Huffman.serializeTree. cbn [app].
  unfold Huffman.decodeText. cbn [Huffman.root_ Huffman.skipTree].
  change (255 =? 255) with true. cbv iota.
  set (codes := Huffman.generateHuffmanCodes _).
  destruct (Huffman.encodeText codes (replicate (S n) c)) as [|b rest] eqn:E.
  - exfalso.
    assert (Hl : Z.of_nat (length (Huffman.encodeText codes
                                     (replicate (S n) c))) = 0)
      by (rewrite E; reflexivity).
    unfold Huffman.encodeText in Hl. cbv zeta in Hl.
    rewrite (proj1 (writeBits_spec _)) in Hl.
    assert (Hbits : forall m acc,
               fold_left (fun acc0 c0 =>
                            match Huffman.lookup codes c0 with
                            | Some code => acc0 ++ code
                            | None => acc0
                            end) (replicate m c) acc
               = acc ++ replicate m "0"%char).
    { induction m as [|m IHm]; intros acc; cbn [replicate fold_left].
      - rewrite app_nil_r. reflexivity.
      - assert (Hc : Huffman.lookup codes c = Some (str "0"))
          by (unfold codes; cbn; rewrite ascii_eqb_refl; reflexivity).
        rewrite Hc, IHm, <- app_assoc. reflexivity. }
    rewrite Hbits in Hl. unfold len in Hl.
    rewrite length_app, length_replicate in Hl. cbn [length] in Hl.
    Z.div_mod_to_equations. lia.
  - apply decodeLoop_leaf.
Qed.

Lemma decompress_single_character_text_fails_witness :
  Huffman.decompress
    (fst (Huffman.compress (str "aaa") Huffman.init))
    (snd (Huffman.compress (str "aaa") Huffman.init)) = None.
Proof.
  apply (decompress_single_character_text_fails "a"%char 3). lia.
Defined.

(** *** Decoding what was encoded *)

Lemma decodeBit_step root byte bit st :
  Huffman.decodeBit root byte bit st
  = decodeStep root (negb (Z.land (Z.shiftr byte bit) 1 =? 0)) st.
Proof.
  unfold decodeStep, Huffman.decodeBit. destruct st as [current result].
  destruct (negb (Z.land (Z.shiftr byte bit) 1 =? 0)); reflexivity.
Qed.

Lemma foldl_decodeBit root b positions acc :
  foldl (fun acc bit => s ← acc; Huffman.decodeBit root b bit s) acc positions
  = foldl (fun acc bv => s ← acc; decodeStep root bv s) acc
      (map (fun bit => negb (Z.land (Z.shiftr b bit) 1 =? 0)) positions).
Proof.
  revert acc. induction positions as [|bit positions IH]; intros acc;
    [reflexivity|].
  cbn [map foldl]. rewrite IH. f_equal.
  destruct acc as [s|]; cbn; [apply decodeBit_step | reflexivity].
Qed.

Lemma walk_app root p1 p2 acc :
  walk root (p1 ++ p2) acc = walk root p2 (walk root p1 acc).
Proof. unfold walk. apply foldl_app. Qed.

Lemma walk_None root bits : walk root bits None = None.
Proof. induction bits as [|b bits IH]; [reflexivity | exact IH]. Qed.

Lemma decodeLoop_walk root bytes st :
  Huffman.decodeLoop root bytes st
  = snd <$> walk root (flat_map bits_of_byte bytes) (Some st).
Proof.
  revert st. induction bytes as [|b bytes IH]; intros st; [reflexivity|].
  cbn [Huffman.decodeLoop flat_map]. rewrite walk_app.
  rewrite foldl_decodeBit. fold (bits_of_byte b).
  fold (walk root (bits_of_byte b) (Some st)).
  destruct (walk root (bits_of_byte b) (Some st)) as [st'|].
  - cbn [mbind option_bind]. apply IH.
  - cbn [mbind option_bind]. rewrite walk_None. reflexivity.
Qed.

Lemma decodeStep_internal root f l r b result :
  decodeStep root b (Some (Huffman.Merged f l r), result)
  = match (if b then r else l) with
    | Huffman.Leaf c _ => Some (Some root, result ++ [c])
    | child => Some (Some child, result)
    end.
Proof.
  unfold decodeStep, Huffman.decodeBit. destruct b; cbn;
    [destruct r | destruct l]; reflexivity.
Qed.

(** Walking the bits of a path emits the character of its leaf and
    returns to the root. *)
Lemma walk_path root c :
  forall p node result,
    p <> [] -> path node p c ->
    walk root p (Some (Some node, result))
    = Some (Some root, result ++ [c]).
Proof.
  induction p as [|b p IH]; intros node result Hne Hp; [congruence|].
  destruct node as [c' f|f l r]; cbn [path] in Hp; [contradiction|].
  unfold walk. cbn [foldl mbind option_bind].
  rewrite decodeStep_internal.
  destruct p as [|b' p'].
  - destruct (if b then r else l) as [c''|]; cbn [path] in Hp;
      [subst; reflexivity | contradiction].
  - destruct (if b then r else l) as [c''|f' l' r'] eqn:E;
      [cbn [path] in Hp; contradiction|].
    apply (IH (Huffman.Merged f' l' r') result); [congruence | exact Hp].
Qed.

(** From an inner node, any bits can be walked: no null pointer is met,
    and at most one character is emitted for each bit. *)
Lemma walk_total root :
  Huffman.isLeaf root = false ->
  forall bits node result,
    Huffman.isLeaf node = false ->
    exists node' extra,
      walk root bits (Some (Some node, result))
      = Some (Some node', result ++ extra) /\
      Huffman.isLeaf node' = false /\
      (length extra <= length bits)%nat.
Proof.
  intros Hroot. induction bits as [|b bits IH]; intros node result Hn.
  - exists node, []. rewrite app_nil_r. split; [reflexivity|].
    split; [exact Hn | cbn; lia].
  - destruct node as [c f|f l r]; [discriminate|].
    unfold walk. cbn [foldl mbind option_bind].
    rewrite decodeStep_internal.
    destruct (if b then r else l) as [c|f' l' r'].
    + destruct (IH root (result ++ [c]) Hroot) as (node' & extra & Hw & Hl & He).
      exists node', (c :: extra). unfold walk in Hw. rewrite Hw.
      rewrite <- app_assoc. split; [reflexivity|].
      split; [exact Hl | cbn; lia].
    + destruct (IH (Huffman.Merged f' l' r') result eq_refl)
        as (node' & extra & Hw & Hl & He).
      exists node', extra. unfold walk in Hw. rewrite Hw.
      split; [reflexivity|]. split; [exact Hl | cbn; lia].
Qed.

Lemma lookup_assign {V} (table : list (ascii * V)) c x c' :
  Huffman.lookup (Huffman.assign table c x) c'
  = if ascii_eqb c c' then Some x else Huffman.lookup table c'.
Proof.
  induction table as [|[k v] table IH]; cbn.
  - destruct (ascii_eqb c c'); reflexivity.
  - destruct (ascii_eqb k c) eqn:E; cbn.
    + apply ascii_eqb_eq in E. subst k.
      destruct (ascii_eqb c c'); reflexivity.
    + destruct (ascii_eqb k c') eqn:E'; [|exact IH].
      apply ascii_eqb_eq in E'. subst k.
      unfold ascii_eqb in *. rewrite Ascii.eqb_sym, E. reflexivity.
Qed.

Lemma bits_of_code_of_bits p : bits_of_code (code_of_bits p) = p.
Proof.
  unfold bits_of_code, code_of_bits. rewrite map_map.
  induction p as [|[|] p IH]; cbn; [reflexivity | |]; f_equal; exact IH.
Qed.

Lemma bits_of_code_app a b :
  bits_of_code (a ++ b) = bits_of_code a ++ bits_of_code b.
Proof. apply map_app. Qed.

Lemma code_of_bits_app p q :
  code_of_bits (p ++ q) = code_of_bits p ++ code_of_bits q.
Proof. apply map_app. Qed.

(** Every code in the table is the path to a leaf for its character. *)
Lemma generateCodesHelper_spec :
  forall node prefix codes c code,
    Huffman.lookup
      (Huffman.generateCodesHelper node (code_of_bits prefix) codes) c
    = Some code ->
    Huffman.lookup codes c = Some code \/
    exists p, code = code_of_bits (prefix ++ p) /\ path node p c.
Proof.
  induction node as [c' f|f l IHl r IHr]; intros prefix codes c code H;
    cbn [Huffman.generateCodesHelper] in H.
  - rewrite lookup_assign in H. destruct (ascii_eqb c' c) eqn:E.
    + apply ascii_eqb_eq in E. injection H as <-. right. exists [].
      rewrite app_nil_r. split; [reflexivity | exact E].
    + left. exact H.
  - change (str "1") with (code_of_bits [true]) in H.
    change (str "0") with (code_of_bits [false]) in H.
    rewrite <- !code_of_bits_app in H.
    apply IHr in H as [H|(p & -> & Hp)].
    + apply IHl in H as [H|(p & -> & Hp)]; [left; exact H|].
      right. exists (false :: p). rewrite <- app_assoc. split; [reflexivity|].
      exact Hp.
    + right. exists (true :: p). rewrite <- app_assoc. split; [reflexivity|].
      exact Hp.
Qed.

(** Every character at a leaf has a code. *)
Lemma generateCodesHelper_total :
  forall node prefix codes c,
    In c (leaves node) \/ is_Some (Huffman.lookup codes c) ->
    is_Some (Huffman.lookup
               (Huffman.generateCodesHelper node prefix codes) c).
Proof.
  induction node as [c' f|f l IHl r IHr]; intros prefix codes c H;
    cbn [Huffman.generateCodesHelper leaves] in *.
  - rewrite lookup_assign. destruct (ascii_eqb c' c) eqn:E; [eexists; reflexivity|].
    destruct H as [[->|[]]|H]; [|exact H].
    rewrite ascii_eqb_refl in E. discriminate.
  - apply IHr. destruct H as [H|H].
    + apply in_app_iff in H as [H|H]; [|left; exact H].
      right. apply IHl. left. exact H.
    + right. apply IHl. right. exact H.
Qed.

Lemma path_nonempty f l r p c :
  path (Huffman.Merged f l r) p c -> p <> [].
Proof. destruct p; cbn; [contradiction | congruence]. Qed.

Lemma fold_codes codes text :
  forall acc,
    fold_left (fun acc c => match Huffman.lookup codes c with
                            | Some code => acc ++ code
                            | None => acc
                            end) text acc
    = acc ++ flat_map (fun c => default ([] : cstring) (Huffman.lookup codes c)) text.
Proof.
  induction text as [|c text IH]; intros acc; cbn [fold_left flat_map].
  - rewrite app_nil_r. reflexivity.
  - rewrite IH. destruct (Huffman.lookup codes c); cbn [default].
    + rewrite <- app_assoc. reflexivity.
    + reflexivity.
Qed.

(** The bit string of a text whose characters all have codes, walked from
    the root, gives the text. *)
Lemma walk_encoded root codes :
  (forall c code, Huffman.lookup codes c = Some code ->
                  exists p, code = code_of_bits p /\ p <> [] /\
                            path root p c) ->
  forall text result,
    Forall (fun c => is_Some (Huffman.lookup codes c)) text ->
    walk root
      (bits_of_code
         (flat_map (fun c => default ([] : cstring) (Huffman.lookup codes c)) text))
      (Some (Some root, result))
    = Some (Some root, result ++ text).
Proof.
  intros Hcodes. induction text as [|c text IH]; intros result Hall.
  - rewrite app_nil_r. reflexivity.
  - inversion Hall as [|? ? [code Hc] Hrest]; subst.
    cbn [flat_map]. rewrite Hc. cbn [default].
    destruct (Hcodes c code Hc) as (p & -> & Hne & Hp).
    unfold id.
    rewrite bits_of_code_app, bits_of_code_of_bits, walk_app,
      (walk_path root c p root result Hne Hp).
    rewrite IH by exact Hrest. rewrite <- app_assoc. reflexivity.
Qed.

(** The bits of the bytes, in reading order. *)
Lemma nth_bits_of_byte b (k : nat) :
  (k < 8)%nat ->
  nth k (bits_of_byte b) false = Z.testbit b (7 - Z.of_nat k).
Proof.
  intros Hk. unfold bits_of_byte.
  do 8 (destruct k as [|k]; [cbn [map nth]; apply land_shiftr_bit; lia|]).
  lia.
Qed.

Lemma nth_flat_bits data :
  forall k : nat,
    (k < 8 * length data)%nat ->
    nth k (flat_map bits_of_byte data) false = bit_at data (Z.of_nat k).
Proof.
  induction data as [|b data IH]; intros k Hk; [cbn in Hk; lia|].
  cbn [flat_map]. unfold bit_at.
  destruct (Nat.lt_ge_cases k 8) as [Hlt|Hge].
  - rewrite app_nth1 by (unfold bits_of_byte; cbn; lia).
    rewrite nth_bits_of_byte by exact Hlt.
    replace (Z.to_nat (Z.of_nat k / 8)) with 0%nat
      by (Z.div_mod_to_equations; lia).
    cbn [nth]. f_equal. Z.div_mod_to_equations. lia.
  - rewrite app_nth2 by (unfold bits_of_byte; cbn; lia).
    replace (length (bits_of_byte b)) with 8%nat by reflexivity.
    rewrite IH by (cbn [length] in Hk; lia). unfold bit_at.
    replace (Z.to_nat (Z.of_nat k / 8))
      with (S (Z.to_nat (Z.of_nat (k - 8) / 8)))
      by (Z.div_mod_to_equations; lia).
    cbn [nth]. f_equal. Z.div_mod_to_equations. lia.
Qed.

Lemma length_flat_bits data :
  length (flat_map bits_of_byte data) = (8 * length data)%nat.
Proof.
  induction data as [|b data IH]; [reflexivity|].
  cbn [flat_map]. rewrite length_app, IH. cbn [length].
  replace (length (bits_of_byte b)) with 8%nat by reflexivity. lia.
Qed.

(** The bytes that [writeBits] produces hold the bits of the string,
    followed by fewer than 8 further bits. *)
Lemma bits_of_writeBits bits :
  exists junk,
    flat_map bits_of_byte (Huffman.writeBits [] bits)
    = bits_of_code bits ++ junk /\
    (length junk < 8)%nat.
Proof.
  destruct (writeBits_spec bits) as [Hlen Hbits].
  set (out := Huffman.writeBits [] bits) in *.
  assert (Hn : (length bits <= 8 * length out)%nat).
  { unfold len in Hlen. Z.div_mod_to_equations. lia. }
  exists (drop (length bits) (flat_map bits_of_byte out)). split.
  - rewrite <- (take_drop (length bits) (flat_map bits_of_byte out)) at 1.
    f_equal. apply (nth_ext _ _ false false).
    + rewrite length_take, length_flat_bits. unfold bits_of_code.
      rewrite length_map. lia.
    + intros k Hk. rewrite length_take, length_flat_bits in Hk.
      rewrite nth_firstn.
      replace (k <? length bits)%nat with true
        by (symmetry; apply Nat.ltb_lt; lia).
      rewrite nth_flat_bits by lia.
      rewrite Hbits by (unfold len; lia). rewrite Nat2Z.id.
      unfold bits_of_code.
      rewrite (nth_indep _ false (is_one zero))
        by (rewrite length_map; lia).
      rewrite map_nth. reflexivity.
  - rewrite length_drop, length_flat_bits. unfold len in Hlen.
    Z.div_mod_to_equations. lia.
Qed.

(** Decoding the encoded text from a tree that is not a single leaf and
    has a path for every code. *)
Lemma decode_encoded root codes text :
  Huffman.isLeaf root = false ->
  (forall c code, Huffman.lookup codes c = Some code ->
                  exists p, code = code_of_bits p /\ p <> [] /\
                            path root p c) ->
  Forall (fun c => is_Some (Huffman.lookup codes c)) text ->
  exists extra,
    Huffman.decodeLoop root (Huffman.encodeText codes text) (Some root, [])
    = Some (text ++ extra) /\
    (length extra < 8)%nat.
Proof.
  intros Hroot Hcodes Hall. rewrite decodeLoop_walk.
  unfold Huffman.encodeText. cbv zeta. rewrite fold_codes. cbn [app].
  destruct (bits_of_writeBits
              (flat_map (fun c => default ([] : cstring) (Huffman.lookup codes c)) text))
    as (junk & -> & Hj).
  rewrite walk_app, (walk_encoded root codes Hcodes text [] Hall).
  cbn [app].
  destruct (walk_total root Hroot junk root text Hroot)
    as (node' & extra & Hw & _ & He).
  rewrite Hw. exists extra. split; [reflexivity | lia].
Qed.

(** *** The tree that is built for a text *)

Lemma bump_keys table c c' :
  In c' (map fst (Huffman.bump table c)) <-> c' = c \/ In c' (map fst table).
Proof.
  induction table as [|[k v] table IH]; cbn.
  - intuition congruence.
  - destruct (ascii_eqb k c) eqn:E; cbn.
    + apply ascii_eqb_eq in E. subst k. intuition congruence.
    + rewrite IH. intuition congruence.
Qed.

Lemma buildFrequencyTable_keys text c :
  In c (map fst (Huffman.buildFrequencyTable text)) <-> In c text.
Proof.
  unfold Huffman.buildFrequencyTable.
  assert (H : forall acc,
             In c (map fst (fold_left Huffman.bump text acc))
             <-> In c text \/ In c (map fst acc)).
  { induction text as [|x text IH]; intros acc; cbn [fold_left In].
    - intuition.
    - rewrite IH, bump_keys. intuition congruence. }
  rewrite H. cbn. intuition.
Qed.

Lemma popMin_spec pq :
  match Huffman.popMin pq with
  | Some (m, rest) =>
      length pq = S (length rest) /\
      forall c, In c (flat_map leaves pq)
                <-> In c (leaves m) \/ In c (flat_map leaves rest)
  | None => pq = []
  end.
Proof.
  induction pq as [|x pq IH]; cbn [Huffman.popMin]; [reflexivity|].
  destruct (Huffman.popMin pq) as [[m rest]|].
  - destruct IH as [Hl Hc].
    destruct (Huffman.frequency x <=? Huffman.frequency m).
    + split; [reflexivity|]. intros c. cbn [flat_map].
      rewrite in_app_iff. reflexivity.
    + split; [cbn [length]; lia|]. intros c. cbn [flat_map].
      rewrite !in_app_iff, Hc. tauto.
  - subst pq. split; [reflexivity|]. intros c. cbn. rewrite app_nil_r.
    tauto.
Qed.

Lemma buildLoop_spec fuel :
  forall pq,
    (forall c, In c (flat_map leaves (Huffman.buildLoop fuel pq))
               <-> In c (flat_map leaves pq)) /\
    ((length pq <= fuel + 1)%nat -> pq <> [] ->
     length (Huffman.buildLoop fuel pq) = 1%nat).
Proof.
  induction fuel as [|fuel IH]; intros pq; cbn [Huffman.buildLoop].
  - split; [reflexivity|]. intros Hl Hne.
    destruct pq; [congruence | cbn [length] in *; lia].
  - destruct (1 <? length pq)%nat eqn:E.
    2:{ apply Nat.ltb_ge in E. split; [reflexivity|]. intros _ Hne.
        destruct pq; [congruence | cbn [length] in *; lia]. }
    apply Nat.ltb_lt in E.
    pose proof (popMin_spec pq) as H1.
    destruct (Huffman.popMin pq) as [[l pq1]|]; [|subst; cbn in E; lia].
    destruct H1 as [Hl1 Hc1].
    pose proof (popMin_spec pq1) as H2.
    destruct (Huffman.popMin pq1) as [[r pq2]|];
      [|subst; cbn [length] in *; lia].
    destruct H2 as [Hl2 Hc2].
    destruct (IH (pq2 ++ [Huffman.Merged (Huffman.frequency l
                                          + Huffman.frequency r) l r]))
      as [Hc Hl].
    split.
    + intros c. rewrite Hc, flat_map_app, in_app_iff. cbn [flat_map leaves].
      rewrite app_nil_r, in_app_iff, Hc1, Hc2. tauto.
    + intros Hlen _. apply Hl.
      * rewrite length_app. cbn [length]. lia.
      * destruct pq2; discriminate.
Qed.

Lemma buildHuffmanTree_spec table :
  table <> [] ->
  exists root,
    Huffman.buildHuffmanTree table = Some root /\
    forall c, In c (leaves root) <-> In c (map fst table).
Proof.
  intros Hne. unfold Huffman.buildHuffmanTree. cbv zeta.
  set (pq := map (fun kv => Huffman.Leaf (fst kv) (snd kv)) table).
  assert (Hpq : pq <> []) by (destruct table; [congruence | discriminate]).
  destruct (buildLoop_spec (length pq) pq) as [Hc Hl].
  specialize (Hl ltac:(lia) Hpq).
  destruct (Huffman.buildLoop (length pq) pq) as [|root [|y rest]] eqn:E;
    try discriminate.
  exists root. split; [reflexivity|]. intros c.
  specialize (Hc c). cbn [flat_map] in Hc. rewrite app_nil_r in Hc.
  rewrite Hc. unfold pq. clear.
  induction table as [|[k v] table IH]; [reflexivity|].
  cbn [map flat_map leaves app In fst]. rewrite IH. reflexivity.
Qed.

Lemma huffman_round_trip hc text a b :
  In a text -> In b text -> a <> b ->
  exists extra,
    Huffman.decompress
      (fst (Huffman.compress text hc))
      (snd (Huffman.compress text hc))
    = Some (text ++ extra) /\
    (length extra < 8)%nat.
Proof.
  intros Ha Hb Hab. unfold Huffman.compress.
  destruct text as [|c0 text0] eqn:Et; [contradiction|].
  rewrite <- Et in *. clear Et. cbv zeta. cbn [fst snd].
  destruct (buildHuffmanTree_spec (Huffman.buildFrequencyTable text))
    as (root & Hroot & Hleaves).
  { intros Hnil. apply (buildFrequencyTable_keys text a) in Ha.
    rewrite Hnil in Ha. contradiction. }
  rewrite Hroot.
  assert (Hall : forall c, In c text -> In c (leaves root)).
  { intros c Hc. apply Hleaves, buildFrequencyTable_keys, Hc. }
  assert (Hinner : Huffman.isLeaf root = false).
  { destruct root as [c f|]; [|reflexivity].
    apply Hall in Ha, Hb. cbn in Ha, Hb. intuition congruence. }
  destruct root as [|f l r]; [discriminate|].
  set (root := Huffman.Merged f l r) in *.
  change (Huffman.generateHuffmanCodes (Some root))
    with (Huffman.generateCodesHelper root (code_of_bits []) []).
  set (codes := Huffman.generateCodesHelper root (code_of_bits []) []).
  unfold Huffman.decompress, Huffman.serializeTree. cbn [app].
  unfold Huffman.decodeText. cbn [Huffman.root_ Huffman.skipTree].
  change (255 =? 255) with true. cbv iota.
  apply (decode_encoded root codes text Hinner).
  - intros c code Hc. unfold codes in Hc.
    apply generateCodesHelper_spec in Hc as [Hc|(p & -> & Hp)];
      [discriminate|].
    exists p. split; [reflexivity|]. split; [|exact Hp].
    exact (path_nonempty _ _ _ _ _ Hp).
  - apply Forall_forall. intros c Hc. apply list_elem_of_In in Hc.
    unfold codes.
    apply generateCodesHelper_total. left. apply Hall, Hc.
Qed.


(** X24.  For a text in which two different characters occur,
    [decompress] of [compress] (in the same engine, whatever it held
    before) returns the text followed by fewer than 8 further characters:
    the bits that pad the last byte are decoded as well. *)
Theorem decompress_of_compress_appends_padding hc text a b :
  In a text -> In b text -> a <> b ->
  exists extra,
    Huffman.decompress
      (fst (Huffman.compress text hc))
      (snd (Huffman.compress text hc))
    = Some (text ++ extra) /\
    (length extra < 8)%nat.
Proof. apply huffman_round_trip. Qed.

Lemma decompress_of_compress_appends_padding_witness :
  exists extra,
    Huffman.decompress
      (fst (Huffman.compress (str "abc") Huffman.init))
      (snd (Huffman.compress (str "abc") Huffman.init))
    = Some (str "abc" ++ extra) /\
    (length extra < 8)%nat.
Proof.
  apply (decompress_of_compress_appends_padding Huffman.init (str "abc")
           "a"%char "b"%char).
  - cbn. tauto.
  - cbn. tauto.
  - discriminate.
Defined.

(** *** The rolling hash *)

Lemma cong_refl m a : cong m a a.
Proof. unfold cong. rewrite Z.sub_diag. apply Z.divide_0_r. Qed.

Lemma cong_rem m a : cong m (Z.rem a m) a.
Proof.
  unfold cong. exists (- Z.quot a m).
  pose proof (Z.quot_rem' a m). lia.
Qed.

Lemma cong_mod m a : cong m (a mod m) a.
Proof.
  unfold cong. destruct (Z.eq_dec m 0) as [->|Hm].
  - rewrite Z.mod_0_r, Z.sub_diag. apply Z.divide_0_r.
  - exists (- (a / m)). pose proof (Z.div_mod a m Hm). lia.
Qed.

Lemma cong_trans m a b c : cong m a b -> cong m b c -> cong m a c.
Proof.
  unfold cong. intros [x Hx] [y Hy]. exists (x + y). lia.
Qed.

Lemma cong_sym m a b : cong m a b -> cong m b a.
Proof. unfold cong. intros [x Hx]. exists (- x). lia. Qed.

Lemma cong_add m a a' b b' :
  cong m a a' -> cong m b b' -> cong m (a + b) (a' + b').
Proof. unfold cong. intros [x Hx] [y Hy]. exists (x + y). lia. Qed.

Lemma cong_sub m a a' b b' :
  cong m a a' -> cong m b b' -> cong m (a - b) (a' - b').
Proof. unfold cong. intros [x Hx] [y Hy]. exists (x - y). lia. Qed.

Lemma cong_mul m a a' b b' :
  cong m a a' -> cong m b b' -> cong m (a * b) (a' * b').
Proof.
  unfold cong. intros [x Hx] [y Hy]. exists (x * b + a' * y).
  replace (a * b - a' * b') with ((a - a') * b + a' * (b - b')) by ring.
  rewrite Hx, Hy. ring.
Qed.

Lemma cong_small m a b :
  0 <= a < m -> 0 <= b < m -> cong m a b -> a = b.
Proof.
  unfold cong. intros Ha Hb [x Hx]. assert (x = 0) by nia. lia.
Qed.

Lemma char_val_seven_bit c :
  (nat_of_ascii c < 128)%nat -> 0 <= Search.char_val c < 128.
Proof.
  intros H. unfold Search.char_val. cbv zeta.
  replace (Z.of_nat (nat_of_ascii c) <? 128) with true
    by (symmetry; apply Z.ltb_lt; lia).
  lia.
Qed.

(** The hash is congruent to the value of the window. *)
Lemma hashLoop_cong base mod_ s :
  forall n i hash power,
    cong mod_ (Search.hashLoop n s i base mod_ hash power)
      (hash + power * window_value n s i base).
Proof.
  induction n as [|n IH]; intros i hash power;
    cbn [Search.hashLoop window_value].
  - rewrite Z.mul_0_r, Z.add_0_r. apply cong_refl.
  - eapply cong_trans; [apply IH|].
    replace (hash + power * (Search.char_val (char_at s i)
                             + base * window_value n s (i - 1) base))
      with ((hash + Search.char_val (char_at s i) * power)
            + (power * base) * window_value n s (i - 1) base) by ring.
    apply cong_add.
    + eapply cong_trans; [apply cong_rem|].
      apply cong_add; [apply cong_refl | apply cong_rem].
    + apply cong_mul; [apply cong_rem | apply cong_refl].
Qed.

(** The hash depends on the characters of the window only. *)
Lemma hashLoop_ext base mod_ s s' :
  forall n i i' hash power,
    (forall k, 0 <= k < Z.of_nat n -> char_at s (i - k) = char_at s' (i' - k)) ->
    Search.hashLoop n s i base mod_ hash power
    = Search.hashLoop n s' i' base mod_ hash power.
Proof.
  induction n as [|n IH]; intros i i' hash power H; cbn [Search.hashLoop];
    [reflexivity|].
  replace (char_at s i) with (char_at s' i')
    by (specialize (H 0 ltac:(lia)); rewrite !Z.sub_0_r in H; congruence).
  apply IH. intros k Hk. specialize (H (k + 1) ltac:(lia)).
  replace (i - 1 - k) with (i - (k + 1)) by lia.
  replace (i' - 1 - k) with (i' - (k + 1)) by lia. exact H.
Qed.

Lemma window_value_ext base s s' :
  forall n i i',
    (forall k, 0 <= k < Z.of_nat n -> char_at s (i - k) = char_at s' (i' - k)) ->
    window_value n s i base = window_value n s' i' base.
Proof.
  induction n as [|n IH]; intros i i' H; cbn [window_value]; [reflexivity|].
  specialize (H 0 ltac:(lia)) as H0. rewrite !Z.sub_0_r in H0. rewrite H0.
  f_equal. f_equal. apply IH. intros k Hk. specialize (H (k + 1) ltac:(lia)).
  replace (i - 1 - k) with (i - (k + 1)) by lia.
  replace (i' - 1 - k) with (i' - (k + 1)) by lia. exact H.
Qed.

(** The most significant character of a window. *)
Lemma window_value_top base s :
  forall n i,
    window_value (S n) s i base
    = window_value n s i base
      + base ^ Z.of_nat n * Search.char_val (char_at s (i - Z.of_nat n)).
Proof.
  induction n as [|n IH]; intros i.
  - cbn [window_value Z.of_nat]. rewrite Z.sub_0_r, Z.pow_0_r. ring.
  - change (window_value (S (S n)) s i base)
      with (Search.char_val (char_at s i)
            + base * window_value (S n) s (i - 1) base).
    rewrite IH. cbn [window_value].
    rewrite Nat2Z.inj_succ, Z.pow_succ_r by lia.
    replace (i - 1 - Z.of_nat n) with (i - Z.succ (Z.of_nat n)) by lia.
    ring.
Qed.

(** With 7-bit characters the hash is a residue. *)
Lemma hashLoop_range base mod_ s :
  0 < mod_ -> 0 <= base ->
  forall n i hash power,
    (forall k, 0 <= k < Z.of_nat n ->
               0 <= Search.char_val (char_at s (i - k))) ->
    0 <= hash < mod_ -> 0 <= power ->
    0 <= Search.hashLoop n s i base mod_ hash power < mod_.
Proof.
  intros HM Hb. induction n as [|n IH]; intros i hash power Hc Hh Hp;
    cbn [Search.hashLoop]; [exact Hh|].
  specialize (Hc 0 ltac:(lia)) as H0. rewrite Z.sub_0_r in H0.
  apply IH.
  - intros k Hk. specialize (Hc (k + 1) ltac:(lia)).
    replace (i - 1 - k) with (i - (k + 1)) by lia. exact Hc.
  - rewrite !rem_mod_nonneg; try lia; try nia.
    + apply Z.mod_pos_bound. lia.
    + pose proof (Z.mod_pos_bound
                    (Search.char_val (char_at s i) * power) mod_ HM).
      rewrite rem_mod_nonneg by nia. lia.
  - rewrite rem_mod_nonneg by nia. apply Z.mod_pos_bound. lia.
Qed.

Lemma rem_range a m : 0 < m -> - m < Z.rem a m < m.
Proof.
  intros Hm. destruct (Z.le_gt_cases 0 a) as [Ha|Ha].
  - pose proof (Z.rem_bound_pos a m Ha Hm). lia.
  - pose proof (Z.rem_bound_pos_neg a m Hm ltac:(lia)). lia.
Qed.

(** One turn of the rolling hash: from the hash of the window at [i] to
    the hash of the window at [i + 1], as a residue. *)
Lemma roll_cong mod_ base text (m : nat) i th power :
  0 < mod_ ->
  cong mod_ th (window_value (S m) text (i + Z.of_nat m) base) ->
  cong mod_ power (base ^ Z.of_nat m) ->
  let h := Z.rem (base * (th - Search.char_val (char_at text i) * power)
                  + Search.char_val (char_at text (i + Z.of_nat (S m))))
             mod_ in
  let th1 := if h <? 0 then h + mod_ else h in
  cong mod_ th1 (window_value (S m) text (i + 1 + Z.of_nat m) base) /\
  0 <= th1 < mod_.
Proof.
  intros HM Hth Hpow h th1. split.
  - apply cong_trans with h.
    { unfold th1. destruct (h <? 0); [|apply cong_refl].
      unfold cong. exists 1. lia. }
    unfold h. eapply cong_trans; [apply cong_rem|].
    rewrite window_value_top in Hth.
    replace (i + Z.of_nat m - Z.of_nat m) with i in Hth by lia.
    cbn [window_value].
    replace (i + 1 + Z.of_nat m) with (i + Z.of_nat (S m)) by lia.
    replace (i + Z.of_nat (S m) - 1) with (i + Z.of_nat m) by lia.
    rewrite (Z.add_comm (Search.char_val _)).
    apply cong_add; [|apply cong_refl].
    apply cong_mul; [apply cong_refl|].
    replace (window_value m text (i + Z.of_nat m) base)
      with (window_value m text (i + Z.of_nat m) base
            + base ^ Z.of_nat m * Search.char_val (char_at text i)
            - Search.char_val (char_at text i) * base ^ Z.of_nat m) by ring.
    apply cong_sub; [exact Hth|].
    apply cong_mul; [apply cong_refl | exact Hpow].
  - pose proof (rem_range
                  (base * (th - Search.char_val (char_at text i) * power)
                   + Search.char_val (char_at text (i + Z.of_nat (S m))))
                  mod_ HM) as Hr.
    fold h in Hr. unfold th1. destruct (h <? 0) eqn:E.
    + apply Z.ltb_lt in E. lia.
    + apply Z.ltb_ge in E. lia.
Qed.

Lemma windowMatches_complete n text pattern i :
  forall j,
    (forall k, j <= k < j + Z.of_nat n ->
               char_at text (i + k) = char_at pattern k) ->
    Search.windowMatches n text pattern i j = true.
Proof.
  induction n as [|n IH]; intros j H; cbn [Search.windowMatches];
    [reflexivity|].
  rewrite (H j) by lia. rewrite ascii_eqb_refl. cbn [negb].
  apply IH. intros k Hk. apply H. lia.
Qed.

Lemma occurs_chars text pattern pos :
  pattern <> [] ->
  occurs_at text pattern pos ->
  pos + len pattern <= len text /\
  forall k, 0 <= k < len pattern ->
            char_at text (pos + k) = char_at pattern k.
Proof.
  intros Hne [Hpos Ht].
  assert (Hlen : length (take (length pattern) (drop (Z.to_nat pos) text))
                 = length pattern) by (rewrite Ht; reflexivity).
  rewrite length_take, length_drop in Hlen.
  split.
  - unfold len. destruct pattern; [congruence|]. cbn [length] in *. lia.
  - intros k Hk. unfold char_at, len in *.
    replace (nth (Z.to_nat k) pattern zero)
      with (nth (Z.to_nat k)
              (take (length pattern) (drop (Z.to_nat pos) text)) zero)
      by (rewrite Ht; reflexivity).
    rewrite nth_firstn.
    replace (Z.to_nat k <? length pattern)%nat with true
      by (symmetry; apply Nat.ltb_lt; lia).
    rewrite nth_skipn. f_equal. lia.
Qed.

(** The search loop of [rabinKarpSearch] reports every window that holds
    the pattern, when the hash of the pattern is a residue. *)
Lemma rkLoop_complete text pattern (m : nat) patternHash power :
  let mod_ := 1000000007 in
  length pattern = S m ->
  0 <= patternHash < mod_ ->
  cong mod_ patternHash (window_value (S m) pattern (Z.of_nat m) 256) ->
  cong mod_ power (256 ^ Z.of_nat m) ->
  forall n i textHash result,
    0 <= i ->
    i + Z.of_nat n - 1 <= len text - len pattern ->
    cong mod_ textHash (window_value (S m) text (i + Z.of_nat m) 256) ->
    ((forall k, 0 <= k < len pattern ->
                char_at text (i + k) = char_at pattern k) ->
     textHash = patternHash) ->
    forall pos,
      i <= pos < i + Z.of_nat n ->
      occurs_at text pattern pos ->
      In pos (Search.rkLoop n text pattern 256 mod_ patternHash power i
                textHash result).
Proof.
  intros mod_ Hm Hph Hpc Hpow.
  assert (Hlen : len pattern = Z.of_nat m + 1) by (unfold len; lia).
  induction n as [|n IH]; intros i textHash result Hi Hb Hth Heq pos Hpos Hocc;
    [lia|].
  cbn [Search.rkLoop]. cbv zeta.
  set (h1 := if i <? _ then _ else textHash).
  set (r1 := if _ && _ then result ++ [i] else result).
  destruct (Z.eq_dec pos i) as [->|Hne].
  - destruct (rkLoop_spec text pattern 256 mod_ patternHash power n (i + 1)
                h1 r1) as (new & Hnew & _); [lia | lia |].
    rewrite Hnew. apply in_or_app. left. unfold r1.
    assert (Hne : pattern <> []) by (destruct pattern; [discriminate | congruence]).
    destruct (occurs_chars _ _ _ Hne Hocc) as [_ Hc].
    rewrite (Heq Hc), Z.eqb_refl.
    rewrite windowMatches_complete
      by (intros k Hk; apply Hc; unfold len; lia).
    cbn [andb]. apply in_or_app. right. left. reflexivity.
  - assert (Hlt : i < len text - len pattern) by lia.
    assert (E : (i <? len text - len pattern) = true) by (apply Z.ltb_lt; lia).
    destruct (roll_cong mod_ 256 text m i textHash power ltac:(unfold mod_; lia)
                Hth Hpow) as [Hc1 Hr1].
    cbv zeta in Hc1, Hr1.
    apply IH; [lia | lia | | | lia | exact Hocc].
    + unfold h1. rewrite E, Hlen.
      replace (i + (Z.of_nat m + 1)) with (i + Z.of_nat (S m)) by lia.
      exact Hc1.
    + intros Hc. apply (cong_small mod_).
      * unfold h1. rewrite E, Hlen.
        replace (i + (Z.of_nat m + 1)) with (i + Z.of_nat (S m)) by lia.
        exact Hr1.
      * exact Hph.
      * eapply cong_trans; [|apply cong_sym, Hpc].
        replace (window_value (S m) pattern (Z.of_nat m) 256)
          with (window_value (S m) text (i + 1 + Z.of_nat m) 256).
        { unfold h1. rewrite E, Hlen.
          replace (i + (Z.of_nat m + 1)) with (i + Z.of_nat (S m)) by lia.
          exact Hc1. }
        apply window_value_ext. intros k Hk.
        rewrite <- (Hc (Z.of_nat m - k)) by lia. f_equal. lia.
Qed.

Lemma seven_bit_char_at s i :
  seven_bit s -> 0 <= Search.char_val (char_at s i).
Proof.
  intros H. unfold char_at.
  destruct (nth_in_or_default (Z.to_nat i) s zero) as [Hin|Hd].
  - apply char_val_seven_bit.
    unfold seven_bit in H. rewrite Forall_forall in H.
    apply H, list_elem_of_In, Hin.
  - rewrite Hd. change (0 <= 0). lia.
Qed.

(** X25.  For a non-empty pattern of 7-bit characters, [rabinKarpSearch]
    reports exactly the offsets at which the pattern occurs in the text:
    the rolling hash of a window that holds the pattern always equals the
    hash of the pattern. *)
Theorem rabinKarpSearch_finds_every_match text pattern results pos :
  pattern <> [] ->
  seven_bit pattern ->
  len pattern <= 2 ^ 31 ->
  Search.rabinKarpSearch text pattern = Some results ->
  (In pos results <-> occurs_at text pattern pos).
Proof.
  intros Hne H7 Hint Hr. split.
  - intros Hin.
    destruct (rabinKarpSearch_sound_aux text pattern) as (res & Hres & _ & Ho).
    rewrite Hr in Hres. injection Hres as <-.
    rewrite Forall_forall in Ho. apply Ho, list_elem_of_In, Hin.
  - intros Hocc. destruct (occurs_chars _ _ _ Hne Hocc) as [Hb Hc].
    pose proof Hocc as [Hpos _].
    unfold Search.rabinKarpSearch in Hr.
    destruct pattern as [|c p'] eqn:Ep; [congruence|].
    rewrite <- Ep in *.
    assert (Hm : length pattern = S (length p')) by (subst; reflexivity).
    clear Ep.
    assert (Hlen : len pattern = Z.of_nat (length p') + 1)
      by (unfold len; lia).
    destruct (length text <? length pattern)%nat eqn:El.
    { apply Nat.ltb_lt in El. unfold len in Hb. lia. }
    cbv zeta in Hr. injection Hr as <-.
    apply (rkLoop_complete text pattern (length p')); try assumption.
    + unfold Search.computeHash.
      apply hashLoop_range; try lia.
      intros k Hk. apply seven_bit_char_at, H7.
    + unfold Search.computeHash. rewrite Hlen.
      replace (Z.to_nat (Z.of_nat (length p') + 1)) with (S (length p'))
        by lia.
      replace (0 + (Z.of_nat (length p') + 1) - 1) with (Z.of_nat (length p'))
        by lia.
      eapply cong_trans; [apply hashLoop_cong|].
      rewrite Z.add_0_l, Z.mul_1_l. apply cong_refl.
    + rewrite Hlen.
      replace (Z.of_nat (length p') + 1 - 1) with (Z.of_nat (length p'))
        by lia.
      unfold Search.computePower.
      rewrite rem_mod_nonneg by lia.
      rewrite powerLoop_spec;
        [| lia | apply Z.mod_pos_bound; lia | lia
         | change (2 ^ Z.of_nat 32) with (2 ^ 31 * 2); lia].
      rewrite Z.mul_1_l, Z.mod_pow_l. apply cong_mod.
    + lia.
    + unfold len in *. lia.
    + unfold Search.computeHash. rewrite Hlen.
      replace (Z.to_nat (Z.of_nat (length p') + 1)) with (S (length p'))
        by lia.
      replace (0 + (Z.of_nat (length p') + 1) - 1) with (Z.of_nat (length p'))
        by lia.
      eapply cong_trans; [apply hashLoop_cong|].
      rewrite Z.add_0_l, Z.mul_1_l, Z.add_0_l. apply cong_refl.
    + intros Hw. unfold Search.computeHash. rewrite Hlen.
      apply hashLoop_ext. intros k Hk.
      replace (0 + (Z.of_nat (length p') + 1) - 1 - k)
        with (0 + (Z.of_nat (length p') - k)) by lia.
      rewrite Hw by lia. f_equal; lia.
    + unfold len in *. lia.
Qed.

Lemma rabinKarpSearch_finds_every_match_witness :
  In 1 [1; 3] <-> occurs_at (str "xabab") (str "ab") 1.
Proof.
  apply (rabinKarpSearch_finds_every_match (str "xabab") (str "ab") [1; 3] 1).
  - discriminate.
  - repeat constructor.
  - unfold len. cbn. lia.
  - reflexivity.
Defined.

(** ** The compression manager *)

Lemma decompress_header_lz77 data m :
  CompressionManager.decompress
    (CompressionManager.addAlgorithmHeader data CompressionManager.LZ77) m
  = Some (LZ77.decompress data).
Proof. reflexivity. Qed.

Lemma decompress_header_huffman data m :
  CompressionManager.decompress
    (CompressionManager.addAlgorithmHeader data CompressionManager.HUFFMAN) m
  = Huffman.decompress data (CompressionManager.huffman_ m).
Proof. reflexivity. Qed.

(** X26.  What the compression manager returns for what it has
    compressed, with the codec named in the call: the header byte sends
    the data back to the codec that produced them, so that the empty text
    comes back empty, a text of fewer than 512 characters compressed with
    LZ77 comes back as itself or followed by one NUL, and a text with two
    different characters compressed with HUFFMAN comes back followed by
    fewer than 8 further characters. *)
Theorem manager_decompress_of_compress text best m :
  (text = [] ->
   forall algorithm, exists data m',
     CompressionManager.compress text algorithm best m = Some (data, m') /\
     CompressionManager.decompress data m' = Some []) /\
  (len text < 512 ->
   exists data m',
     CompressionManager.compress text CompressionManager.LZ77 best m
     = Some (data, m') /\
     (CompressionManager.decompress data m' = Some text \/
      CompressionManager.decompress data m' = Some (text ++ [zero]))) /\
  (forall a b, In a text -> In b text -> a <> b ->
   exists data m' extra,
     CompressionManager.compress text CompressionManager.HUFFMAN best m
     = Some (data, m') /\
     CompressionManager.decompress data m' = Some (text ++ extra) /\
     (length extra < 8)%nat).
Proof.
  split; [|split].
  - intros -> algorithm.
    destruct algorithm; [| |destruct best]; cbn; eexists; eexists;
      (split; [reflexivity | reflexivity]).
  - intros Hlen.
    destruct (lz77_round_trip (CompressionManager.lz77_ m) text Hlen)
      as (data & Hc & Hd).
    unfold CompressionManager.compress. cbv zeta. rewrite Hc.
    cbn [mbind option_bind].
    eexists. eexists. split; [reflexivity|].
    rewrite decompress_header_lz77.
    destruct Hd as [-> | ->]; [left | right]; reflexivity.
  - intros a b Ha Hb Hab.
    destruct (huffman_round_trip (CompressionManager.huffman_ m) text a b
                Ha Hb Hab) as (extra & Hd & He).
    unfold CompressionManager.compress. cbv zeta.
    destruct (Huffman.compress text (CompressionManager.huffman_ m))
      as [compressed h] eqn:Ec.
    cbn [fst snd] in Hd.
    eexists. eexists. exists extra. split; [reflexivity|].
    split; [|exact He]. rewrite decompress_header_huffman. exact Hd.
Qed.

Lemma manager_decompress_of_compress_witness :
  exists data m',
    CompressionManager.compress (str "abcabc") CompressionManager.LZ77
      CompressionManager.LZ77 CompressionManager.init = Some (data, m') /\
    (CompressionManager.decompress data m' = Some (str "abcabc") \/
     CompressionManager.decompress data m' = Some (str "abcabc" ++ [zero])).
Proof.
  apply (proj1 (proj2 (manager_decompress_of_compress (str "abcabc")
                         CompressionManager.LZ77 CompressionManager.init))).
  unfold len. cbn. lia.
Defined.

(** ** Hexadecimal text *)

Lemma hex_byte_round_trip b :
  0 <= b < 256 ->
  Password.strtol16 [Password.hexDigit (b / 16); Password.hexDigit (b mod 16)]
    mod 256 = b.
Proof.
  intros Hb.
  assert (H : forallb
                (fun n =>
                   Password.strtol16
                     [Password.hexDigit (Z.of_nat n / 16);
                      Password.hexDigit (Z.of_nat n mod 16)] mod 256
                   =? Z.of_nat n) (seq 0 256) = true)
    by (vm_compute; reflexivity).
  rewrite forallb_forall in H.
  specialize (H (Z.to_nat b)). rewrite Z2Nat.id in H by lia.
  apply Z.eqb_eq, H, in_seq. lia.
Qed.

Lemma hex_digits_round_trip c1 c2 :
  In c1 (str "0123456789abcdef") -> In c2 (str "0123456789abcdef") ->
  [Password.hexDigit ((Password.strtol16 [c1; c2] mod 256) / 16);
   Password.hexDigit ((Password.strtol16 [c1; c2] mod 256) mod 16)]
  = [c1; c2].
Proof.
  intros H1 H2. cbn in H1, H2.
  repeat (destruct H1 as [<-|H1]; [|]); try contradiction;
    repeat (destruct H2 as [<-|H2]; [|]); try contradiction;
    vm_compute; reflexivity.
Qed.

(** X27.  [hexToBytes] reads back what [bytesToHex] has written: every
    byte is written as two lower-case hexadecimal digits and read back as
    itself; and a string of an even number of lower-case hexadecimal digits
    is written back by [bytesToHex] as it was read by [hexToBytes]. *)
Theorem hexToBytes_of_bytesToHex :
  (forall bytes,
      Forall (fun byte => 0 <= byte < 256) bytes ->
      Password.hexToBytes (Password.bytesToHex bytes) = bytes /\
      length (Password.bytesToHex bytes) = (2 * length bytes)%nat) /\
  (forall hex,
      Forall (fun c => In c (str "0123456789abcdef")) hex ->
      Nat.Even (length hex) ->
      Password.bytesToHex (Password.hexToBytes hex) = hex).
Proof.
  split.
  - induction 1 as [|byte bytes Hb _ [IH1 IH2]]; [split; reflexivity|].
    unfold Password.bytesToHex in *. cbn [flat_map app].
    cbn [Password.hexToBytes length].
    rewrite hex_byte_round_trip by exact Hb. rewrite IH1, IH2.
    split; [reflexivity | lia].
  - intros hex. remember (length hex) as n eqn:Hn.
    revert hex Hn. induction n as [n IH] using lt_wf_ind.
    intros hex Hn Hall Hev.
    destruct hex as [|c1 [|c2 rest]].
    + reflexivity.
    + cbn in Hn. subst n. destruct Hev as [k Hk]. lia.
    + inversion Hall as [|? ? H1 Hall']; subst.
      inversion Hall' as [|? ? H2 Hrest]; subst.
      cbn [Password.hexToBytes]. unfold Password.bytesToHex in *.
      cbn [flat_map].
      rewrite (hex_digits_round_trip c1 c2 H1 H2). cbn [app]. do 2 f_equal.
      apply (IH (length rest)); [cbn [length]; lia | reflexivity | exact Hrest|].
      destruct Hev as [k Hk]. cbn [length] in Hk. exists (k - 1)%nat. lia.
Qed.

Lemma hexToBytes_of_bytesToHex_witness :
  Password.hexToBytes (Password.bytesToHex [0; 10; 255]) = [0; 10; 255] /\
  length (Password.bytesToHex [0; 10; 255]) = 6%nat.
Proof.
  apply (proj1 hexToBytes_of_bytesToHex [0; 10; 255]).
  repeat constructor; lia.
Defined.

(** ** The result cache *)

Lemma cstring_eqb_eq a b : cstring_eqb a b = true -> a = b.
Proof.
  revert b. induction a as [|x a IH]; intros [|y b] H; cbn in H;
    try discriminate; [reflexivity|].
  apply andb_true_iff in H as [Hxy Hab].
  apply ascii_eqb_eq in Hxy as ->. f_equal. apply IH, Hab.
Qed.

Lemma cstring_eqb_neq a b : a <> b -> cstring_eqb a b = false.
Proof.
  intros H. destruct (cstring_eqb a b) eqn:E; [|reflexivity].
  apply cstring_eqb_eq in E. contradiction.
Qed.

Lemma flag_inj a b : NLP.flag a = NLP.flag b -> a = b.
Proof. destruct a, b; cbn; congruence. Qed.

(** X28.  The cache never answers one request with the result of another:
    two requests have the same cache key only if they have the same text
    and the same five flags; a result stored under a key is what a lookup
    of that key returns; and storing it leaves the lookup of every other
    key as it was. *)
Theorem cache_key_identifies_request :
  (forall t1 g1 s1 n1 e1 r1 t2 g2 s2 n2 e2 r2,
      NLP.generateCacheKey t1 g1 s1 n1 e1 r1
      = NLP.generateCacheKey t2 g2 s2 n2 e2 r2 ->
      t1 = t2 /\ g1 = g2 /\ s1 = s2 /\ n1 = n2 /\ e1 = e2 /\ r1 = r2) /\
  (forall (V : Type) key (v : V) cache_,
      NLP.getFromCache V key (NLP.addToCache V key v cache_) = Some v) /\
  (forall (V : Type) key key' (v : V) cache_,
      key' <> key ->
      NLP.getFromCache V key' (NLP.addToCache V key v cache_)
      = NLP.getFromCache V key' cache_).
Proof.
  split; [|split].
  - intros t1 g1 s1 n1 e1 r1 t2 g2 s2 n2 e2 r2 H.
    unfold NLP.generateCacheKey in H.
    apply app_inj_2 in H as [Ht Hs]; [|reflexivity].
    cbn in Hs. injection Hs as Hg Hsu Hn He Hr.
    apply flag_inj in Hg, Hsu, Hn, He, Hr. repeat split; assumption.
  - intros V key v cache_. induction cache_ as [|[k w] rest IH]; cbn.
    + rewrite cstring_eqb_refl. reflexivity.
    + destruct (cstring_eqb k key) eqn:E; cbn; rewrite E; [reflexivity|].
      exact IH.
  - intros V key key' v cache_ Hne.
    induction cache_ as [|[k w] rest IH]; cbn.
    + rewrite cstring_eqb_neq by congruence. reflexivity.
    + destruct (cstring_eqb k key) eqn:E; cbn.
      * apply cstring_eqb_eq in E. subst k.
        rewrite cstring_eqb_neq by congruence. reflexivity.
      * destruct (cstring_eqb k key'); [reflexivity | exact IH].
Qed.

Lemma cache_key_identifies_request_witness :
  NLP.getFromCache nat (NLP.generateCacheKey (str "a") true true true true true)
    (NLP.addToCache nat
       (NLP.generateCacheKey (str "a") true false true true true) 7%nat [])
  = NLP.getFromCache nat
      (NLP.generateCacheKey (str "a") true true true true true) [].
Proof.
  apply (proj2 (proj2 cache_key_identifies_request) nat). discriminate.
Defined.

(** ** Helpers of the terminal front end *)

(** X29.  [getFileExtension] returns what follows the last dot of the file
    name: the name is a stem, a dot and the extension, the extension holds
    no dot, and a name without a dot has the empty extension. *)
Theorem getFileExtension_follows_last_dot filename :
  ~ In "."%char (UI.getFileExtension filename) /\
  (In "."%char filename ->
   exists stem,
     filename = stem ++ str "." ++ UI.getFileExtension filename) /\
  (~ In "."%char filename -> UI.getFileExtension filename = []).
Proof.
  unfold UI.getFileExtension.
  pose proof (rfind_char_spec "."%char filename) as H.
  destruct (AVL.rfind_char "."%char filename) as [pos|].
  - destruct H as [Hpos Hlast]. unfold substr_from.
    replace (Z.to_nat (Z.of_nat pos + 1)) with (S pos) by lia.
    split; [|split].
    + intros Hin. apply list_elem_of_In, list_elem_of_lookup_1 in Hin as [j Hj].
      rewrite lookup_drop in Hj. apply (Hlast (S pos + j)%nat); [lia|].
      exact Hj.
    + intros _. exists (take pos filename).
      rewrite <- (take_drop pos filename) at 1. f_equal.
      rewrite (drop_S _ _ _ Hpos). reflexivity.
    + intros Hn. exfalso. apply Hn.
      apply list_elem_of_In, (list_elem_of_lookup_2 _ pos), Hpos.
  - split; [intros []|]. split; [|reflexivity].
    intros Hin. exfalso.
    apply list_elem_of_In, list_elem_of_lookup_1 in Hin as [j Hj].
    exact (H j Hj).
Qed.

Lemma words_from_nonempty s :
  forall cur, Forall (fun w => w <> []) (UI.words_from s cur).
Proof.
  induction s as [|c s IH]; intros cur; cbn [UI.words_from].
  - destruct cur; [constructor|]. constructor; [discriminate | constructor].
  - destruct (isspace c); [|apply IH].
    destruct cur; [apply IH|]. constructor; [discriminate | apply IH].
Qed.

Lemma unwords_snoc ws w :
  unwords (ws ++ [w])
  = match ws with
    | [] => w
    | _ => (unwords ws ++ str " ") ++ w
    end.
Proof.
  destruct ws as [|x ws]; cbn [app unwords flat_map].
  - apply app_nil_r.
  - rewrite flat_map_app. cbn [flat_map]. rewrite app_nil_r, <- !app_assoc.
    reflexivity.
Qed.

(** One turn of the loop of [wrapText] adds the word to the lines, after
    a space or on a new line. *)
Lemma wrapStep_pending width st word :
  word <> [] ->
  exists lines' line',
    pending (UI.wrapStep width st word) = lines' ++ [line'] /\
    unwords (pending (UI.wrapStep width st word))
    = match pending st with
      | [] => word
      | _ => (unwords (pending st) ++ str " ") ++ word
      end /\
    (forall P : cstring -> Prop,
        Forall P (pending st) -> P word ->
        (snd st <> [] ->
         (0 <= width -> len (snd st) + len word + 1 <= width) ->
         P (snd st) ->
         P ((snd st ++ str " ") ++ word)) ->
        Forall P (pending (UI.wrapStep width st word))).
Proof.
  intros Hw. destruct st as [lines cur]. unfold UI.wrapStep. cbv zeta.
  destruct (len cur + len word + 1 <=? _) eqn:E.
  - destruct cur as [|c cur].
    + unfold pending. cbn [fst snd].
      destruct word as [|x word]; [congruence|].
      exists lines, (x :: word). split; [reflexivity|].
      split; [apply unwords_snoc|].
      intros P Hl Hp _. apply Forall_app. split; [exact Hl|].
      constructor; [exact Hp | constructor].
    + unfold pending. cbn [fst snd app].
      exists lines, (c :: (cur ++ str " ") ++ word).
      split; [reflexivity|]. split.
      * rewrite !unwords_snoc. destruct lines as [|l lines].
        -- cbn [app]. reflexivity.
        -- rewrite <- !app_assoc. reflexivity.
      * intros P Hl Hp Hjoin. apply Forall_app in Hl as [Hl Hc].
        apply Forall_app. split; [exact Hl|].
        constructor; [|constructor]. inversion Hc; subst.
        apply Hjoin; [discriminate | | assumption].
        intros Hwidth. apply Z.leb_le in E.
        replace (width <? 0) with false in E
          by (symmetry; apply Z.ltb_ge; lia).
        exact E.
  - destruct cur as [|c cur].
    + unfold pending. cbn [fst snd].
      exists lines, word. split; [reflexivity|].
      split; [apply unwords_snoc|].
      intros P Hl Hp _. apply Forall_app. split; [exact Hl|].
      constructor; [exact Hp | constructor].
    + unfold pending. cbn [fst snd].
      destruct word as [|x word]; [congruence|].
      exists (lines ++ [c :: cur]), (x :: word). split; [reflexivity|].
      split.
      * rewrite unwords_snoc. destruct (lines ++ [c :: cur]) eqn:El;
          [destruct lines; discriminate|]. reflexivity.
      * intros P Hl Hp _. apply Forall_app. split; [exact Hl|].
        constructor; [exact Hp | constructor].
Qed.

Lemma wrapText_pending text width :
  UI.wrapText text width
  = pending (fold_left (UI.wrapStep width) (UI.words text) ([], [])).
Proof.
  unfold UI.wrapText, pending.
  destruct (fold_left _ _ _) as [lines cur]. reflexivity.
Qed.

(** X30.  [wrapText] loses no word and adds none: its lines, joined by
    single spaces, are the words of the text joined by single spaces; no
    line is empty; and for a width that is not negative, every line is at
    most [width] characters long or is a single word of the text. *)
Theorem wrapText_keeps_the_words text width :
  unwords (UI.wrapText text width) = unwords (UI.words text) /\
  Forall (fun line => line <> []) (UI.wrapText text width) /\
  (0 <= width ->
   Forall (fun line => len line <= width \/ In line (UI.words text))
     (UI.wrapText text width)).
Proof.
  rewrite wrapText_pending.
  pose proof (words_from_nonempty text []) as Hne. fold (UI.words text) in Hne.
  assert (H : forall ws st done,
             Forall (fun w => w <> []) ws ->
             unwords (pending st) = unwords done ->
             (pending st = [] <-> done = []) ->
             Forall (fun line => line <> []) (pending st) ->
             unwords (pending (fold_left (UI.wrapStep width) ws st))
             = unwords (done ++ ws) /\
             Forall (fun line => line <> [])
               (pending (fold_left (UI.wrapStep width) ws st)) /\
             (0 <= width ->
              forall all,
                (forall w, In w ws -> In w all) ->
                Forall (fun line => len line <= width \/ In line all)
                  (pending st) ->
                Forall (fun line => len line <= width \/ In line all)
                  (pending (fold_left (UI.wrapStep width) ws st)))).
  { induction ws as [|w ws IH]; intros st done Hws Hu Hiff Hl.
    - cbn [fold_left]. rewrite app_nil_r. split; [exact Hu|].
      split; [exact Hl|]. intros _ all _ Hall. exact Hall.
    - inversion Hws as [|? ? Hw Hws']; subst. cbn [fold_left].
      destruct (wrapStep_pending width st w Hw)
        as (lines' & line' & Hp & Hunw & Hall).
      destruct (IH (UI.wrapStep width st w) (done ++ [w]) Hws')
        as (H1 & H2 & H3).
      + rewrite Hunw, unwords_snoc.
        destruct (pending st) eqn:Ep.
        * rewrite (proj1 Hiff eq_refl). reflexivity.
        * destruct done as [|d done']; [|rewrite Hu; reflexivity].
          pose proof (proj2 Hiff eq_refl). discriminate.
      + rewrite Hp. split; intros Hx; destruct lines', done; discriminate.
      + apply (Hall (fun line => line <> [])); try assumption.
        intros Hc _ _ Hx. destruct (snd st); [congruence | discriminate].
      + rewrite <- app_assoc in H1. split; [exact H1|]. split; [exact H2|].
        intros Hwidth all Hin Hok. apply (H3 Hwidth all).
        * intros x Hx. apply Hin. right. exact Hx.
        * apply (Hall (fun line => len line <= width \/ In line all));
            try assumption.
          -- right. apply Hin. left. reflexivity.
          -- intros _ Hfit _. left. specialize (Hfit Hwidth).
             rewrite !len_app. change (len (str " ")) with 1. lia. }
  destruct (H (UI.words text) ([], []) [] Hne eq_refl
              (conj (fun _ => eq_refl) (fun _ => eq_refl)) (Forall_nil_2 _))
    as (H1 & H2 & H3).
  split; [exact H1|]. split; [exact H2|].
  intros Hwidth. apply (H3 Hwidth); [tauto | constructor].
Qed.

Lemma getFileExtension_follows_last_dot_witness :
  exists stem,
    str "a.tar.gz" = stem ++ str "." ++ UI.getFileExtension (str "a.tar.gz").
Proof.
  apply (proj1 (proj2 (getFileExtension_follows_last_dot (str "a.tar.gz")))).
  cbn. tauto.
Defined.

Lemma wrapText_keeps_the_words_witness :
  Forall (fun line => len line <= 5 \/ In line (UI.words (str "aa bb cc")))
    (UI.wrapText (str "aa bb cc") 5).
Proof.
  apply (proj2 (proj2 (wrapText_keeps_the_words (str "aa bb cc") 5))). lia.
Defined.
